(** * ktexteditor: attributed text lines and the modification-state undo items

    A shallow embedding of
    - [src/buffer/katetextline.cpp]  (namespace [Kate], class [TextLine]) and
    - [src/undo/katemodifiedundo.cpp] (the six [KateModified*] undo items),
    followed by the properties of these two files. *)

From stdpp Require Import base decidable countable list gmap.
From Stdlib Require Import ZArith Lia.

Local Open Scope Z_scope.

(** ** Characters and strings

    A [QChar] is a UTF-16 code unit; the line store only ever compares a
    character with [QLatin1Char('\t')]. *)

Definition QChar : Type := Z.
Definition QString : Type := list QChar.

Definition tabChar : QChar := 9.

Definition isTab (c : QChar) : bool := c =? tabChar.

(** C++ [int] values are embedded as [Z]; an [int] has 32 bits.  Where the
    code adds or subtracts [int]s that the caller chooses (a column, the
    offset and length of a run, the length of a match), the sum is written
    with the wrap-around of the two's complement machine.  The loop counters
    that run over the characters of a line are written without: they stay in
    range as long as the visual width of the line does. *)
Definition INT_MIN : Z := -2147483648.
Definition INT_MAX : Z := 2147483647.

Definition wrap (z : Z) : Z := (z + 2147483648) mod 4294967296 - 2147483648.

Definition int_add (a b : Z) : Z := wrap (a + b).
Definition int_sub (a b : Z) : Z := wrap (a - b).

(** Qt's [qMin] and [qMax]: [(a < b) ? a : b] and [(a < b) ? b : a]. *)
Definition qMin (a b : Z) : Z := if a <? b then a else b.
Definition qMax (a b : Z) : Z := if a <? b then b else a.

(** ** The line store: [Kate::TextLine] *)

Module TextLine.

(** [Attribute]: one highlighting run.  The class is declared in
    [katetextline.h], which is not part of the sources at hand; its three
    members [offset], [length] and [attributeValue] are the ones
    [katetextline.cpp] reads and writes. *)
Record Attribute : Type := mkAttribute {
  offset : Z;
  length : Z;
  attributeValue : Z
}.

(** The advance of the visual column [x] over one character: a tab moves to
    the next tab stop, [tabWidth - (x % tabWidth)], anything else by one.
    C++ [%] truncates; [x] is never negative here, where it agrees with
    [Z.rem]. *)
Definition charWidth (tabWidth x : Z) (c : QChar) : Z :=
  if isTab c then tabWidth - Z.rem x tabWidth else 1.

(** [TextLine::virtualLength]: the [for] loop over the whole text, started at
    [x]. *)
Fixpoint virtualLength_loop (tabWidth : Z) (unicode : QString) (x : Z) : Z :=
  match unicode with
  | [] => x
  | c :: rest => virtualLength_loop tabWidth rest (x + charWidth tabWidth x c)
  end.

Definition virtualLength (m_text : QString) (tabWidth : Z) : Z :=
  virtualLength_loop tabWidth m_text 0.

(** [TextLine::toVirtualColumn]: the loop over [z < zmax]; [n] counts the
    iterations that are left, [zmax - z]. *)
Fixpoint toVirtualColumn_loop (tabWidth : Z) (unicode : QString) (n : nat)
    (x : Z) : Z :=
  match n, unicode with
  | S n', c :: rest =>
      toVirtualColumn_loop tabWidth rest n' (x + charWidth tabWidth x c)
  | _, _ => x
  end.

Definition toVirtualColumn (m_text : QString) (column tabWidth : Z) : Z :=
  if column <? 0 then 0
  else
    let zmax := qMin column (Z.of_nat (List.length m_text)) in
    let x := toVirtualColumn_loop tabWidth m_text (Z.to_nat zmax) 0 in
    int_sub (int_add x column) zmax.

(** [TextLine::fromVirtualColumn]: the loop over [z < zmax] with its early
    [break]; the state is the pair [(z, x)].  [n] counts the iterations that
    are left, [zmax - z]. *)
Fixpoint fromVirtualColumn_loop (tabWidth column : Z) (unicode : QString)
    (n : nat) (z x : Z) : Z * Z :=
  match n, unicode with
  | S n', c :: rest =>
      let diff := charWidth tabWidth x c in
      if column <? x + diff then (z, x)
      else fromVirtualColumn_loop tabWidth column rest n' (z + 1) (x + diff)
  | _, _ => (z, x)
  end.

Definition fromVirtualColumn (m_text : QString) (column tabWidth : Z) : Z :=
  if column <? 0 then 0
  else
    let zmax := qMin (Z.of_nat (List.length m_text)) column in
    let '(z, x) :=
      fromVirtualColumn_loop tabWidth column m_text (Z.to_nat zmax) 0 0 in
    z + qMax (column - x) 0.

(** [TextLine::addAttribute] on the vector [m_attributesList]: extend the
    last run in place, or [push_back]. *)
Definition addAttribute (m_attributesList : list Attribute)
    (attribute : Attribute) : list Attribute :=
  match last m_attributesList with
  | Some back =>
      if (attributeValue back =? attributeValue attribute)
         && (offset back + length back =? offset attribute)
      then
        <[pred (List.length m_attributesList) :=
            mkAttribute (offset back) (length back + length attribute)
                        (attributeValue back)]> m_attributesList
      else m_attributesList ++ [attribute]
  | None => m_attributesList ++ [attribute]
  end.

(** The comparison handed to [std::upper_bound] by [TextLine::attribute]. *)
Definition attributeComp (p : Z) (x : Attribute) : bool :=
  p <? int_add (offset x) (length x).

(** [std::upper_bound] over a random-access range: the halving loop on
    [(first, len)].  Every round at least halves [len], so [fuel = len]
    rounds are enough (lemma [upper_bound_loop_fuel]). *)
Fixpoint upper_bound_loop (fuel : nat) (v : list Attribute) (pos : Z)
    (first len : nat) : nat :=
  match fuel with
  | O => first
  | S fuel' =>
      if (len =? 0)%nat then first
      else
        let half := Nat.div2 len in
        let middle := (first + half)%nat in
        match v !! middle with
        | Some x =>
            if attributeComp pos x
            then upper_bound_loop fuel' v pos first half
            else upper_bound_loop fuel' v pos (S middle) (len - half - 1)%nat
        | None => first
        end
  end.

Definition upper_bound (v : list Attribute) (pos : Z) : nat :=
  upper_bound_loop (List.length v) v pos 0 (List.length v).

(** [TextLine::attribute]. *)
Definition attribute (m_attributesList : list Attribute) (pos : Z) : Z :=
  let found := upper_bound m_attributesList pos in
  match m_attributesList !! found with
  | Some x =>
      if (offset x <=? pos) && (pos <? int_add (offset x) (length x))
      then attributeValue x
      else 0
  | None => 0
  end.

Section Whitespace.

(** [QChar::isSpace] belongs to Qt, not to this code; it is a parameter. *)
Variable isSpace : QChar -> bool.

(** [TextLine::nextNonSpaceChar]: the loop [for (i = pos; i < length; i++)]
    over the characters from [pos] on. *)
Fixpoint nextNonSpaceChar_loop (unicode : QString) (i : Z) : Z :=
  match unicode with
  | [] => -1
  | c :: rest =>
      if negb (isSpace c) then i else nextNonSpaceChar_loop rest (i + 1)
  end.

(** [Q_ASSERT(pos >= 0)]: a negative [pos] is [None]. *)
Definition nextNonSpaceChar (m_text : QString) (pos : Z) : option Z :=
  if pos <? 0 then None
  else Some (nextNonSpaceChar_loop (drop (Z.to_nat pos) m_text) pos).

(** [TextLine::firstChar]: [nextNonSpaceChar(0)], whose assertion holds. *)
Definition firstChar (m_text : QString) : Z := nextNonSpaceChar_loop m_text 0.

(** [TextLine::previousNonSpaceChar]: the loop [for (i = pos; i >= 0; i--)];
    [n] is [i + 1].  The index is in range whenever the loop runs, so the
    [None] case is never reached. *)
Fixpoint previousNonSpaceChar_loop (m_text : QString) (n : nat) : Z :=
  match n with
  | O => -1
  | S i =>
      match m_text !! i with
      | Some c =>
          if negb (isSpace c) then Z.of_nat i
          else previousNonSpaceChar_loop m_text i
      | None => -1
      end
  end.

Definition previousNonSpaceChar (m_text : QString) (pos : Z) : Z :=
  let pos :=
    if Z.of_nat (List.length m_text) <=? pos
    then Z.of_nat (List.length m_text) - 1 else pos in
  previousNonSpaceChar_loop m_text (Z.to_nat (pos + 1)).

(** [TextLine::lastChar]. *)
Definition lastChar (m_text : QString) : Z :=
  previousNonSpaceChar m_text (Z.of_nat (List.length m_text) - 1).

(** Modelled from the spec: [TextLine::string(column, length)] of
    [katetextline.h], the substring of [length] characters from [column]. *)
Definition string (m_text : QString) (column length : Z) : QString :=
  take (Z.to_nat length) (drop (Z.to_nat column) m_text).

(** [TextLine::leadingWhitespace]. *)
Definition leadingWhitespace (m_text : QString) : QString :=
  if firstChar m_text <? 0
  then string m_text 0 (Z.of_nat (List.length m_text))
  else string m_text 0 (firstChar m_text).

(** [TextLine::indentDepth]: the loop with its early [return d]. *)
Fixpoint indentDepth_loop (tabWidth : Z) (unicode : QString) (d : Z) : Z :=
  match unicode with
  | [] => d
  | c :: rest =>
      if isSpace c then
        if c =? tabChar
        then indentDepth_loop tabWidth rest (d + (tabWidth - Z.rem d tabWidth))
        else indentDepth_loop tabWidth rest (d + 1)
      else d
  end.

Definition indentDepth (m_text : QString) (tabWidth : Z) : Z :=
  indentDepth_loop tabWidth m_text 0.

End Whitespace.

(** [unicode[i]]: a read outside the buffer has no result. *)
Definition charAt (unicode : QString) (i : Z) : option QChar :=
  if (i <? 0) || (Z.of_nat (List.length unicode) <=? i) then None
  else unicode !! Z.to_nat i.

(** [TextLine::matchesAt]: the comparison loop over [match], reading the
    text at [i + column]. *)
Fixpoint matchesAt_loop (unicode : QString) (column : Z) (matchUnicode : QString)
    (i : Z) : option bool :=
  match matchUnicode with
  | [] => Some true
  | m :: rest =>
      c ← charAt unicode (int_add i column);
      if negb (c =? m) then Some false
      else matchesAt_loop unicode column rest (i + 1)
  end.

Definition matchesAt (m_text : QString) (column : Z) (match_ : QString)
  : option bool :=
  if column <? 0 then Some false
  else
    let len := Z.of_nat (List.length m_text) in
    let matchlen := Z.of_nat (List.length match_) in
    if len <? int_add column matchlen then Some false
    else matchesAt_loop m_text column match_ 0.

End TextLine.

(** ** Line objects and the document

    [katetextline.h] is not part of the sources at hand.  What is used from
    it here is the per-line pair of marks "modified" and "saved on disk",
    read with [markedAsModified] / [markedAsSavedOnDisk] and written with
    [markAsModified(bool)] / [markAsSavedOnDisk(bool)]. *)

Record TextLineData : Type := mkTextLine {
  m_text : QString;
  m_attributesList : list TextLine.Attribute;
  lineModified : bool;
  lineSavedOnDisk : bool
}.

Definition markedAsModified (tl : TextLineData) : bool := lineModified tl.
Definition markedAsSavedOnDisk (tl : TextLineData) : bool := lineSavedOnDisk tl.

(** The lines of a document; [plainKateTextLine] yields the line object or a
    null pointer. *)
Abbreviation Document := (list TextLineData).

Definition plainKateTextLine (document : Document) (line : nat)
  : option TextLineData := document !! line.

Section LineMarks.

(** The two setters of [katetextline.h] come in two readings, selected by
    [exclusive]: setting one mark also clears the other one
    ([exclusive = true]), or leaves it alone ([exclusive = false]).  The
    sources at hand do not fix which; every statement below holds for both. *)
Variable exclusive : bool.

(** Modelled from the spec: [TextLine::markAsModified] of [katetextline.h].
    The spec has the boolean [modified]; the setter called with [false]
    clears the mark, called with [true] sets it. *)
Definition markAsModified (modified : bool) (tl : TextLineData) : TextLineData :=
  if modified then
    mkTextLine (m_text tl) (m_attributesList tl) true
               (if exclusive then false else lineSavedOnDisk tl)
  else
    mkTextLine (m_text tl) (m_attributesList tl) false (lineSavedOnDisk tl).

(** Modelled from the spec: [TextLine::markAsSavedOnDisk] of
    [katetextline.h], the same for the boolean [savedOnDisk]. *)
Definition markAsSavedOnDisk (savedOnDisk : bool) (tl : TextLineData) : TextLineData :=
  if savedOnDisk then
    mkTextLine (m_text tl) (m_attributesList tl)
               (if exclusive then false else lineModified tl) true
  else
    mkTextLine (m_text tl) (m_attributesList tl) (lineModified tl) false.

(** The statement pair that ends every [undo]/[redo] of
    [katemodifiedundo.cpp]:
    [tl = document->plainKateTextLine(line); Q_ASSERT(tl);
     tl->markAsModified(m); tl->markAsSavedOnDisk(s);]
    The line object is shared with the document, so the document sees the
    new marks.  A failed assertion (null line) is [None]. *)
Definition markLine (line : nat) (m s : bool) (document : Document)
  : option Document :=
  tl ← plainKateTextLine document line;
  Some (<[line := markAsSavedOnDisk s (markAsModified m tl)]> document).

End LineMarks.

(** ** Undo items *)

(** [KateUndo::ModificationFlag].  The enumeration, the bitset [m_flags] and
    its accessors [setFlag], [unsetFlag] and [isFlagSet] are declared in
    [kateundo.h], which is not part of the sources at hand; the spec lists
    the eight members. *)
Inductive ModificationFlag : Type :=
  | UndoLine1Modified | UndoLine2Modified | UndoLine1Saved | UndoLine2Saved
  | RedoLine1Modified | RedoLine2Modified | RedoLine1Saved | RedoLine2Saved.

Global Instance ModificationFlag_eq_dec : EqDecision ModificationFlag.
Proof. solve_decision. Defined.

Global Instance ModificationFlag_countable : Countable ModificationFlag.
Proof.
  refine (inj_countable'
    (fun f => match f with
              | UndoLine1Modified => 0 | UndoLine2Modified => 1
              | UndoLine1Saved => 2 | UndoLine2Saved => 3
              | RedoLine1Modified => 4 | RedoLine2Modified => 5
              | RedoLine1Saved => 6 | RedoLine2Saved => 7
              end%nat)
    (fun n => match n with
              | 0 => UndoLine1Modified | 1 => UndoLine2Modified
              | 2 => UndoLine1Saved | 3 => UndoLine2Saved
              | 4 => RedoLine1Modified | 5 => RedoLine2Modified
              | 6 => RedoLine1Saved | _ => RedoLine2Saved
              end%nat) _).
  intros []; reflexivity.
Defined.

(** Modelled from the spec: the flag bitset [m_flags] of an undo item, as
    the set of its members. *)
Abbreviation FlagSet := (gset ModificationFlag).

(** The data the [KateEdit*Undo] base classes store: the constructor
    arguments of the six kinds.  Line numbers index the document and are
    never negative; they are embedded as [nat].  Columns and lengths are
    [int]s, embedded as [Z]. *)
Inductive KateEditUndo : Type :=
  | KateEditInsertTextUndo (line : nat) (col : Z) (text : QString)
  | KateEditRemoveTextUndo (line : nat) (col : Z) (text : QString)
  | KateEditWrapLineUndo (line : nat) (col len : Z) (newLine : bool)
  | KateEditUnWrapLineUndo (line : nat) (col len : Z) (removeLine : bool)
  | KateEditInsertLineUndo (line : nat) (text : QString)
  | KateEditRemoveLineUndo (line : nat) (text : QString).

Record KateUndo : Type := mkUndo {
  edit : KateEditUndo;
  m_flags : FlagSet
}.

Definition line (u : KateUndo) : nat :=
  match edit u with
  | KateEditInsertTextUndo l _ _ | KateEditRemoveTextUndo l _ _
  | KateEditWrapLineUndo l _ _ _ | KateEditUnWrapLineUndo l _ _ _
  | KateEditInsertLineUndo l _ | KateEditRemoveLineUndo l _ => l
  end.

(** Modelled from the spec: [setFlag], [unsetFlag] and [isFlagSet] of
    [kateundo.h] add a member to the bitset, remove it, and test it. *)
Definition setFlag (flag : ModificationFlag) (u : KateUndo) : KateUndo :=
  mkUndo (edit u) ({[flag]} ∪ m_flags u).

Definition unsetFlag (flag : ModificationFlag) (u : KateUndo) : KateUndo :=
  mkUndo (edit u) (m_flags u ∖ {[flag]}).

Definition isFlagSet (flag : ModificationFlag) (u : KateUndo) : bool :=
  bool_decide (flag ∈ m_flags u).

(** A freshly constructed base item: no flag set. *)
Definition newUndo (e : KateEditUndo) : KateUndo := mkUndo e ∅.

(** *** Constructors: the flags are computed from the lines' current marks *)

Definition KateModifiedInsertText (document : Document) (line : nat) (col : Z)
    (text : QString) : option KateUndo :=
  let u := setFlag RedoLine1Modified (newUndo (KateEditInsertTextUndo line col text)) in
  tl ← plainKateTextLine document line;
  Some (if markedAsModified tl then setFlag UndoLine1Modified u
        else setFlag UndoLine1Saved u).

Definition KateModifiedRemoveText (document : Document) (line : nat) (col : Z)
    (text : QString) : option KateUndo :=
  let u := setFlag RedoLine1Modified (newUndo (KateEditRemoveTextUndo line col text)) in
  tl ← plainKateTextLine document line;
  Some (if markedAsModified tl then setFlag UndoLine1Modified u
        else setFlag UndoLine1Saved u).

Definition KateModifiedWrapLine (document : Document) (line : nat) (col len : Z)
    (newLine : bool) : option KateUndo :=
  let u := newUndo (KateEditWrapLineUndo line col len newLine) in
  tl ← plainKateTextLine document line;
  let u :=
    if (0 <? len) || markedAsModified tl then setFlag RedoLine1Modified u
    else if markedAsSavedOnDisk tl then setFlag RedoLine1Saved u
    else u in
  let u :=
    if (0 <? col) || (len =? 0) || markedAsModified tl then setFlag RedoLine2Modified u
    else if markedAsSavedOnDisk tl then setFlag RedoLine2Saved u
    else u in
  let u :=
    if markedAsModified tl then setFlag UndoLine1Modified u
    else if ((0 <? len) && (0 <? col)) || markedAsSavedOnDisk tl
         then setFlag UndoLine1Saved u
    else u in
  Some u.

Definition KateModifiedUnWrapLine (document : Document) (line : nat) (col len : Z)
    (removeLine : bool) : option KateUndo :=
  let u := newUndo (KateEditUnWrapLineUndo line col len removeLine) in
  tl ← plainKateTextLine document line;
  nextLine ← plainKateTextLine document (line + 1);
  let len1 := Z.of_nat (List.length (m_text tl)) in
  let len2 := Z.of_nat (List.length (m_text nextLine)) in
  if (0 <? len1) && (0 <? len2) then
    let u := setFlag RedoLine1Modified u in
    let u := if markedAsModified tl then setFlag UndoLine1Modified u
             else setFlag UndoLine1Saved u in
    let u := if markedAsModified nextLine then setFlag UndoLine2Modified u
             else setFlag UndoLine2Saved u in
    Some u
  else if len1 =? 0 then
    let u := if markedAsModified nextLine then setFlag RedoLine1Modified u
             else if markedAsSavedOnDisk nextLine then setFlag RedoLine1Saved u
             else u in
    let u := if markedAsModified tl then setFlag UndoLine1Modified u
             else setFlag UndoLine1Saved u in
    let u := if markedAsModified nextLine then setFlag UndoLine2Modified u
             else if markedAsSavedOnDisk nextLine then setFlag UndoLine2Saved u
             else u in
    Some u
  else
    let u := if markedAsModified nextLine then setFlag RedoLine1Modified u
             else if markedAsSavedOnDisk nextLine then setFlag RedoLine1Saved u
             else u in
    let u := if markedAsModified tl then setFlag UndoLine1Modified u
             else if markedAsSavedOnDisk tl then setFlag UndoLine1Saved u
             else u in
    let u := if markedAsModified nextLine then setFlag UndoLine2Modified u
             else setFlag UndoLine2Saved u in
    Some u.

Definition KateModifiedInsertLine (line : nat) (text : QString) : KateUndo :=
  setFlag RedoLine1Modified (newUndo (KateEditInsertLineUndo line text)).

Definition KateModifiedRemoveLine (document : Document) (line : nat)
    (text : QString) : option KateUndo :=
  let u := newUndo (KateEditRemoveLineUndo line text) in
  tl ← plainKateTextLine document line;
  Some (if markedAsModified tl then setFlag UndoLine1Modified u
        else setFlag UndoLine1Saved u).

(** *** Undo and redo *)

Section UndoRedo.

Variable exclusive : bool.

(** The text mutations [KateEdit*Undo::undo] and [KateEdit*Undo::redo] of the
    base classes live in [kateundo.cpp], outside the sources at hand; they
    are parameters here. *)
Variable KateEditUndo_undo : KateEditUndo -> Document -> Document.
Variable KateEditUndo_redo : KateEditUndo -> Document -> Document.

Definition KateModifiedInsertText_undo (u : KateUndo) (document : Document)
  : option Document :=
  let document := KateEditUndo_undo (edit u) document in
  markLine exclusive (line u)
    (isFlagSet UndoLine1Modified u) (isFlagSet UndoLine1Saved u) document.

Definition KateModifiedRemoveText_undo (u : KateUndo) (document : Document)
  : option Document :=
  let document := KateEditUndo_undo (edit u) document in
  markLine exclusive (line u)
    (isFlagSet UndoLine1Modified u) (isFlagSet UndoLine1Saved u) document.

Definition KateModifiedWrapLine_undo (u : KateUndo) (document : Document)
  : option Document :=
  let document := KateEditUndo_undo (edit u) document in
  markLine exclusive (line u)
    (isFlagSet UndoLine1Modified u) (isFlagSet UndoLine1Saved u) document.

Definition KateModifiedUnWrapLine_undo (u : KateUndo) (document : Document)
  : option Document :=
  let document := KateEditUndo_undo (edit u) document in
  document ← markLine exclusive (line u)
    (isFlagSet UndoLine1Modified u) (isFlagSet UndoLine1Saved u) document;
  markLine exclusive (line u + 1)
    (isFlagSet UndoLine2Modified u) (isFlagSet UndoLine2Saved u) document.

(** "no line modification needed, since the line is removed" *)
Definition KateModifiedInsertLine_undo (u : KateUndo) (document : Document)
  : option Document :=
  Some (KateEditUndo_undo (edit u) document).

Definition KateModifiedRemoveLine_undo (u : KateUndo) (document : Document)
  : option Document :=
  let document := KateEditUndo_undo (edit u) document in
  markLine exclusive (line u)
    (isFlagSet UndoLine1Modified u) (isFlagSet UndoLine1Saved u) document.

Definition KateModifiedRemoveText_redo (u : KateUndo) (doc : Document)
  : option Document :=
  let doc := KateEditUndo_redo (edit u) doc in
  markLine exclusive (line u)
    (isFlagSet RedoLine1Modified u) (isFlagSet RedoLine1Saved u) doc.

Definition KateModifiedInsertText_redo (u : KateUndo) (doc : Document)
  : option Document :=
  let doc := KateEditUndo_redo (edit u) doc in
  markLine exclusive (line u)
    (isFlagSet RedoLine1Modified u) (isFlagSet RedoLine1Saved u) doc.

Definition KateModifiedUnWrapLine_redo (u : KateUndo) (doc : Document)
  : option Document :=
  let doc := KateEditUndo_redo (edit u) doc in
  markLine exclusive (line u)
    (isFlagSet RedoLine1Modified u) (isFlagSet RedoLine1Saved u) doc.

Definition KateModifiedWrapLine_redo (u : KateUndo) (doc : Document)
  : option Document :=
  let doc := KateEditUndo_redo (edit u) doc in
  doc ← markLine exclusive (line u)
    (isFlagSet RedoLine1Modified u) (isFlagSet RedoLine1Saved u) doc;
  markLine exclusive (line u + 1)
    (isFlagSet RedoLine2Modified u) (isFlagSet RedoLine2Saved u) doc.

(** "no line modification needed, since the line is removed" *)
Definition KateModifiedRemoveLine_redo (u : KateUndo) (doc : Document)
  : option Document :=
  Some (KateEditUndo_redo (edit u) doc).

Definition KateModifiedInsertLine_redo (u : KateUndo) (doc : Document)
  : option Document :=
  let doc := KateEditUndo_redo (edit u) doc in
  markLine exclusive (line u)
    (isFlagSet RedoLine1Modified u) (isFlagSet RedoLine1Saved u) doc.

(** Virtual dispatch on the dynamic class of the item. *)
Definition undo (u : KateUndo) (document : Document) : option Document :=
  match edit u with
  | KateEditInsertTextUndo _ _ _ => KateModifiedInsertText_undo u document
  | KateEditRemoveTextUndo _ _ _ => KateModifiedRemoveText_undo u document
  | KateEditWrapLineUndo _ _ _ _ => KateModifiedWrapLine_undo u document
  | KateEditUnWrapLineUndo _ _ _ _ => KateModifiedUnWrapLine_undo u document
  | KateEditInsertLineUndo _ _ => KateModifiedInsertLine_undo u document
  | KateEditRemoveLineUndo _ _ => KateModifiedRemoveLine_undo u document
  end.

Definition redo (u : KateUndo) (doc : Document) : option Document :=
  match edit u with
  | KateEditInsertTextUndo _ _ _ => KateModifiedInsertText_redo u doc
  | KateEditRemoveTextUndo _ _ _ => KateModifiedRemoveText_redo u doc
  | KateEditWrapLineUndo _ _ _ _ => KateModifiedWrapLine_redo u doc
  | KateEditUnWrapLineUndo _ _ _ _ => KateModifiedUnWrapLine_redo u doc
  | KateEditInsertLineUndo _ _ => KateModifiedInsertLine_redo u doc
  | KateEditRemoveLineUndo _ _ => KateModifiedRemoveLine_redo u doc
  end.

End UndoRedo.

(** *** Save reconciliation *)

(** [QBitArray]: [resize] keeps the old bits and clears the new ones. *)
Abbreviation QBitArray := (list bool).

Definition resize (n : nat) (lines : QBitArray) : QBitArray :=
  take n lines ++ replicate (n - List.length lines) false.

Definition testBit (i : nat) (lines : QBitArray) : bool :=
  default false (lines !! i).

Definition setBit (i : nat) (lines : QBitArray) : QBitArray :=
  <[i := true]> lines.

(** [if (n - 1 >= lines.size()) lines.resize(n);] *)
Definition ensureSize (n : nat) (lines : QBitArray) : QBitArray :=
  if (List.length lines <? n)%nat then resize n lines else lines.

Definition KateModifiedInsertText_updateRedoSavedOnDiskFlag
    (u : KateUndo) (lines : QBitArray) : QBitArray * KateUndo :=
  let lines := ensureSize (line u + 1) lines in
  if negb (testBit (line u) lines) then
    (setBit (line u) lines, setFlag RedoLine1Saved (unsetFlag RedoLine1Modified u))
  else (lines, u).

Definition KateModifiedInsertText_updateUndoSavedOnDiskFlag
    (u : KateUndo) (lines : QBitArray) : QBitArray * KateUndo :=
  let lines := ensureSize (line u + 1) lines in
  if negb (testBit (line u) lines) then
    (setBit (line u) lines, setFlag UndoLine1Saved (unsetFlag UndoLine1Modified u))
  else (lines, u).

Definition KateModifiedRemoveText_updateRedoSavedOnDiskFlag
    (u : KateUndo) (lines : QBitArray) : QBitArray * KateUndo :=
  let lines := ensureSize (line u + 1) lines in
  if negb (testBit (line u) lines) then
    (setBit (line u) lines, setFlag RedoLine1Saved (unsetFlag RedoLine1Modified u))
  else (lines, u).

Definition KateModifiedRemoveText_updateUndoSavedOnDiskFlag
    (u : KateUndo) (lines : QBitArray) : QBitArray * KateUndo :=
  let lines := ensureSize (line u + 1) lines in
  if negb (testBit (line u) lines) then
    (setBit (line u) lines, setFlag UndoLine1Saved (unsetFlag UndoLine1Modified u))
  else (lines, u).

Definition KateModifiedWrapLine_updateRedoSavedOnDiskFlag
    (u : KateUndo) (lines : QBitArray) : QBitArray * KateUndo :=
  let lines := ensureSize (line u + 2) lines in
  let '(lines, u) :=
    if isFlagSet RedoLine1Modified u && negb (testBit (line u) lines) then
      (setBit (line u) lines, setFlag RedoLine1Saved (unsetFlag RedoLine1Modified u))
    else (lines, u) in
  if isFlagSet RedoLine2Modified u && negb (testBit (line u + 1) lines) then
    (setBit (line u + 1) lines, setFlag RedoLine2Saved (unsetFlag RedoLine2Modified u))
  else (lines, u).

Definition KateModifiedWrapLine_updateUndoSavedOnDiskFlag
    (u : KateUndo) (lines : QBitArray) : QBitArray * KateUndo :=
  let lines := ensureSize (line u + 1) lines in
  if isFlagSet UndoLine1Modified u && negb (testBit (line u) lines) then
    (setBit (line u) lines, setFlag UndoLine1Saved (unsetFlag UndoLine1Modified u))
  else (lines, u).

Definition KateModifiedUnWrapLine_updateRedoSavedOnDiskFlag
    (u : KateUndo) (lines : QBitArray) : QBitArray * KateUndo :=
  let lines := ensureSize (line u + 1) lines in
  if isFlagSet RedoLine1Modified u && negb (testBit (line u) lines) then
    (setBit (line u) lines, setFlag RedoLine1Saved (unsetFlag RedoLine1Modified u))
  else (lines, u).

Definition KateModifiedUnWrapLine_updateUndoSavedOnDiskFlag
    (u : KateUndo) (lines : QBitArray) : QBitArray * KateUndo :=
  let lines := ensureSize (line u + 2) lines in
  let '(lines, u) :=
    if isFlagSet UndoLine1Modified u && negb (testBit (line u) lines) then
      (setBit (line u) lines, setFlag UndoLine1Saved (unsetFlag UndoLine1Modified u))
    else (lines, u) in
  if isFlagSet UndoLine2Modified u && negb (testBit (line u + 1) lines) then
    (setBit (line u + 1) lines, setFlag UndoLine2Saved (unsetFlag UndoLine2Modified u))
  else (lines, u).

Definition KateModifiedInsertLine_updateRedoSavedOnDiskFlag
    (u : KateUndo) (lines : QBitArray) : QBitArray * KateUndo :=
  let lines := ensureSize (line u + 1) lines in
  if negb (testBit (line u) lines) then
    (setBit (line u) lines, setFlag RedoLine1Saved (unsetFlag RedoLine1Modified u))
  else (lines, u).

Definition KateModifiedRemoveLine_updateUndoSavedOnDiskFlag
    (u : KateUndo) (lines : QBitArray) : QBitArray * KateUndo :=
  let lines := ensureSize (line u + 1) lines in
  if negb (testBit (line u) lines) then
    (setBit (line u) lines, setFlag UndoLine1Saved (unsetFlag UndoLine1Modified u))
  else (lines, u).

(** Modelled from the spec: [kateundo.h], with the virtual
    [updateRedoSavedOnDiskFlag] / [updateUndoSavedOnDiskFlag] of the base
    class [KateUndo], is missing.  [KateModifiedInsertLine] does not override
    the undo one and [KateModifiedRemoveLine] not the redo one; the spec has
    no flag for these directions (the line ceases to exist), so the
    inherited update changes nothing. *)
Definition KateUndo_updateSavedOnDiskFlag
    (u : KateUndo) (lines : QBitArray) : QBitArray * KateUndo := (lines, u).

(** Virtual dispatch. *)
Definition updateRedoSavedOnDiskFlag (u : KateUndo) (lines : QBitArray)
  : QBitArray * KateUndo :=
  match edit u with
  | KateEditInsertTextUndo _ _ _ => KateModifiedInsertText_updateRedoSavedOnDiskFlag u lines
  | KateEditRemoveTextUndo _ _ _ => KateModifiedRemoveText_updateRedoSavedOnDiskFlag u lines
  | KateEditWrapLineUndo _ _ _ _ => KateModifiedWrapLine_updateRedoSavedOnDiskFlag u lines
  | KateEditUnWrapLineUndo _ _ _ _ => KateModifiedUnWrapLine_updateRedoSavedOnDiskFlag u lines
  | KateEditInsertLineUndo _ _ => KateModifiedInsertLine_updateRedoSavedOnDiskFlag u lines
  | KateEditRemoveLineUndo _ _ => KateUndo_updateSavedOnDiskFlag u lines
  end.

Definition updateUndoSavedOnDiskFlag (u : KateUndo) (lines : QBitArray)
  : QBitArray * KateUndo :=
  match edit u with
  | KateEditInsertTextUndo _ _ _ => KateModifiedInsertText_updateUndoSavedOnDiskFlag u lines
  | KateEditRemoveTextUndo _ _ _ => KateModifiedRemoveText_updateUndoSavedOnDiskFlag u lines
  | KateEditWrapLineUndo _ _ _ _ => KateModifiedWrapLine_updateUndoSavedOnDiskFlag u lines
  | KateEditUnWrapLineUndo _ _ _ _ => KateModifiedUnWrapLine_updateUndoSavedOnDiskFlag u lines
  | KateEditInsertLineUndo _ _ => KateUndo_updateSavedOnDiskFlag u lines
  | KateEditRemoveLineUndo _ _ => KateModifiedRemoveLine_updateUndoSavedOnDiskFlag u lines
  end.

(** Modelled from the spec: the caller that runs the pass over the items
    ([KateUndoManager]) is missing.  The spec has one sweep per direction,
    each with its own marker bitmap that starts cleared and is shared by the
    items of the sweep. *)
Fixpoint sweep (update : KateUndo -> QBitArray -> QBitArray * KateUndo)
    (items : list KateUndo) (lines : QBitArray) : QBitArray * list KateUndo :=
  match items with
  | [] => (lines, [])
  | u :: rest =>
      let '(lines, u') := update u lines in
      let '(lines, rest') := sweep update rest lines in
      (lines, u' :: rest')
  end.

(** Modelled from the spec: the save-reconciliation pass.
    [updateRedoSavedOnDiskFlag] on every item with one fresh bitmap (of [n]
    cleared bits), then [updateUndoSavedOnDiskFlag] on every item with
    another fresh bitmap (of [m] cleared bits). *)
Definition reconcile (n m : nat) (items : list KateUndo) : list KateUndo :=
  let items := snd (sweep updateRedoSavedOnDiskFlag items (replicate n false)) in
  snd (sweep updateUndoSavedOnDiskFlag items (replicate m false)).

(** ** Vocabulary of the statements *)

(** The visual column at which character [k] of the line starts. *)
Definition columnOfChar (m_text : QString) (tabWidth : Z) (k : nat) : Z :=
  TextLine.virtualLength (take k m_text) tabWidth.

(** The visual column of the character column [column] as a mathematical
    integer: the column at which that character starts, and one column per
    position past the end of the line. *)
Definition visualColumn (m_text : QString) (column tabWidth : Z) : Z :=
  let zmax := Z.min column (Z.of_nat (List.length m_text)) in
  columnOfChar m_text tabWidth (Z.to_nat zmax) + (column - zmax).

(** A value that an [int] can hold. *)
Definition inInt (z : Z) : bool := (INT_MIN <=? z) && (z <=? INT_MAX).

(** A virtual column lies strictly inside the expansion of a tab: some
    character [k] is a tab that starts before [v] and ends after it. *)
Definition insideTabExpansion (m_text : QString) (tabWidth v : Z) : bool :=
  existsb
    (fun k =>
       match m_text !! k with
       | Some c =>
           isTab c && (columnOfChar m_text tabWidth k <? v)
                   && (v <? columnOfChar m_text tabWidth (S k))
       | None => false
       end)
    (seq 0 (List.length m_text)).

(** [pos] lies in the half-open span [[offset, offset+length)] of a run. *)
Definition spanContains (x : TextLine.Attribute) (pos : Z) : bool :=
  (TextLine.offset x <=? pos) && (pos <? TextLine.offset x + TextLine.length x).

(** The runs are sorted ascending by offset and do not overlap: no run has
    a negative length, and each run ends at or before the start of the
    next one. *)
Fixpoint sortedRuns (runs : list TextLine.Attribute) : bool :=
  match runs with
  | [] => true
  | x :: rest =>
      (0 <=? TextLine.length x)
      && match rest with
         | [] => true
         | y :: _ => TextLine.offset x + TextLine.length x <=? TextLine.offset y
         end
      && sortedRuns rest
  end.

(** Every run starts and ends at a position that an [int] can hold. *)
Definition runsInRange (runs : list TextLine.Attribute) : bool :=
  forallb (fun x => inInt (TextLine.offset x)
                    && inInt (TextLine.offset x + TextLine.length x)) runs.

(** Every run lies in the line: it starts at a position [>= 0] and ends at
    a position that an [int] can hold. *)
Definition runsInLine (runs : list TextLine.Attribute) : bool :=
  forallb (fun x => (0 <=? TextLine.offset x)
                    && (TextLine.offset x + TextLine.length x <=? INT_MAX)) runs.



(** The (line slot, direction) pairs of the flag bitset. *)
Inductive Direction : Type := Undo | Redo.
Inductive LineSlot : Type := Line1 | Line2.

Global Instance Direction_eq_dec : EqDecision Direction.
Proof. solve_decision. Defined.

Global Instance LineSlot_eq_dec : EqDecision LineSlot.
Proof. solve_decision. Defined.

Definition modifiedFlag (d : Direction) (s : LineSlot) : ModificationFlag :=
  match d, s with
  | Undo, Line1 => UndoLine1Modified | Undo, Line2 => UndoLine2Modified
  | Redo, Line1 => RedoLine1Modified | Redo, Line2 => RedoLine2Modified
  end.

Definition savedFlag (d : Direction) (s : LineSlot) : ModificationFlag :=
  match d, s with
  | Undo, Line1 => UndoLine1Saved | Undo, Line2 => UndoLine2Saved
  | Redo, Line1 => RedoLine1Saved | Redo, Line2 => RedoLine2Saved
  end.

Definition allPairs : list (Direction * LineSlot) :=
  [(Undo, Line1); (Undo, Line2); (Redo, Line1); (Redo, Line2)].

(** At most one of Modified / Saved is set in every pair. *)
Definition atMostOnePerPair (u : KateUndo) : bool :=
  forallb (fun '(d, s) =>
             negb (isFlagSet (modifiedFlag d s) u && isFlagSet (savedFlag d s) u))
          allPairs.

(** [u'] is [u] except that in some pairs a set Modified flag has been
    replaced by the Saved flag of the same pair. *)
Definition onlyModifiedToSaved (u u' : KateUndo) : Prop :=
  edit u' = edit u
  /\ forall d s,
       (isFlagSet (modifiedFlag d s) u' = isFlagSet (modifiedFlag d s) u
        /\ isFlagSet (savedFlag d s) u' = isFlagSet (savedFlag d s) u)
       \/ (isFlagSet (modifiedFlag d s) u = true
           /\ isFlagSet (savedFlag d s) u = false
           /\ isFlagSet (modifiedFlag d s) u' = false
           /\ isFlagSet (savedFlag d s) u' = true).

(** The rewrite of one pair done by a save-reconciliation update:
    [unsetFlag(...Modified); setFlag(...Saved);]. *)
Definition toSaved (d : Direction) (s : LineSlot) (u : KateUndo) : KateUndo :=
  setFlag (savedFlag d s) (unsetFlag (modifiedFlag d s) u).

(** The pairs that are never empty in a record of each class. *)
Definition pairSet (d : Direction) (s : LineSlot) (u : KateUndo) : bool :=
  isFlagSet (modifiedFlag d s) u || isFlagSet (savedFlag d s) u.

Definition fullPairs (u : KateUndo) : bool :=
  match edit u with
  | KateEditInsertTextUndo _ _ _ | KateEditRemoveTextUndo _ _ _ =>
      pairSet Redo Line1 u && pairSet Undo Line1 u
  | KateEditInsertLineUndo _ _ => pairSet Redo Line1 u
  | KateEditRemoveLineUndo _ _ => pairSet Undo Line1 u
  | KateEditWrapLineUndo _ _ _ _ | KateEditUnWrapLineUndo _ _ _ _ => true
  end.

(** What every save-reconciliation update keeps. *)
Definition keeps (u u' : KateUndo) : Prop :=
  atMostOnePerPair u' = true /\ fullPairs u' = true /\ onlyModifiedToSaved u u'.

(** The line a slot of an item stands for. *)
Definition slotLine (u : KateUndo) (s : LineSlot) : nat :=
  match s with Line1 => line u | Line2 => (line u + 1)%nat end.

(** The slots whose line marks [undo] (resp. [redo]) of each class writes. *)
Definition slotsMarked (e : KateEditUndo) (d : Direction) : list LineSlot :=
  match d, e with
  | Undo, KateEditInsertTextUndo _ _ _ => [Line1]
  | Undo, KateEditRemoveTextUndo _ _ _ => [Line1]
  | Undo, KateEditWrapLineUndo _ _ _ _ => [Line1]
  | Undo, KateEditUnWrapLineUndo _ _ _ _ => [Line1; Line2]
  | Undo, KateEditInsertLineUndo _ _ => []
  | Undo, KateEditRemoveLineUndo _ _ => [Line1]
  | Redo, KateEditInsertTextUndo _ _ _ => [Line1]
  | Redo, KateEditRemoveTextUndo _ _ _ => [Line1]
  | Redo, KateEditWrapLineUndo _ _ _ _ => [Line1; Line2]
  | Redo, KateEditUnWrapLineUndo _ _ _ _ => [Line1]
  | Redo, KateEditInsertLineUndo _ _ => [Line1]
  | Redo, KateEditRemoveLineUndo _ _ => []
  end.

(** The marks (modified, savedOnDisk) of a line of the document. *)
Definition marksOf (document : Document) (line : nat) : option (bool * bool) :=
  tl ← plainKateTextLine document line;
  Some (markedAsModified tl, markedAsSavedOnDisk tl).

(** The records whose save-reconciliation updates mark their line without
    looking at the record's flags: all kinds but WrapLine and UnwrapLine. *)
Definition singleLineKind (u : KateUndo) : bool :=
  match edit u with
  | KateEditWrapLineUndo _ _ _ _ | KateEditUnWrapLineUndo _ _ _ _ => false
  | _ => true
  end.

(** The records that exist: built by one of the six constructors, then
    changed by save-reconciliation updates only. *)
Inductive reachable : KateUndo -> Prop :=
  | reach_InsertText document line col text u :
      KateModifiedInsertText document line col text = Some u -> reachable u
  | reach_RemoveText document line col text u :
      KateModifiedRemoveText document line col text = Some u -> reachable u
  | reach_WrapLine document line col len newLine u :
      KateModifiedWrapLine document line col len newLine = Some u -> reachable u
  | reach_UnWrapLine document line col len removeLine u :
      KateModifiedUnWrapLine document line col len removeLine = Some u -> reachable u
  | reach_InsertLine line text :
      reachable (KateModifiedInsertLine line text)
  | reach_RemoveLine document line text u :
      KateModifiedRemoveLine document line text = Some u -> reachable u
  | reach_updateRedo u lines :
      reachable u -> reachable (snd (updateRedoSavedOnDiskFlag u lines))
  | reach_updateUndo u lines :
      reachable u -> reachable (snd (updateUndoSavedOnDiskFlag u lines)).

(** Executing an item in a direction, and the text mutation it starts with. *)
Definition textMutation
    (KateEditUndo_undo KateEditUndo_redo : KateEditUndo -> Document -> Document)
    (d : Direction) : KateEditUndo -> Document -> Document :=
  match d with Undo => KateEditUndo_undo | Redo => KateEditUndo_redo end.

Definition execute (exclusive : bool)
    (KateEditUndo_undo KateEditUndo_redo : KateEditUndo -> Document -> Document)
    (d : Direction) (u : KateUndo) (document : Document) : option Document :=
  match d with
  | Undo => undo exclusive KateEditUndo_undo u document
  | Redo => redo exclusive KateEditUndo_redo u document
  end.

(** Whether the redo (undo) update of a record marks its line in the bitmap
    without looking at the record's flags. *)
Definition marksRedo (u : KateUndo) : bool :=
  match edit u with
  | KateEditInsertTextUndo _ _ _ | KateEditRemoveTextUndo _ _ _
  | KateEditInsertLineUndo _ _ => true
  | _ => false
  end.

Definition marksUndo (u : KateUndo) : bool :=
  match edit u with
  | KateEditInsertTextUndo _ _ _ | KateEditRemoveTextUndo _ _ _
  | KateEditRemoveLineUndo _ _ => true
  | _ => false
  end.

(** A sweep seen from outside: of the marking records, the first one on each
    line not seen before is rewritten by [f]. *)
Fixpoint firstPerLine (marks : KateUndo -> bool) (f : KateUndo -> KateUndo)
    (seen : gset nat) (items : list KateUndo) : list KateUndo :=
  match items with
  | [] => []
  | u :: rest =>
      if marks u then
        (if decide (line u ∈ seen) then u else f u)
        :: firstPerLine marks f ({[line u]} ∪ seen) rest
      else u :: firstPerLine marks f seen rest
  end.

(** The bitmap [lines] has exactly the bits of the set [seen]. *)
Definition bitsOf (lines : QBitArray) (seen : gset nat) : Prop :=
  forall i, testBit i lines = bool_decide (i ∈ seen).

(** Save reconciliation in a direction. *)
Definition updateSavedOnDiskFlag (d : Direction) (u : KateUndo)
    (lines : QBitArray) : QBitArray * KateUndo :=
  match d with
  | Undo => updateUndoSavedOnDiskFlag u lines
  | Redo => updateRedoSavedOnDiskFlag u lines
  end.

(** The marking half of [undo] / [redo] seen slot by slot: the statement
    pair of [markLine] for every written slot, with the flags of the
    direction. *)
Fixpoint markSlots (exclusive : bool) (d : Direction) (u : KateUndo)
    (slots : list LineSlot) (document : Document) : option Document :=
  match slots with
  | [] => Some document
  | s :: rest =>
      document ← markLine exclusive (slotLine u s)
                   (isFlagSet (modifiedFlag d s) u)
                   (isFlagSet (savedFlag d s) u) document;
      markSlots exclusive d u rest document
  end.

(** One [if (cond && !lines.testBit(l)) { lines.setBit(l); unsetFlag(M);
    setFlag(S); }] block of a save-reconciliation update; [flagTested]
    tells whether [cond] tests the Modified flag of the slot (WrapLine,
    UnwrapLine) or is absent (the other kinds). *)
Definition markSaved (flagTested : bool) (d : Direction)
    (p : QBitArray * KateUndo) (s : LineSlot) : QBitArray * KateUndo :=
  let '(lines, u) := p in
  if (negb flagTested || isFlagSet (modifiedFlag d s) u)
     && negb (testBit (slotLine u s) lines)
  then (setBit (slotLine u s) lines, toSaved d s u)
  else (lines, u).

(** The records a constructor builds from a document, with the line number
    handed to the constructor. *)
Inductive constructedOn (document : Document) (line : nat) : KateUndo -> Prop :=
  | on_InsertText col text u :
      KateModifiedInsertText document line col text = Some u ->
      constructedOn document line u
  | on_RemoveText col text u :
      KateModifiedRemoveText document line col text = Some u ->
      constructedOn document line u
  | on_WrapLine col len newLine u :
      KateModifiedWrapLine document line col len newLine = Some u ->
      constructedOn document line u
  | on_UnWrapLine col len removeLine u :
      KateModifiedUnWrapLine document line col len removeLine = Some u ->
      constructedOn document line u
  | on_RemoveLine text u :
      KateModifiedRemoveLine document line text = Some u ->
      constructedOn document line u.

(** Two records agree in direction [d]: the same edit data and the same
    flags of that direction. *)
Definition sameDirection (d : Direction) (u v : KateUndo) : Prop :=
  edit u = edit v
  /\ forall s,
       isFlagSet (modifiedFlag d s) u = isFlagSet (modifiedFlag d s) v
       /\ isFlagSet (savedFlag d s) u = isFlagSet (savedFlag d s) v.

(** The update of direction [d] of the record has a block for line [l]. *)
Definition writes (d : Direction) (u : KateUndo) (l : nat) : bool :=
  existsb (fun s => (slotLine u s =? l)%nat) (slotsMarked (edit u) d).

(** No record writes, in direction [d], a line that a WrapLine or
    UnwrapLine record before it can claim in the bitmap: a line for which
    that record carries the Modified flag of direction [d]. *)
Fixpoint claimsKept (d : Direction) (items : list KateUndo) : bool :=
  match items with
  | [] => true
  | u :: rest =>
      forallb
        (fun s =>
           negb (negb (singleLineKind u) && isFlagSet (modifiedFlag d s) u)
           || forallb (fun v => negb (writes d v (slotLine u s))) rest)
        (slotsMarked (edit u) d)
      && claimsKept d rest
  end.

(** ** Text mutations for the examples

    Modelled from the spec: the base-class text mutations of [kateundo.cpp]
    are missing.  The spec's table of variants gives: text inserted at
    (line, col); text removed at (line, col); line split in two at
    (line, col); line merged with the following line; whole line inserted;
    whole line deleted.  The marks of existing lines are not touched by the
    mutation, a new line object starts with no mark.  These functions only
    instantiate the parameters of [undo] and [redo] in closed examples. *)

Definition setText (tl : TextLineData) (text : QString) : TextLineData :=
  mkTextLine text (m_attributesList tl) (lineModified tl) (lineSavedOnDisk tl).

Definition newLineObject (text : QString) : TextLineData :=
  mkTextLine text [] false false.

Definition editInsertText (line : nat) (col : Z) (text : QString)
    (document : Document) : Document :=
  match document !! line with
  | Some tl =>
      <[line := setText tl (take (Z.to_nat col) (m_text tl) ++ text
                            ++ drop (Z.to_nat col) (m_text tl))]> document
  | None => document
  end.

Definition editRemoveText (line : nat) (col : Z) (text : QString)
    (document : Document) : Document :=
  match document !! line with
  | Some tl =>
      <[line := setText tl (take (Z.to_nat col) (m_text tl)
                            ++ drop (Z.to_nat col + List.length text) (m_text tl))]>
        document
  | None => document
  end.

Definition editWrapLine (line : nat) (col : Z) (document : Document) : Document :=
  match document !! line with
  | Some tl =>
      take line document
      ++ [setText tl (take (Z.to_nat col) (m_text tl));
          newLineObject (drop (Z.to_nat col) (m_text tl))]
      ++ drop (S line) document
  | None => document
  end.

Definition editUnWrapLine (line : nat) (document : Document) : Document :=
  match document !! line, document !! S line with
  | Some tl, Some nextLine =>
      take line document
      ++ [setText tl (m_text tl ++ m_text nextLine)]
      ++ drop (S (S line)) document
  | _, _ => document
  end.

Definition editInsertLine (line : nat) (text : QString) (document : Document)
  : Document :=
  take line document ++ [newLineObject text] ++ drop line document.

Definition editRemoveLine (line : nat) (document : Document) : Document :=
  take line document ++ drop (S line) document.

Definition exampleRedo (e : KateEditUndo) (document : Document) : Document :=
  match e with
  | KateEditInsertTextUndo line col text => editInsertText line col text document
  | KateEditRemoveTextUndo line col text => editRemoveText line col text document
  | KateEditWrapLineUndo line col _ _ => editWrapLine line col document
  | KateEditUnWrapLineUndo line _ _ _ => editUnWrapLine line document
  | KateEditInsertLineUndo line text => editInsertLine line text document
  | KateEditRemoveLineUndo line _ => editRemoveLine line document
  end.

Definition exampleUndo (e : KateEditUndo) (document : Document) : Document :=
  match e with
  | KateEditInsertTextUndo line col text => editRemoveText line col text document
  | KateEditRemoveTextUndo line col text => editInsertText line col text document
  | KateEditWrapLineUndo line _ _ _ => editUnWrapLine line document
  | KateEditUnWrapLineUndo line col _ _ => editWrapLine line col document
  | KateEditInsertLineUndo line _ => editRemoveLine line document
  | KateEditRemoveLineUndo line text => editInsertLine line text document
  end.

(** The characters of "hello". *)
Definition hello : QString := [104; 101; 108; 108; 111].

(** A one-line document whose line carries no mark, the WrapLine records
    built on it at column 0 and at column 3, and the document after the
    InsertText edit of "!" at column 5. *)
Definition cleanDocument : Document := [mkTextLine hello [] false false].

Definition wrapAtStart : KateUndo :=
  mkUndo (KateEditWrapLineUndo 0 0 5 true) {[RedoLine1Modified]}.

Definition wrapInside : KateUndo :=
  mkUndo (KateEditWrapLineUndo 0 3 2 true)
         {[RedoLine1Modified; RedoLine2Modified; UndoLine1Saved]}.

Definition editedDocument : Document :=
  [mkTextLine (hello ++ [33]) [] true false].

(** A one-line document whose line is marked modified, and the WrapLine and
    InsertText records built on it. *)
Definition modifiedDocument : Document := [mkTextLine hello [] true false].

Definition wrapModified : KateUndo :=
  mkUndo (KateEditWrapLineUndo 0 3 2 true)
         {[RedoLine1Modified; RedoLine2Modified; UndoLine1Modified]}.

Definition insertModified : KateUndo :=
  mkUndo (KateEditInsertTextUndo 0 3 [33])
         {[RedoLine1Modified; UndoLine1Modified]}.

(** A whitespace test for the examples: the ASCII part of [QChar::isSpace],
    the blank and the control characters 9 to 13. *)
Definition asciiSpace (c : QChar) : bool :=
  (c =? 32) || ((9 <=? c) && (c <=? 13)).

(** * Properties *)

(** ** Column arithmetic *)

Module TextLineFacts.
Import TextLine.

Section Columns.

Variable tabWidth : Z.
Hypothesis tabWidth_pos : 1 <= tabWidth.

Lemma charWidth_pos x c : 0 <= x -> 1 <= charWidth tabWidth x c.
Proof.
  intros Hx. unfold charWidth. destruct (isTab c); [|lia].
  pose proof (Z.rem_bound_pos x tabWidth Hx ltac:(lia)). lia.
Qed.

Lemma virtualLength_loop_ge text : forall x,
  0 <= x -> x + Z.of_nat (List.length text) <= virtualLength_loop tabWidth text x.
Proof.
  induction text as [|c rest IH]; intros x Hx; simpl; [lia|].
  pose proof (charWidth_pos x c Hx).
  specialize (IH (x + charWidth tabWidth x c) ltac:(lia)). lia.
Qed.

Lemma virtualLength_loop_app a b x :
  virtualLength_loop tabWidth (a ++ b) x
  = virtualLength_loop tabWidth b (virtualLength_loop tabWidth a x).
Proof. revert x. induction a as [|c a IH]; intros x; simpl; [done|]. apply IH. Qed.




Lemma qMin_min a b : qMin a b = Z.min a b.
Proof. unfold qMin. destruct (Z.ltb_spec a b); lia. Qed.

Lemma qMax_max a b : qMax a b = Z.max a b.
Proof. unfold qMax. destruct (Z.ltb_spec a b); lia. Qed.

Lemma toVirtualColumn_loop_take text : forall n x,
  toVirtualColumn_loop tabWidth text n x
  = virtualLength_loop tabWidth (take n text) x.
Proof.
  induction text as [|c rest IH]; intros [|n] x; simpl; done.
Qed.

Lemma wrap_inInt z : inInt z = true -> wrap z = z.
Proof.
  unfold inInt, INT_MIN, INT_MAX, wrap.
  intros [H1%Z.leb_le H2%Z.leb_le]%andb_prop.
  rewrite Z.mod_small by lia. lia.
Qed.

Lemma wrap_sub_l a b : wrap (wrap a - b) = wrap (a - b).
Proof.
  unfold wrap.
  replace ((a + 2147483648) mod 4294967296 - 2147483648 - b + 2147483648)
    with ((a + 2147483648) mod 4294967296 - b) by lia.
  rewrite Zminus_mod_idemp_l. f_equal. f_equal. lia.
Qed.

(** [toVirtualColumn] computes the visual column, wrapped to an [int]. *)
Lemma toVirtualColumn_wrap text column :
  0 <= column ->
  toVirtualColumn text column tabWidth = wrap (visualColumn text column tabWidth).
Proof.
  intros Hc. unfold toVirtualColumn, visualColumn, columnOfChar, virtualLength.
  rewrite qMin_min, toVirtualColumn_loop_take.
  destruct (Z.ltb_spec column 0); [lia|].
  unfold int_sub, int_add. rewrite wrap_sub_l. f_equal. lia.
Qed.

Lemma toVirtualColumn_exact text column :
  0 <= column -> inInt (visualColumn text column tabWidth) = true ->
  toVirtualColumn text column tabWidth = visualColumn text column tabWidth.
Proof. intros Hc Hin. by rewrite toVirtualColumn_wrap, wrap_inInt. Qed.













End Columns.



Lemma visualColumn_nonneg text column tabWidth :
  1 <= tabWidth -> 0 <= column -> column <= visualColumn text column tabWidth.
Proof.
  intros Hw Hc. unfold visualColumn, columnOfChar, virtualLength.
  pose proof (virtualLength_loop_ge tabWidth Hw
                (take (Z.to_nat (Z.min column (Z.of_nat (List.length text)))) text)
                0 ltac:(lia)) as Hge.
  rewrite length_take in Hge. lia.
Qed.

Lemma inInt_intro z : INT_MIN <= z -> z <= INT_MAX -> inInt z = true.
Proof. intros H1 H2. unfold inInt. apply andb_true_intro. split; by apply Z.leb_le. Qed.






(** ** Attribute runs *)

Lemma sortedRuns_lookup runs :
  sortedRuns runs = true ->
  (forall i x, runs !! i = Some x -> 0 <= length x)
  /\ (forall i x y, runs !! i = Some x -> runs !! S i = Some y ->
        offset x + length x <= offset y).
Proof.
  induction runs as [|a rest IH]; intros Hs.
  - split; intros i x; [|intros y]; rewrite lookup_nil; done.
  - simpl in Hs. apply andb_prop in Hs as [Hs Hrest].
    apply andb_prop in Hs as [Hlen Hnext].
    destruct (IH Hrest) as [IH1 IH2]. split.
    + intros [|i] x Hx; simpl in Hx; [|by eapply IH1].
      injection Hx as <-. lia.
    + intros [|i] x y Hx Hy; simpl in Hx, Hy; [|by eapply IH2].
      injection Hx as <-. destruct rest as [|b rest']; [done|].
      simpl in Hy. injection Hy as <-. lia.
Qed.

Lemma sortedRuns_intro runs :
  (forall i x, runs !! i = Some x -> 0 <= length x) ->
  (forall i x y, runs !! i = Some x -> runs !! S i = Some y ->
     offset x + length x <= offset y) ->
  sortedRuns runs = true.
Proof.
  induction runs as [|a rest IH]; intros Hlen Hnext; [done|].
  simpl. rewrite IH.
  - pose proof (Hlen 0%nat a eq_refl). destruct rest as [|b rest'].
    + rewrite !andb_true_r. by apply Z.leb_le.
    + pose proof (Hnext 0%nat a b eq_refl eq_refl).
      rewrite andb_true_r. apply andb_true_intro. split; by apply Z.leb_le.
  - intros i x Hx. by apply (Hlen (S i)).
  - intros i x y Hx Hy. by apply (Hnext (S i)).
Qed.

(** For runs of positive length [sortedRuns] says no more than: the offsets
    ascend and neighbouring spans share no position. *)
Lemma sortedRuns_of_disjoint runs :
  (forall i x, runs !! i = Some x -> 0 < length x) ->
  (forall i x y, runs !! i = Some x -> runs !! S i = Some y ->
     offset x <= offset y
     /\ forall p, spanContains x p && spanContains y p = false) ->
  sortedRuns runs = true.
Proof.
  intros Hpos Hdisj. apply sortedRuns_intro.
  - intros i x Hx. pose proof (Hpos i x Hx). lia.
  - intros i x y Hx Hy. destruct (Hdisj i x y Hx Hy) as [Hle Hno].
    pose proof (Hpos _ _ Hx). pose proof (Hpos _ _ Hy).
    destruct (Z.le_gt_cases (offset x + length x) (offset y)) as [|Hgt]; [done|].
    specialize (Hno (offset y)). unfold spanContains in Hno.
    apply andb_false_iff in Hno as [Hno|Hno]; apply andb_false_iff in Hno as [Hno|Hno].
    + apply Z.leb_gt in Hno. lia.
    + apply Z.ltb_ge in Hno. lia.
    + apply Z.leb_gt in Hno. lia.
    + apply Z.ltb_ge in Hno. lia.
Qed.

Section Runs.

Variable runs : list Attribute.
Hypothesis runs_sorted : sortedRuns runs = true.
Hypothesis runs_in_range : runsInRange runs = true.

Lemma run_length_nonneg i x : runs !! i = Some x -> 0 <= length x.
Proof. apply (proj1 (sortedRuns_lookup runs runs_sorted)). Qed.

(** The end of a run in range is computed without wrap-around. *)
Lemma run_end_exact i x :
  runs !! i = Some x -> int_add (offset x) (length x) = offset x + length x.
Proof.
  intros Hx. unfold int_add. apply wrap_inInt.
  pose proof (proj1 (forallb_forall _ _) runs_in_range x) as Hin.
  apply andb_prop in Hin as [_ Hin]; [done|].
  apply list_elem_of_In, list_elem_of_lookup. eauto.
Qed.

Lemma run_before d : forall i x y,
  runs !! i = Some x -> runs !! (i + S d)%nat = Some y ->
  offset x + length x <= offset y.
Proof.
  induction d as [|d IH]; intros i x y Hx Hy.
  - replace (i + 1)%nat with (S i) in Hy by lia.
    by apply (proj2 (sortedRuns_lookup runs runs_sorted) i).
  - replace (i + S (S d))%nat with (S (i + S d)) in Hy by lia.
    destruct (lookup_lt_is_Some_2 runs (i + S d)) as [m Hm].
    { apply lookup_lt_Some in Hy. lia. }
    pose proof (IH i x m Hx Hm).
    pose proof (proj2 (sortedRuns_lookup runs runs_sorted) _ _ _ Hm Hy).
    pose proof (run_length_nonneg _ _ Hm). lia.
Qed.

Lemma run_before_lt i j x y :
  (i < j)%nat -> runs !! i = Some x -> runs !! j = Some y ->
  offset x + length x <= offset y.
Proof.
  intros Hij Hx Hy. apply (run_before (j - i - 1) i); [done|].
  by replace (i + S (j - i - 1))%nat with j by lia.
Qed.

(** The comparison of [attribute] is monotone along sorted runs: the range
    is partitioned, as [std::upper_bound] requires. *)
Lemma attributeComp_mono pos i j x y :
  (i <= j)%nat -> runs !! i = Some x -> runs !! j = Some y ->
  attributeComp pos x = true -> attributeComp pos y = true.
Proof.
  intros Hij Hx Hy. unfold attributeComp.
  rewrite (run_end_exact _ _ Hx), (run_end_exact _ _ Hy).
  intros Hc%Z.ltb_lt. apply Z.ltb_lt.
  destruct (decide (i = j)) as [->|Hne]; [congruence|].
  pose proof (run_before_lt i j x y ltac:(lia) Hx Hy).
  pose proof (run_length_nonneg _ _ Hy). lia.
Qed.

(** The halving loop returns the partition point of its range. *)
Lemma upper_bound_loop_spec pos : forall fuel first len,
  (len <= fuel)%nat -> (first + len <= List.length runs)%nat ->
  (forall i x, (i < first)%nat -> runs !! i = Some x -> attributeComp pos x = false) ->
  (forall i x, (first + len <= i)%nat -> runs !! i = Some x -> attributeComp pos x = true) ->
  let r := upper_bound_loop fuel runs pos first len in
  (forall i x, (i < r)%nat -> runs !! i = Some x -> attributeComp pos x = false)
  /\ (forall i x, (r <= i)%nat -> runs !! i = Some x -> attributeComp pos x = true).
Proof.
  induction fuel as [|fuel IH]; intros first len Hfuel Hrange Hlo Hhi; simpl.
  - assert (len = 0)%nat as -> by lia. split; [done|].
    intros i x Hi. apply Hhi. lia.
  - destruct (Nat.eqb_spec len 0) as [->|Hlen].
    { split; [done|]. intros i x Hi. apply Hhi. lia. }
    pose proof (Nat.div2_div len) as Hhalf.
    assert (Nat.div2 len < len)%nat as Hlt by (rewrite Hhalf; apply Nat.div_lt; lia).
    destruct (lookup_lt_is_Some_2 runs (first + Nat.div2 len) ltac:(lia)) as [m Hm].
    rewrite Hm. destruct (attributeComp pos m) eqn:Hc.
    + apply IH; [lia | lia | done |].
      intros i x Hi Hx. by apply (attributeComp_mono pos (first + Nat.div2 len) i m x).
    + apply IH; [lia | lia | | intros i x Hi; apply Hhi; lia].
      intros i x Hi Hx. destruct (attributeComp pos x) eqn:Hcx; [|done].
      rewrite <- Hc. symmetry.
      by apply (attributeComp_mono pos i (first + Nat.div2 len) x m); [lia|..].
Qed.

Lemma upper_bound_spec pos :
  (forall i x, (i < upper_bound runs pos)%nat -> runs !! i = Some x ->
     attributeComp pos x = false)
  /\ (forall i x, (upper_bound runs pos <= i)%nat -> runs !! i = Some x ->
       attributeComp pos x = true).
Proof.
  apply upper_bound_loop_spec; [lia | lia | lia |].
  intros i x Hi Hx. apply lookup_lt_Some in Hx. lia.
Qed.

End Runs.

(** More fuel than [len] changes nothing: the loop has finished. *)
Lemma upper_bound_loop_fuel v pos : forall fuel fuel' first len,
  (len <= fuel)%nat -> (len <= fuel')%nat ->
  upper_bound_loop fuel v pos first len = upper_bound_loop fuel' v pos first len.
Proof.
  induction fuel as [|fuel IH]; intros fuel' first len Hfuel Hfuel'.
  - assert (len = 0)%nat as -> by lia. by destruct fuel'.
  - destruct fuel' as [|fuel'].
    { by assert (len = 0)%nat as -> by lia. }
    simpl. destruct (Nat.eqb_spec len 0) as [->|Hlen]; [done|].
    assert (Nat.div2 len < len)%nat as Hlt
      by (rewrite Nat.div2_div; apply Nat.div_lt; lia).
    destruct (v !! (first + Nat.div2 len)%nat) as [m|]; [|done]. revert m.
    generalize dependent (Nat.div2 len). intros half Hlt m.
    destruct (attributeComp pos m); apply IH; lia.
Qed.

(** C8 as stated fails.  An empty run inside the span of another run
    overlaps nothing and keeps the offsets ascending, but the ends of the
    runs no longer ascend and the binary search misses the run that contains
    the position.  And a run that ends past [INT_MAX] has an end that wraps
    around, so that the search finds nothing in it. *)
Lemma attribute_stray_counterexample :
  let a := mkAttribute 0 10 1 in
  let b := mkAttribute 5 0 2 in
  let c := mkAttribute 12 3 3 in
  let d := mkAttribute INT_MAX 1 9 in
  (offset a <= offset b <= offset c
   /\ (forall p, spanContains a p && spanContains b p = false)
   /\ (forall p, spanContains a p && spanContains c p = false)
   /\ (forall p, spanContains b p && spanContains c p = false)
   /\ spanContains a 7 = true
   /\ attribute [a; b; c] 7 = 0)
  /\ (spanContains d INT_MAX = true /\ attribute [d] INT_MAX = 0).
Proof.
  simpl. split; [|by split].
  split; [lia|].
  split; [|split; [|split; [|by split]]];
    intros p; unfold spanContains; simpl;
    repeat match goal with
           | |- context [?x <=? ?y] => destruct (Z.leb_spec x y)
           | |- context [?x <? ?y] => destruct (Z.ltb_spec x y)
           end; simpl; (done || lia).
Qed.

(** C8, amended: on runs with lengths [>= 0] of which each ends at or
    before the start of the next ([sortedRuns]) and whose starts and ends
    an [int] can hold ([runsInRange]), [attribute pos] is the value of the
    run whose span contains [pos], that run is unique, and the result is 0
    when no run contains [pos]. *)
Theorem attribute_spec (runs : list Attribute) (pos : Z) :
  sortedRuns runs = true -> runsInRange runs = true ->
  (forall x, x ∈ runs -> spanContains x pos = true ->
     attribute runs pos = attributeValue x)
  /\ (forall i j x y, runs !! i = Some x -> runs !! j = Some y ->
        spanContains x pos = true -> spanContains y pos = true -> i = j)
  /\ ((forall x, x ∈ runs -> spanContains x pos = false) ->
        attribute runs pos = 0).
Proof.
  intros Hs Hr.
  assert (forall i j x y, (i < j)%nat -> runs !! i = Some x -> runs !! j = Some y ->
            spanContains x pos = true -> spanContains y pos = true -> False) as Hdisj.
  { intros i j x y Hij Hx Hy. unfold spanContains.
    intros [_ Hxe%Z.ltb_lt]%andb_prop [Hyo%Z.leb_le _]%andb_prop.
    pose proof (run_before_lt runs Hs i j x y Hij Hx Hy). lia. }
  destruct (upper_bound_spec runs Hs Hr pos) as [Hlo Hhi].
  split; [|split].
  - intros x [i Hx]%list_elem_of_lookup Hin. unfold attribute.
    assert (attributeComp pos x = true) as Hc.
    { unfold attributeComp. rewrite (run_end_exact runs Hr _ _ Hx).
      unfold spanContains in Hin. apply andb_prop in Hin as [_ Hin]. done. }
    assert (upper_bound runs pos <= i)%nat as Hle.
    { destruct (Nat.le_gt_cases (upper_bound runs pos) i) as [|Hgt]; [done|].
      rewrite (Hlo i x Hgt Hx) in Hc. done. }
    destruct (lookup_lt_is_Some_2 runs (upper_bound runs pos)) as [m Hm].
    { apply lookup_lt_Some in Hx. lia. }
    rewrite Hm, (run_end_exact runs Hr _ _ Hm).
    destruct (decide (upper_bound runs pos = i)) as [Heq|Hne].
    + rewrite Heq in Hm. assert (m = x) as -> by congruence.
      unfold spanContains in Hin. by rewrite Hin.
    + exfalso. pose proof (Hhi _ m (Nat.le_refl _) Hm) as Hcm.
      unfold attributeComp in Hcm. rewrite (run_end_exact runs Hr _ _ Hm) in Hcm.
      apply Z.ltb_lt in Hcm.
      assert (upper_bound runs pos < i)%nat as Hlt by lia.
      pose proof (run_before_lt runs Hs _ i m x Hlt Hm Hx).
      unfold spanContains in Hin. apply andb_prop in Hin as [Ho%Z.leb_le _]. lia.
  - intros i j x y Hx Hy Hcx Hcy.
    destruct (Nat.lt_trichotomy i j) as [Hlt|[Heq|Hgt]]; [|done|].
    + exfalso. by apply (Hdisj i j x y).
    + exfalso. by apply (Hdisj j i y x).
  - intros Hnone. unfold attribute.
    destruct (runs !! upper_bound runs pos) as [m|] eqn:Hm; [|done].
    rewrite (run_end_exact runs Hr _ _ Hm).
    assert (spanContains m pos = false) as Hcm.
    { apply Hnone. apply list_elem_of_lookup. eauto. }
    unfold spanContains in Hcm. by rewrite Hcm.
Qed.

(** *** [addAttribute] *)

Lemma addAttribute_snoc init back a :
  addAttribute (init ++ [back]) a
  = if (attributeValue back =? attributeValue a)
       && (offset back + length back =? offset a)
    then init ++ [mkAttribute (offset back) (length back + length a)
                              (attributeValue back)]
    else init ++ [back; a].
Proof.
  unfold addAttribute. rewrite last_snoc.
  destruct ((attributeValue back =? attributeValue a)
            && (offset back + length back =? offset a)).
  - rewrite length_app. simpl.
    replace (pred (List.length init + 1)) with (List.length init + 0)%nat by lia.
    by rewrite insert_app_r.
  - by rewrite <- app_assoc.
Qed.










Lemma attribute_spec_witness :
  let runs := [mkAttribute 0 2 5; mkAttribute 4 3 7] in
  sortedRuns runs = true /\ runsInRange runs = true
  /\ attribute runs 5 = 7 /\ attribute runs 3 = 0 /\ attribute runs 9 = 0.
Proof.
  split; [reflexivity|]. split; [reflexivity|].
  pose proof (attribute_spec [mkAttribute 0 2 5; mkAttribute 4 3 7] 5
                eq_refl eq_refl) as (Hin & _ & _).
  split; [|split; reflexivity].
  apply (Hin (mkAttribute 4 3 7)); [|reflexivity].
  apply list_elem_of_In. simpl. tauto.
Defined.



(** Strictly inside the expansion of a tab the round trip of C6 moves the
    column: the boundary condition cannot be dropped. *)
Example round_trip_inside_tab_example :
  let text := [97; 9; 98] in
  insideTabExpansion text 4 2 = true
  /\ fromVirtualColumn text 2 4 = 2
  /\ toVirtualColumn text (fromVirtualColumn text 2 4) 4 = 4.
Proof. repeat split. Qed.

End TextLineFacts.

(** ** Undo items *)

Module UndoFacts.

Lemma isFlagSet_setFlag f g u :
  isFlagSet f (setFlag g u) = bool_decide (f = g) || isFlagSet f u.
Proof.
  unfold isFlagSet, setFlag. simpl.
  apply eq_true_iff_eq. rewrite orb_true_iff, !bool_decide_eq_true. set_solver.
Qed.

Lemma isFlagSet_unsetFlag f g u :
  isFlagSet f (unsetFlag g u) = negb (bool_decide (f = g)) && isFlagSet f u.
Proof.
  unfold isFlagSet, unsetFlag. simpl.
  apply eq_true_iff_eq.
  rewrite andb_true_iff, negb_true_iff, bool_decide_eq_false, !bool_decide_eq_true.
  rewrite elem_of_difference, elem_of_singleton. tauto.
Qed.

Lemma isFlagSet_newUndo f e : isFlagSet f (newUndo e) = false.
Proof. unfold isFlagSet, newUndo. simpl. apply bool_decide_eq_false. set_solver. Qed.

Lemma edit_setFlag f u : edit (setFlag f u) = edit u.
Proof. done. Qed.

Lemma edit_unsetFlag f u : edit (unsetFlag f u) = edit u.
Proof. done. Qed.

Lemma edit_newUndo e : edit (newUndo e) = e.
Proof. done. Qed.

(** Reading a flag of a record built from [setFlag] / [unsetFlag]. *)
Ltac flags :=
  repeat (rewrite ?isFlagSet_setFlag, ?isFlagSet_unsetFlag, ?isFlagSet_newUndo;
          simpl).

Ltac edits :=
  unfold line in *;
  rewrite ?edit_setFlag, ?edit_unsetFlag, ?edit_newUndo in *;
  simpl in *.

Section Marks.

Variable exclusive : bool.

(** With at most one of the two booleans set, both readings of the setters
    leave exactly the marks [(m, s)]. *)
Lemma markLine_marks ln m s document tl :
  plainKateTextLine document ln = Some tl ->
  m && s = false ->
  exists document',
    markLine exclusive ln m s document = Some document'
    /\ marksOf document' ln = Some (m, s)
    /\ List.length document' = List.length document
    /\ m_text <$> document' = m_text <$> document
    /\ (forall l, l <> ln -> document' !! l = document !! l).
Proof.
  intros Htl Hms. unfold markLine. rewrite Htl. simpl.
  eexists. split; [done|].
  unfold plainKateTextLine in Htl. pose proof (lookup_lt_Some _ _ _ Htl) as Hlt.
  split; [|split; [|split]].
  - unfold marksOf, plainKateTextLine. rewrite list_lookup_insert_eq by done. simpl.
    unfold markAsSavedOnDisk, markAsModified, markedAsModified, markedAsSavedOnDisk.
    destruct m, s, exclusive; simpl in *; done.
  - by rewrite length_insert.
  - rewrite list_fmap_insert. apply list_insert_id. rewrite list_lookup_fmap, Htl.
    unfold markAsSavedOnDisk, markAsModified. by destruct m, s.
  - intros l Hl. by rewrite list_lookup_insert_ne.
Qed.

(** Whatever the two booleans, [markLine] succeeds on an existing line and
    touches neither the texts nor the other lines. *)
Lemma markLine_frame ln m s document :
  is_Some (plainKateTextLine document ln) ->
  exists document',
    markLine exclusive ln m s document = Some document'
    /\ List.length document' = List.length document
    /\ m_text <$> document' = m_text <$> document
    /\ (forall l, l <> ln -> document' !! l = document !! l).
Proof.
  intros [tl Htl]. unfold markLine. rewrite Htl. simpl.
  eexists. split; [done|].
  unfold plainKateTextLine in Htl.
  split; [|split].
  - by rewrite length_insert.
  - rewrite list_fmap_insert. apply list_insert_id. rewrite list_lookup_fmap, Htl.
    unfold markAsSavedOnDisk, markAsModified. by destruct m, s.
  - intros l Hl. by rewrite list_lookup_insert_ne.
Qed.

Lemma marksOf_eq document document' l :
  document' !! l = document !! l -> marksOf document' l = marksOf document l.
Proof. unfold marksOf, plainKateTextLine. by intros ->. Qed.

End Marks.

(** C2: an InsertText and a RemoveText record built on an existing line
    carry exactly two flags: RedoLine1Modified, always, and the undo flag
    that the mark of the line selects, UndoLine1Modified if the line was
    marked modified at construction time and UndoLine1Saved otherwise.  No
    other flag is set; in particular never both undo flags. *)
Theorem text_edit_flags (document : Document) (ln : nat) (col : Z)
    (text : QString) (tl : TextLineData) :
  plainKateTextLine document ln = Some tl ->
  exists ui ur,
    KateModifiedInsertText document ln col text = Some ui
    /\ KateModifiedRemoveText document ln col text = Some ur
    /\ edit ui = KateEditInsertTextUndo ln col text
    /\ edit ur = KateEditRemoveTextUndo ln col text
    /\ forall f,
         isFlagSet f ui
         = bool_decide (f = RedoLine1Modified
                        \/ f = if markedAsModified tl then UndoLine1Modified
                               else UndoLine1Saved)
         /\ isFlagSet f ur = isFlagSet f ui.
Proof.
  intros Htl. unfold KateModifiedInsertText, KateModifiedRemoveText.
  rewrite Htl. simpl. do 2 eexists. split; [done|]. split; [done|].
  destruct (markedAsModified tl); (split; [done|]); (split; [done|]);
    intros f; destruct f; flags; split; reflexivity.
Qed.

Lemma text_edit_flags_witness :
  let clean := mkTextLine hello [] false false in
  let document := [clean; mkTextLine [] [] true false] in
  plainKateTextLine document 0 = Some clean
  /\ exists ui ur,
       KateModifiedInsertText document 0 5 [33] = Some ui
       /\ KateModifiedRemoveText document 0 5 [33] = Some ur
       /\ edit ui = KateEditInsertTextUndo 0 5 [33]
       /\ edit ur = KateEditRemoveTextUndo 0 5 [33]
       /\ forall f,
            isFlagSet f ui
            = bool_decide (f = RedoLine1Modified
                           \/ f = if markedAsModified clean then UndoLine1Modified
                                  else UndoLine1Saved)
            /\ isFlagSet f ur = isFlagSet f ui.
Proof.
  split; [reflexivity|].
  apply (text_edit_flags
           [mkTextLine hello [] false false; mkTextLine [] [] true false]
           0 5 [33] (mkTextLine hello [] false false) eq_refl).
Defined.

Section Execution.

Variable exclusive : bool.
Variable KateEditUndo_undo : KateEditUndo -> Document -> Document.
Variable KateEditUndo_redo : KateEditUndo -> Document -> Document.

(** C7: an InsertText record built on a line that is not marked modified:
    its [undo] leaves the line saved-on-disk and not modified, a following
    [redo] leaves it modified and not saved-on-disk. *)
Theorem insertText_undo_redo_marks (document : Document) (ln : nat) (col : Z)
    (text : QString) (tl : TextLineData) :
  plainKateTextLine document ln = Some tl ->
  markedAsModified tl = false ->
  exists u,
    KateModifiedInsertText document ln col text = Some u
    /\ forall d1,
         is_Some (plainKateTextLine (KateEditUndo_undo (edit u) d1) ln) ->
         exists d2,
           undo exclusive KateEditUndo_undo u d1 = Some d2
           /\ marksOf d2 ln = Some (false, true)
           /\ (is_Some (plainKateTextLine (KateEditUndo_redo (edit u) d2) ln) ->
               exists d3,
                 redo exclusive KateEditUndo_redo u d2 = Some d3
                 /\ marksOf d3 ln = Some (true, false)).
Proof.
  intros Htl Hclean. unfold KateModifiedInsertText. rewrite Htl. simpl.
  rewrite Hclean. eexists. split; [done|].
  intros d1 [tl1 Htl1].
  unfold undo, KateModifiedInsertText_undo. edits. flags.
  destruct (markLine_marks exclusive ln false true _ tl1 Htl1 eq_refl)
    as (d2 & Hd2 & Hmarks & _).
  exists d2. split; [done|]. split; [done|].
  intros [tl2 Htl2].
  unfold redo, KateModifiedInsertText_redo. edits. flags.
  destruct (markLine_marks exclusive ln true false _ tl2 Htl2 eq_refl)
    as (d3 & Hd3 & Hmarks3 & _).
  exists d3. done.
Qed.

(** C3, amended: a WrapLine record with [col > 0] and [len > 0]: [redo]
    marks both resulting lines modified; [undo] restores the modified mark of
    the line as it was before the split and sets savedOnDisk to its
    negation, so the marks before the split come back exactly when the line
    was either modified or saved-on-disk. *)
Theorem wrapLine_redo_undo_marks (document : Document) (ln : nat)
    (col len : Z) (newLine : bool) (tl : TextLineData) :
  plainKateTextLine document ln = Some tl ->
  0 < col -> 0 < len ->
  exists u,
    KateModifiedWrapLine document ln col len newLine = Some u
    /\ (forall d1,
          is_Some (plainKateTextLine (KateEditUndo_redo (edit u) d1) ln) ->
          is_Some (plainKateTextLine (KateEditUndo_redo (edit u) d1) (ln + 1)) ->
          exists d2,
            redo exclusive KateEditUndo_redo u d1 = Some d2
            /\ marksOf d2 ln = Some (true, false)
            /\ marksOf d2 (ln + 1)%nat = Some (true, false))
    /\ (forall d1,
          is_Some (plainKateTextLine (KateEditUndo_undo (edit u) d1) ln) ->
          exists d2,
            undo exclusive KateEditUndo_undo u d1 = Some d2
            /\ marksOf d2 ln
               = Some (markedAsModified tl, negb (markedAsModified tl))
            /\ (markedAsSavedOnDisk tl = negb (markedAsModified tl) ->
                marksOf d2 ln = marksOf document ln)).
Proof.
  intros Htl Hcol Hlen. unfold KateModifiedWrapLine. rewrite Htl. simpl.
  destruct (Z.ltb_spec 0 len); [|lia]. destruct (Z.ltb_spec 0 col); [|lia].
  simpl.
  assert (marksOf document ln
          = Some (markedAsModified tl, markedAsSavedOnDisk tl)) as ->.
  { unfold marksOf. by rewrite Htl. }
  destruct (markedAsModified tl) eqn:Hmod; simpl.
  all: eexists; (split; [done|]); split.
  1, 3: intros d1 [tl1 Htl1] [tl2 Htl2];
    unfold redo, KateModifiedWrapLine_redo; edits; flags;
    destruct (markLine_marks exclusive ln true false _ tl1 Htl1 eq_refl)
      as (d2 & -> & Hm2 & _ & _ & Hother); simpl;
    unfold plainKateTextLine in Htl2;
    rewrite <- (Hother (ln + 1)%nat) in Htl2 by lia;
    destruct (markLine_marks exclusive (ln + 1) true false _ tl2 Htl2 eq_refl)
      as (d3 & -> & Hm3 & _ & _ & Hother3);
    exists d3; (split; [done|]); (split; [|done]);
    rewrite <- Hm2; apply marksOf_eq, Hother3; lia.
  - intros d1 [tl1 Htl1].
    unfold undo, KateModifiedWrapLine_undo. edits. flags.
    destruct (markLine_marks exclusive ln true false _ tl1 Htl1 eq_refl)
      as (d2 & -> & Hm2 & _).
    exists d2. split; [done|]. split; [done|]. by intros ->.
  - intros d1 [tl1 Htl1].
    unfold undo, KateModifiedWrapLine_undo. edits. flags.
    destruct (markLine_marks exclusive ln false true _ tl1 Htl1 eq_refl)
      as (d2 & -> & Hm2 & _).
    exists d2. split; [done|]. split; [done|]. by intros ->.
Qed.

(** The two shapes of the mark-writing code: one line, or a line and its
    successor. *)
Lemma markLine_clears l m s (doc : Document) :
  is_Some (plainKateTextLine doc l) ->
  m = false -> s = false ->
  exists doc',
    markLine exclusive l m s doc = Some doc'
    /\ marksOf doc' l = Some (false, false)
    /\ m_text <$> doc' = m_text <$> doc.
Proof.
  intros [t Ht] -> ->.
  destruct (markLine_marks exclusive l false false doc t Ht eq_refl)
    as (doc' & Hd & Hmk & _ & Htxt & _).
  by exists doc'.
Qed.

Lemma markLine_twice_clears l m1 s1 m2 s2 (doc : Document) :
  is_Some (plainKateTextLine doc l) ->
  is_Some (plainKateTextLine doc (l + 1)) ->
  exists doc',
    (markLine exclusive l m1 s1 doc ≫= markLine exclusive (l + 1) m2 s2)
    = Some doc'
    /\ m_text <$> doc' = m_text <$> doc
    /\ (m1 = false -> s1 = false -> marksOf doc' l = Some (false, false))
    /\ (m2 = false -> s2 = false ->
        marksOf doc' (l + 1)%nat = Some (false, false)).
Proof.
  intros H1 H2.
  destruct (markLine_frame exclusive l m1 s1 doc H1) as (doc1 & Hd1 & _ & Ht1 & Ho1).
  assert (is_Some (plainKateTextLine doc1 (l + 1))) as H2'.
  { unfold plainKateTextLine in *. rewrite Ho1 by lia. done. }
  destruct (markLine_frame exclusive (l + 1) m2 s2 doc1 H2')
    as (doc2 & Hd2 & _ & Ht2 & Ho2).
  exists doc2. rewrite Hd1. simpl. split; [done|]. split; [congruence|]. split.
  - intros -> ->.
    destruct (markLine_clears l false false doc H1 eq_refl eq_refl)
      as (doc1' & Hd1' & Hm1 & _).
    assert (doc1' = doc1) as -> by congruence.
    rewrite <- Hm1. apply marksOf_eq, Ho2. lia.
  - intros -> ->.
    destruct (markLine_clears (l + 1) false false doc1 H2' eq_refl eq_refl)
      as (doc2' & Hd2' & Hm2 & _).
    congruence.
Qed.

(** C1, amended: for every record, direction and line slot whose marks the
    executed method writes, an empty flag pair makes the method clear both
    marks of that line after the text mutation, whatever they were before;
    the texts are those the text mutation left. *)
Theorem empty_pair_clears_marks (d : Direction) (u : KateUndo) (s : LineSlot)
    (document : Document) :
  s ∈ slotsMarked (edit u) d ->
  isFlagSet (modifiedFlag d s) u = false ->
  isFlagSet (savedFlag d s) u = false ->
  (forall s', s' ∈ slotsMarked (edit u) d ->
     is_Some (plainKateTextLine
                (textMutation KateEditUndo_undo KateEditUndo_redo d (edit u) document)
                (slotLine u s'))) ->
  exists document',
    execute exclusive KateEditUndo_undo KateEditUndo_redo d u document
    = Some document'
    /\ marksOf document' (slotLine u s) = Some (false, false)
    /\ m_text <$> document'
       = m_text <$> textMutation KateEditUndo_undo KateEditUndo_redo d (edit u) document.
Proof.
  intros Hs Hm Hsv Hlines.
  assert (forall s', In s' (slotsMarked (edit u) d) ->
            is_Some (plainKateTextLine
              (textMutation KateEditUndo_undo KateEditUndo_redo d (edit u) document)
              (slotLine u s'))) as Hl.
  { intros s' Hin. by apply Hlines, list_elem_of_In. }
  apply list_elem_of_In in Hs. clear Hlines.
  unfold execute, undo, redo, slotLine, line in *.
  destruct u as [e F]. simpl in *.
  destruct d, e; simpl in *;
    unfold KateModifiedInsertText_undo, KateModifiedRemoveText_undo,
      KateModifiedWrapLine_undo, KateModifiedUnWrapLine_undo,
      KateModifiedRemoveLine_undo, KateModifiedInsertText_redo,
      KateModifiedRemoveText_redo, KateModifiedWrapLine_redo,
      KateModifiedUnWrapLine_redo, KateModifiedInsertLine_redo, line;
    simpl; try done.
  (* one line written *)
  all: try (destruct Hs as [<-|[]]; simpl in *;
            apply markLine_clears; [apply (Hl Line1); tauto | done | done]).
  (* a line and its successor written *)
  all: edestruct (markLine_twice_clears line0) as (doc' & Hd & Ht & Hc1 & Hc2);
    [apply (Hl Line1); tauto | apply (Hl Line2); tauto |].
  all: exists doc'; split; [exact Hd|]; split; [|done].
  all: destruct Hs as [<-|[<-|[]]]; simpl in *; [by apply Hc1 | by apply Hc2].
Qed.

End Execution.

Lemma insertText_undo_redo_marks_witness :
  exists u d2 d3,
    KateModifiedInsertText cleanDocument 0 5 [33] = Some u
    /\ undo true exampleUndo u editedDocument = Some d2
    /\ marksOf d2 0 = Some (false, true)
    /\ redo true exampleRedo u d2 = Some d3
    /\ marksOf d3 0 = Some (true, false).
Proof.
  destruct (insertText_undo_redo_marks true exampleUndo exampleRedo
              cleanDocument 0 5 [33] (mkTextLine hello [] false false)
              eq_refl eq_refl) as (u & Hu & Hrun).
  destruct (Hrun editedDocument) as (d2 & Hd2 & Hm2 & Hredo).
  { injection Hu as <-. eexists. reflexivity. }
  destruct Hredo as (d3 & Hd3 & Hm3).
  { injection Hu as <-. vm_compute in Hd2. injection Hd2 as <-.
    eexists. reflexivity. }
  exists u, d2, d3. repeat split; assumption.
Defined.

(** C3 as stated fails: the line carried no mark before the split at
    column 3, and comes back from [undo] marked saved-on-disk. *)
Lemma wrapLine_undo_counterexample :
  KateModifiedWrapLine cleanDocument 0 3 2 true = Some wrapInside
  /\ marksOf cleanDocument 0 = Some (false, false)
  /\ (d1 ← redo true exampleRedo wrapInside cleanDocument;
      d2 ← undo true exampleUndo wrapInside d1;
      marksOf d2 0) = Some (false, true)
  /\ (d1 ← redo false exampleRedo wrapInside cleanDocument;
      d2 ← undo false exampleUndo wrapInside d1;
      marksOf d2 0) = Some (false, true).
Proof. repeat split. Qed.

Lemma wrapLine_redo_undo_marks_witness :
  exists u d2 d3,
    KateModifiedWrapLine cleanDocument 0 3 2 true = Some u
    /\ redo true exampleRedo u cleanDocument = Some d2
    /\ marksOf d2 0 = Some (true, false)
    /\ marksOf d2 1 = Some (true, false)
    /\ undo true exampleUndo u d2 = Some d3
    /\ marksOf d3 0 = Some (false, true).
Proof.
  destruct (wrapLine_redo_undo_marks true exampleUndo exampleRedo
              cleanDocument 0 3 2 true (mkTextLine hello [] false false)
              eq_refl ltac:(lia) ltac:(lia)) as (u & Hu & Hredo & Hundo).
  destruct (Hredo cleanDocument) as (d2 & Hd2 & Hm0 & Hm1).
  { injection Hu as <-. eexists. reflexivity. }
  { injection Hu as <-. eexists. reflexivity. }
  destruct (Hundo d2) as (d3 & Hd3 & Hm3 & _).
  { injection Hu as <-. vm_compute in Hd2. injection Hd2 as <-.
    eexists. reflexivity. }
  exists u, d2, d3. repeat split; assumption.
Defined.

(** C1 as stated fails: the undo pair of line 1 of [wrapAtStart] is empty,
    the line is marked modified before [undo] is called, and [undo] clears
    the mark. *)
Lemma empty_pair_counterexample :
  KateModifiedWrapLine cleanDocument 0 0 5 true = Some wrapAtStart
  /\ isFlagSet UndoLine1Modified wrapAtStart = false
  /\ isFlagSet UndoLine1Saved wrapAtStart = false
  /\ (d1 ← redo true exampleRedo wrapAtStart cleanDocument;
      marksOf d1 0) = Some (true, false)
  /\ (d1 ← redo true exampleRedo wrapAtStart cleanDocument;
      d2 ← undo true exampleUndo wrapAtStart d1;
      marksOf d2 0) = Some (false, false)
  /\ (d1 ← redo false exampleRedo wrapAtStart cleanDocument;
      marksOf d1 0) = Some (true, false)
  /\ (d1 ← redo false exampleRedo wrapAtStart cleanDocument;
      d2 ← undo false exampleUndo wrapAtStart d1;
      marksOf d2 0) = Some (false, false).
Proof. repeat split. Qed.

(** The pairs of a WrapLine record built on a line that is neither marked
    modified nor saved-on-disk: each of them can be empty. *)
Lemma wrapLine_unmarked_pairs (document : Document) (ln : nat) (col len : Z)
    (newLine : bool) (tl : TextLineData) :
  plainKateTextLine document ln = Some tl ->
  markedAsModified tl = false -> markedAsSavedOnDisk tl = false ->
  exists u,
    KateModifiedWrapLine document ln col len newLine = Some u
    /\ pairSet Redo Line1 u = (0 <? len)
    /\ pairSet Redo Line2 u = (0 <? col) || (len =? 0)
    /\ pairSet Undo Line1 u = (0 <? len) && (0 <? col).
Proof.
  intros Htl Hm Hs. unfold KateModifiedWrapLine. rewrite Htl. simpl.
  rewrite Hm, Hs, !orb_false_r. eexists. split; [done|].
  destruct (0 <? len), (0 <? col), (len =? 0); repeat split.
Qed.

Lemma empty_pair_clears_marks_witness :
  let document :=
    [mkTextLine [] [] true false; mkTextLine hello [] false false] in
  exists document',
    undo true exampleUndo wrapAtStart document = Some document'
    /\ marksOf document 0 = Some (true, false)
    /\ marksOf document' 0 = Some (false, false).
Proof.
  destruct (empty_pair_clears_marks true exampleUndo exampleRedo Undo wrapAtStart
              Line1 [mkTextLine [] [] true false; mkTextLine hello [] false false])
    as (document' & Hrun & Hmarks & _).
  - apply list_elem_of_In. simpl. tauto.
  - reflexivity.
  - reflexivity.
  - intros s' Hs'. apply list_elem_of_In in Hs'. simpl in Hs'.
    destruct Hs' as [<-|[]]. eexists. reflexivity.
  - exists document'. split; [exact Hrun|]. split; [reflexivity | exact Hmarks].
Defined.

(** *** The flag pairs *)

Lemma atMostOnePerPair_spec u :
  atMostOnePerPair u = true
  <-> forall d s,
        isFlagSet (modifiedFlag d s) u && isFlagSet (savedFlag d s) u = false.
Proof.
  unfold atMostOnePerPair, allPairs. simpl. split.
  - intros H d s. repeat (apply andb_prop in H as [?%negb_true_iff H]).
    destruct d, s; done.
  - intros H.
    pose proof (H Undo Line1) as H1. pose proof (H Undo Line2) as H2.
    pose proof (H Redo Line1) as H3. pose proof (H Redo Line2) as H4.
    simpl in *. by rewrite H1, H2, H3, H4.
Qed.

Lemma isFlagSet_toSaved_modified d s d' s' u :
  isFlagSet (modifiedFlag d' s') (toSaved d s u)
  = negb (bool_decide ((d', s') = (d, s))) && isFlagSet (modifiedFlag d' s') u.
Proof. unfold toSaved. flags. by destruct d, s, d', s'. Qed.

Lemma isFlagSet_toSaved_saved d s d' s' u :
  isFlagSet (savedFlag d' s') (toSaved d s u)
  = bool_decide ((d', s') = (d, s)) || isFlagSet (savedFlag d' s') u.
Proof. unfold toSaved. flags. by destruct d, s, d', s'. Qed.

Lemma toSaved_atMostOnePerPair d s u :
  atMostOnePerPair u = true -> atMostOnePerPair (toSaved d s u) = true.
Proof.
  rewrite !atMostOnePerPair_spec. intros H d' s'.
  rewrite isFlagSet_toSaved_modified, isFlagSet_toSaved_saved.
  specialize (H d' s'). case_bool_decide; simpl; [done|].
  destruct (isFlagSet (modifiedFlag d' s') u); simpl in *; done.
Qed.

Lemma toSaved_onlyModifiedToSaved d s u :
  atMostOnePerPair u = true -> pairSet d s u = true ->
  onlyModifiedToSaved u (toSaved d s u).
Proof.
  rewrite atMostOnePerPair_spec. intros Hone Hset. split; [done|].
  intros d' s'. rewrite isFlagSet_toSaved_modified, isFlagSet_toSaved_saved.
  case_bool_decide as Heq; simpl; [|by left].
  injection Heq as -> ->. specialize (Hone d s). unfold pairSet in Hset.
  destruct (isFlagSet (modifiedFlag d s) u), (isFlagSet (savedFlag d s) u);
    simpl in *; try done; [by right | by left].
Qed.

Lemma onlyModifiedToSaved_refl u : onlyModifiedToSaved u u.
Proof. split; [done|]. intros d s. by left. Qed.

Lemma onlyModifiedToSaved_trans u v w :
  onlyModifiedToSaved u v -> onlyModifiedToSaved v w -> onlyModifiedToSaved u w.
Proof.
  intros [He1 H1] [He2 H2]. split; [congruence|].
  intros d s. destruct (H1 d s) as [[? ?]|(? & ? & ? & ?)],
    (H2 d s) as [[? ?]|(? & ? & ? & ?)]; [left|right|right|]; try split_and?; congruence.
Qed.

Lemma fullPairs_toSaved d s u :
  fullPairs u = true -> fullPairs (toSaved d s u) = true.
Proof.
  unfold fullPairs, pairSet. change (edit (toSaved d s u)) with (edit u).
  rewrite !isFlagSet_toSaved_modified, !isFlagSet_toSaved_saved.
  destruct (edit u); try done; intros H;
    repeat case_bool_decide; simpl; rewrite ?orb_true_r, ?andb_true_r; try done.
  all: repeat (apply andb_prop in H as [? H]); by rewrite ?H.
Qed.

Lemma keeps_refl u :
  atMostOnePerPair u = true -> fullPairs u = true -> keeps u u.
Proof. intros. split_and!; [done | done | apply onlyModifiedToSaved_refl]. Qed.

Lemma keeps_toSaved d s u v :
  keeps u v -> pairSet d s v = true -> keeps u (toSaved d s v).
Proof.
  intros (Hone & Hfull & Honly) Hset. split_and!.
  - by apply toSaved_atMostOnePerPair.
  - by apply fullPairs_toSaved.
  - eapply onlyModifiedToSaved_trans; [done|]. by apply toSaved_onlyModifiedToSaved.
Qed.

Lemma pairSet_modified d s u :
  isFlagSet (modifiedFlag d s) u = true -> pairSet d s u = true.
Proof. unfold pairSet. by intros ->. Qed.

Ltac keeps_tac :=
  repeat match goal with
         | |- keeps _ (setFlag RedoLine1Saved (unsetFlag RedoLine1Modified ?v)) =>
             change (setFlag RedoLine1Saved (unsetFlag RedoLine1Modified v))
               with (toSaved Redo Line1 v); apply keeps_toSaved
         | |- keeps _ (setFlag RedoLine2Saved (unsetFlag RedoLine2Modified ?v)) =>
             change (setFlag RedoLine2Saved (unsetFlag RedoLine2Modified v))
               with (toSaved Redo Line2 v); apply keeps_toSaved
         | |- keeps _ (setFlag UndoLine1Saved (unsetFlag UndoLine1Modified ?v)) =>
             change (setFlag UndoLine1Saved (unsetFlag UndoLine1Modified v))
               with (toSaved Undo Line1 v); apply keeps_toSaved
         | |- keeps _ (setFlag UndoLine2Saved (unsetFlag UndoLine2Modified ?v)) =>
             change (setFlag UndoLine2Saved (unsetFlag UndoLine2Modified v))
               with (toSaved Undo Line2 v); apply keeps_toSaved
         | |- keeps ?u ?u => by apply keeps_refl
         | H : isFlagSet ?f ?v = true |- pairSet ?d ?s ?v = true =>
             by apply (pairSet_modified d s v)
         end.

Lemma updateRedoSavedOnDiskFlag_keeps u lines :
  atMostOnePerPair u = true -> fullPairs u = true ->
  keeps u (snd (updateRedoSavedOnDiskFlag u lines)).
Proof.
  intros Hone Hfull. unfold updateRedoSavedOnDiskFlag.
  destruct (edit u) eqn:He;
    unfold KateModifiedInsertText_updateRedoSavedOnDiskFlag,
      KateModifiedRemoveText_updateRedoSavedOnDiskFlag,
      KateModifiedWrapLine_updateRedoSavedOnDiskFlag,
      KateModifiedUnWrapLine_updateRedoSavedOnDiskFlag,
      KateModifiedInsertLine_updateRedoSavedOnDiskFlag,
      KateUndo_updateSavedOnDiskFlag;
    repeat match goal with
           | |- context [if ?c then _ else _] => destruct c eqn:?; simpl
           end;
    repeat match goal with
           | H : _ && _ = true |- _ => apply andb_prop in H as [? ?]
           end;
    simpl; keeps_tac.
  all: unfold fullPairs in Hfull; rewrite He in Hfull;
       repeat (apply andb_prop in Hfull as [? Hfull]); done.
Qed.

Lemma updateUndoSavedOnDiskFlag_keeps u lines :
  atMostOnePerPair u = true -> fullPairs u = true ->
  keeps u (snd (updateUndoSavedOnDiskFlag u lines)).
Proof.
  intros Hone Hfull. unfold updateUndoSavedOnDiskFlag.
  destruct (edit u) eqn:He;
    unfold KateModifiedInsertText_updateUndoSavedOnDiskFlag,
      KateModifiedRemoveText_updateUndoSavedOnDiskFlag,
      KateModifiedWrapLine_updateUndoSavedOnDiskFlag,
      KateModifiedUnWrapLine_updateUndoSavedOnDiskFlag,
      KateModifiedRemoveLine_updateUndoSavedOnDiskFlag,
      KateUndo_updateSavedOnDiskFlag;
    repeat match goal with
           | |- context [if ?c then _ else _] => destruct c eqn:?; simpl
           end;
    repeat match goal with
           | H : _ && _ = true |- _ => apply andb_prop in H as [? ?]
           end;
    simpl; keeps_tac.
  all: unfold fullPairs in Hfull; rewrite He in Hfull;
       repeat (apply andb_prop in Hfull as [? Hfull]); done.
Qed.

Ltac constructed H :=
  repeat match type of H with
         | context [plainKateTextLine ?doc ?l] =>
             destruct (plainKateTextLine doc l); simpl in H; [|discriminate H]
         end;
  repeat match type of H with
         | context [if ?c then _ else _] => destruct c; simpl in H
         end;
  injection H as <-; split; reflexivity.

Lemma constructed_pairs u :
  (exists document ln col text, KateModifiedInsertText document ln col text = Some u)
  \/ (exists document ln col text, KateModifiedRemoveText document ln col text = Some u)
  \/ (exists document ln col len newLine,
        KateModifiedWrapLine document ln col len newLine = Some u)
  \/ (exists document ln col len removeLine,
        KateModifiedUnWrapLine document ln col len removeLine = Some u)
  \/ (exists ln text, KateModifiedInsertLine ln text = u)
  \/ (exists document ln text, KateModifiedRemoveLine document ln text = Some u) ->
  atMostOnePerPair u = true /\ fullPairs u = true.
Proof.
  intros [(doc & ln & col & text & H)|[(doc & ln & col & text & H)
    |[(doc & ln & col & len & b & H)|[(doc & ln & col & len & b & H)
    |[(ln & text & H)|(doc & ln & text & H)]]]]].
  - unfold KateModifiedInsertText in H. constructed H.
  - unfold KateModifiedRemoveText in H. constructed H.
  - unfold KateModifiedWrapLine in H. constructed H.
  - unfold KateModifiedUnWrapLine in H. constructed H.
  - subst u. split; reflexivity.
  - unfold KateModifiedRemoveLine in H. constructed H.
Qed.

Lemma reachable_pairs u :
  reachable u -> atMostOnePerPair u = true /\ fullPairs u = true.
Proof.
  induction 1 as [? ? ? ? ? H|? ? ? ? ? H|? ? ? ? ? ? H|? ? ? ? ? ? H| ? ?
                  |? ? ? ? H|u lines _ [IH1 IH2]|u lines _ [IH1 IH2]].
  1-6: apply constructed_pairs; eauto 12.
  - destruct (updateRedoSavedOnDiskFlag_keeps u lines IH1 IH2) as (? & ? & _). done.
  - destruct (updateUndoSavedOnDiskFlag_keeps u lines IH1 IH2) as (? & ? & _). done.
Qed.

(** C5: in every record, as constructed by one of the six constructors and
    as left by any sequence of save-reconciliation updates, each (line slot,
    direction) pair has at most one of Modified and Saved set; every update
    keeps this and only replaces Modified flags by the Saved flag of the
    same pair. *)
Theorem flag_pairs_invariant (u : KateUndo) (lines : QBitArray) :
  reachable u ->
  atMostOnePerPair u = true
  /\ atMostOnePerPair (snd (updateRedoSavedOnDiskFlag u lines)) = true
  /\ atMostOnePerPair (snd (updateUndoSavedOnDiskFlag u lines)) = true
  /\ onlyModifiedToSaved u (snd (updateRedoSavedOnDiskFlag u lines))
  /\ onlyModifiedToSaved u (snd (updateUndoSavedOnDiskFlag u lines)).
Proof.
  intros Hreach. destruct (reachable_pairs u Hreach) as [Hone Hfull].
  destruct (updateRedoSavedOnDiskFlag_keeps u lines Hone Hfull) as (? & _ & ?).
  destruct (updateUndoSavedOnDiskFlag_keeps u lines Hone Hfull) as (? & _ & ?).
  done.
Qed.

Lemma flag_pairs_invariant_witness :
  reachable wrapInside
  /\ atMostOnePerPair wrapInside = true
  /\ isFlagSet RedoLine1Saved (snd (updateRedoSavedOnDiskFlag wrapInside [])) = true
  /\ atMostOnePerPair (snd (updateRedoSavedOnDiskFlag wrapInside [])) = true.
Proof.
  assert (reachable wrapInside) as Hreach.
  { apply (reach_WrapLine cleanDocument 0 3 2 true). reflexivity. }
  split; [exact Hreach|].
  destruct (flag_pairs_invariant wrapInside [] Hreach) as (H1 & H2 & _).
  split; [exact H1|]. split; [reflexivity | exact H2].
Defined.

(** *** The save-reconciliation pass *)

(** C4 as stated fails: the first pass rewrites the WrapLine record, which
    then no longer marks line 0 in the second pass, so the second pass
    rewrites the InsertText record behind it. *)
Lemma reconcile_twice_counterexample :
  KateModifiedWrapLine modifiedDocument 0 3 2 true = Some wrapModified
  /\ KateModifiedInsertText modifiedDocument 0 3 [33] = Some insertModified
  /\ m_flags <$> reconcile 2 2 [wrapModified; insertModified]
     = [ {[RedoLine1Saved; RedoLine2Saved; UndoLine1Saved]};
         {[RedoLine1Modified; UndoLine1Modified]} ]
  /\ m_flags <$> reconcile 2 2 (reconcile 2 2 [wrapModified; insertModified])
     = [ {[RedoLine1Saved; RedoLine2Saved; UndoLine1Saved]};
         {[RedoLine1Saved; UndoLine1Saved]} ]
  /\ reconcile 2 2 (reconcile 2 2 [wrapModified; insertModified])
     <> reconcile 2 2 [wrapModified; insertModified].
Proof.
  split; [reflexivity|]. split; [reflexivity|].
  split; [reflexivity|]. split; [reflexivity|].
  intros H.
  apply (f_equal (fun l => isFlagSet RedoLine1Modified <$> l !! 1%nat)) in H.
  vm_compute in H. discriminate H.
Qed.

(** The marker bitmap. *)

Lemma testBit_replicate i n : testBit i (replicate n false) = false.
Proof.
  unfold testBit. destruct (replicate n false !! i) as [b|] eqn:Hb; [|done].
  by apply lookup_replicate in Hb as [-> _].
Qed.

Lemma testBit_ensureSize i n lines :
  testBit i (ensureSize n lines) = testBit i lines.
Proof.
  unfold ensureSize, resize, testBit.
  destruct (Nat.ltb_spec (List.length lines) n) as [Hlt|]; [|done].
  rewrite take_ge by lia.
  destruct (Nat.lt_ge_cases i (List.length lines)) as [Hi|Hi].
  - by rewrite lookup_app_l.
  - rewrite lookup_app_r by done. rewrite (lookup_ge_None_2 lines i) by done.
    destruct (replicate _ false !! _) as [b|] eqn:Hb; [|done].
    by apply lookup_replicate in Hb as [-> _].
Qed.

Lemma length_ensureSize n lines : (n <= List.length (ensureSize n lines))%nat.
Proof.
  unfold ensureSize, resize.
  destruct (Nat.ltb_spec (List.length lines) n) as [Hlt|]; [|done].
  rewrite take_ge by lia. rewrite length_app, length_replicate. lia.
Qed.

Lemma testBit_setBit i l lines :
  (l < List.length lines)%nat ->
  testBit i (setBit l lines) = bool_decide (i = l) || testBit i lines.
Proof.
  intros Hl. unfold testBit, setBit. case_bool_decide as Hi; simpl.
  - subst i. by rewrite list_lookup_insert_eq.
  - by rewrite list_lookup_insert_ne.
Qed.

Lemma bitsOf_replicate n : bitsOf (replicate n false) ∅.
Proof. intros i. by rewrite testBit_replicate. Qed.

Lemma bitsOf_ensureSize n lines seen :
  bitsOf lines seen -> bitsOf (ensureSize n lines) seen.
Proof. intros H i. by rewrite testBit_ensureSize. Qed.

Lemma bitsOf_setBit l lines seen :
  bitsOf lines seen ->
  bitsOf (setBit l (ensureSize (l + 1) lines)) ({[l]} ∪ seen).
Proof.
  intros H i. pose proof (length_ensureSize (l + 1) lines).
  rewrite testBit_setBit by lia. rewrite testBit_ensureSize, H.
  apply eq_true_iff_eq.
  rewrite orb_true_iff, !bool_decide_eq_true, elem_of_union, elem_of_singleton.
  done.
Qed.

Lemma bitsOf_seen l lines seen :
  bitsOf lines seen -> l ∈ seen -> bitsOf lines ({[l]} ∪ seen).
Proof.
  intros H Hl i. rewrite H. apply eq_true_iff_eq.
  rewrite !bool_decide_eq_true, elem_of_union, elem_of_singleton.
  split; [tauto|]. intros [->|]; done.
Qed.

Lemma sweep_cons update u rest lines :
  snd (sweep update (u :: rest) lines)
  = snd (update u lines) :: snd (sweep update rest (fst (update u lines))).
Proof.
  simpl. destruct (update u lines) as [lines' u']. simpl.
  by destruct (sweep update rest lines').
Qed.

(** One update of a record that is neither WrapLine nor UnwrapLine, seen
    from outside. *)
Lemma updateRedoSavedOnDiskFlag_single u lines seen :
  singleLineKind u = true -> bitsOf lines seen ->
  snd (updateRedoSavedOnDiskFlag u lines)
  = (if marksRedo u
     then if decide (line u ∈ seen) then u else toSaved Redo Line1 u
     else u)
  /\ bitsOf (fst (updateRedoSavedOnDiskFlag u lines))
            (if marksRedo u then {[line u]} ∪ seen else seen).
Proof.
  intros Hkind Hbits.
  unfold updateRedoSavedOnDiskFlag, singleLineKind, marksRedo in *.
  destruct (edit u) eqn:He; try done;
    unfold KateModifiedInsertText_updateRedoSavedOnDiskFlag,
      KateModifiedRemoveText_updateRedoSavedOnDiskFlag,
      KateModifiedInsertLine_updateRedoSavedOnDiskFlag,
      KateUndo_updateSavedOnDiskFlag; simpl; try done.
  all: rewrite testBit_ensureSize, Hbits.
  all: destruct (decide (line u ∈ seen)) as [Hin|Hin];
    [rewrite bool_decide_eq_true_2 by done
    |rewrite bool_decide_eq_false_2 by done]; simpl.
  all: split; [done|].
  all: try (by apply bitsOf_setBit).
  all: apply bitsOf_seen; [by apply bitsOf_ensureSize | done].
Qed.

Lemma updateUndoSavedOnDiskFlag_single u lines seen :
  singleLineKind u = true -> bitsOf lines seen ->
  snd (updateUndoSavedOnDiskFlag u lines)
  = (if marksUndo u
     then if decide (line u ∈ seen) then u else toSaved Undo Line1 u
     else u)
  /\ bitsOf (fst (updateUndoSavedOnDiskFlag u lines))
            (if marksUndo u then {[line u]} ∪ seen else seen).
Proof.
  intros Hkind Hbits.
  unfold updateUndoSavedOnDiskFlag, singleLineKind, marksUndo in *.
  destruct (edit u) eqn:He; try done;
    unfold KateModifiedInsertText_updateUndoSavedOnDiskFlag,
      KateModifiedRemoveText_updateUndoSavedOnDiskFlag,
      KateModifiedRemoveLine_updateUndoSavedOnDiskFlag,
      KateUndo_updateSavedOnDiskFlag; simpl; try done.
  all: rewrite testBit_ensureSize, Hbits.
  all: destruct (decide (line u ∈ seen)) as [Hin|Hin];
    [rewrite bool_decide_eq_true_2 by done
    |rewrite bool_decide_eq_false_2 by done]; simpl.
  all: split; [done|].
  all: try (by apply bitsOf_setBit).
  all: apply bitsOf_seen; [by apply bitsOf_ensureSize | done].
Qed.

Lemma sweep_redo_firstPerLine items : forall lines seen,
  Forall (fun u => singleLineKind u = true) items -> bitsOf lines seen ->
  snd (sweep updateRedoSavedOnDiskFlag items lines)
  = firstPerLine marksRedo (toSaved Redo Line1) seen items.
Proof.
  induction items as [|u rest IH]; intros lines seen Hall Hbits; [done|].
  apply Forall_cons in Hall as [Hu Hrest]. rewrite sweep_cons.
  destruct (updateRedoSavedOnDiskFlag_single u lines seen Hu Hbits) as [-> Hb].
  simpl. destruct (marksRedo u); f_equal; by apply IH.
Qed.

Lemma sweep_undo_firstPerLine items : forall lines seen,
  Forall (fun u => singleLineKind u = true) items -> bitsOf lines seen ->
  snd (sweep updateUndoSavedOnDiskFlag items lines)
  = firstPerLine marksUndo (toSaved Undo Line1) seen items.
Proof.
  induction items as [|u rest IH]; intros lines seen Hall Hbits; [done|].
  apply Forall_cons in Hall as [Hu Hrest]. rewrite sweep_cons.
  destruct (updateUndoSavedOnDiskFlag_single u lines seen Hu Hbits) as [-> Hb].
  simpl. destruct (marksUndo u); f_equal; by apply IH.
Qed.

Section FirstPerLine.

(** Two sweeps whose rewrites keep the record's class and line, are
    idempotent and commute. *)
Variables (marksR marksU : KateUndo -> bool) (R U : KateUndo -> KateUndo).
Hypothesis marksR_edit : forall u v, edit u = edit v -> marksR u = marksR v.
Hypothesis marksU_edit : forall u v, edit u = edit v -> marksU u = marksU v.
Hypothesis R_edit : forall u, edit (R u) = edit u.
Hypothesis U_edit : forall u, edit (U u) = edit u.
Hypothesis R_R : forall u, R (R u) = R u.
Hypothesis U_U : forall u, U (U u) = U u.
Hypothesis R_U : forall u, R (U u) = U (R u).

Lemma line_edit u v : edit u = edit v -> line u = line v.
Proof. unfold line. by intros ->. Qed.

Lemma firstPerLine_twice items : forall seenR seenU,
  let once :=
    firstPerLine marksU U seenU (firstPerLine marksR R seenR items) in
  firstPerLine marksU U seenU (firstPerLine marksR R seenR once) = once.
Proof using All.
  induction items as [|u rest IH]; intros seenR seenU; [done|].
  cbn [firstPerLine].
  set (r := if marksR u then if decide (line u ∈ seenR) then u else R u else u).
  assert (edit r = edit u) as Hr.
  { unfold r. destruct (marksR u); [|done].
    destruct (decide (line u ∈ seenR)); [done | apply R_edit]. }
  set (sR := if marksR u then {[line u]} ∪ seenR else seenR).
  assert ((if marksR u
           then (if decide (line u ∈ seenR) then u else R u)
                :: firstPerLine marksR R ({[line u]} ∪ seenR) rest
           else u :: firstPerLine marksR R seenR rest)
          = r :: firstPerLine marksR R sR rest) as ->.
  { unfold r, sR. by destruct (marksR u). }
  cbn [firstPerLine].
  set (a := if marksU r then if decide (line r ∈ seenU) then r else U r else r).
  assert (edit a = edit u) as Ha.
  { unfold a. destruct (marksU r); [|done].
    destruct (decide (line r ∈ seenU)); [done|]. by rewrite U_edit. }
  set (sU := if marksU r then {[line r]} ∪ seenU else seenU).
  assert ((if marksU r
           then (if decide (line r ∈ seenU) then r else U r)
                :: firstPerLine marksU U ({[line r]} ∪ seenU)
                     (firstPerLine marksR R sR rest)
           else r :: firstPerLine marksU U seenU (firstPerLine marksR R sR rest))
          = a :: firstPerLine marksU U sU (firstPerLine marksR R sR rest)) as ->.
  { unfold a, sU. by destruct (marksU r). }
  cbn [firstPerLine].
  rewrite (marksR_edit a u Ha), (line_edit a u Ha).
  set (r' := if marksR u then if decide (line u ∈ seenR) then a else R a else a).
  assert (edit r' = edit u) as Hr'.
  { unfold r'. destruct (marksR u); [|done].
    destruct (decide (line u ∈ seenR)); [done|]. by rewrite R_edit. }
  assert ((if marksR u
           then (if decide (line u ∈ seenR) then a else R a)
                :: firstPerLine marksR R ({[line u]} ∪ seenR)
                     (firstPerLine marksU U sU (firstPerLine marksR R sR rest))
           else a :: firstPerLine marksR R seenR
                       (firstPerLine marksU U sU (firstPerLine marksR R sR rest)))
          = r' :: firstPerLine marksR R sR
                    (firstPerLine marksU U sU (firstPerLine marksR R sR rest))) as ->.
  { unfold r', sR. by destruct (marksR u). }
  cbn [firstPerLine].
  rewrite (marksU_edit r' r) by congruence.
  rewrite (line_edit r' r) by congruence.
  fold sU.
  assert ((if marksU r then if decide (line r ∈ seenU) then r' else U r' else r')
          = a) as Hhead.
  { unfold r', a.
    destruct (marksU r), (decide (line r ∈ seenU)); unfold r;
      destruct (marksR u), (decide (line u ∈ seenR));
      rewrite ?R_U, ?R_R, ?U_U; done. }
  transitivity
    ((if marksU r then if decide (line r ∈ seenU) then r' else U r' else r')
     :: firstPerLine marksU U sU
          (firstPerLine marksR R sR
             (firstPerLine marksU U sU (firstPerLine marksR R sR rest)))).
  { unfold sU. by destruct (marksU r). }
  rewrite Hhead. f_equal. apply IH.
Qed.

End FirstPerLine.

Lemma toSaved_toSaved d s u : toSaved d s (toSaved d s u) = toSaved d s u.
Proof.
  unfold toSaved, setFlag, unsetFlag. simpl. f_equal.
  apply set_eq. intros f.
  rewrite !elem_of_union, !elem_of_difference, !elem_of_union, !elem_of_difference,
    !elem_of_singleton.
  tauto.
Qed.

Lemma toSaved_redo_undo u :
  toSaved Redo Line1 (toSaved Undo Line1 u)
  = toSaved Undo Line1 (toSaved Redo Line1 u).
Proof.
  unfold toSaved, setFlag, unsetFlag. simpl. f_equal.
  apply set_eq. intros f.
  rewrite !elem_of_union, !elem_of_difference, !elem_of_union, !elem_of_difference,
    !elem_of_singleton.
  destruct f; intuition congruence.
Qed.

Lemma firstPerLine_singleLineKind marks f seen items :
  (forall u, edit (f u) = edit u) ->
  Forall (fun u => singleLineKind u = true) items ->
  Forall (fun u => singleLineKind u = true) (firstPerLine marks f seen items).
Proof.
  intros Hf Hall. revert seen.
  induction Hall as [|u rest Hu Hrest IH]; intros seen; simpl; [done|].
  destruct (marks u); [|by constructor].
  constructor; [|done].
  destruct (decide (line u ∈ seen)); [done|].
  unfold singleLineKind in *. by rewrite Hf.
Qed.

(** On a sequence without WrapLine and UnwrapLine records a second
    save-reconciliation pass, with fresh bitmaps of any size, leaves every
    record as the first pass left it. *)
Lemma reconcile_twice_single_line (n m n' m' : nat) (items : list KateUndo) :
  Forall (fun u => singleLineKind u = true) items ->
  reconcile n' m' (reconcile n m items) = reconcile n m items.
Proof.
  intros Hall. unfold reconcile.
  assert (forall k k' its, Forall (fun u => singleLineKind u = true) its ->
            snd (sweep updateUndoSavedOnDiskFlag
                   (snd (sweep updateRedoSavedOnDiskFlag its (replicate k false)))
                   (replicate k' false))
            = firstPerLine marksUndo (toSaved Undo Line1) ∅
                (firstPerLine marksRedo (toSaved Redo Line1) ∅ its)) as Hpass'.
  { intros k k' its Hits.
    rewrite (sweep_redo_firstPerLine its _ ∅ Hits (bitsOf_replicate k)).
    apply sweep_undo_firstPerLine; [|apply bitsOf_replicate].
    by apply firstPerLine_singleLineKind. }
  rewrite (Hpass' n m items Hall).
  rewrite Hpass'.
  - apply firstPerLine_twice.
    + unfold marksRedo. by intros u v ->.
    + unfold marksUndo. by intros u v ->.
    + done.
    + done.
    + intros u. apply toSaved_toSaved.
    + intros u. apply toSaved_toSaved.
    + intros u. apply toSaved_redo_undo.
  - by repeat apply firstPerLine_singleLineKind.
Qed.

End UndoFacts.

(** ** The remaining functions of the line store *)

Module TextLineScan.
Import TextLine.

Section Scan.

Variable isSpace : QChar -> bool.

Lemma nextNonSpaceChar_loop_cases : forall (l : list QChar) (i : Z),
  (nextNonSpaceChar_loop isSpace l i = -1 /\ forallb isSpace l = true)
  \/ (exists (k : nat) c,
        nextNonSpaceChar_loop isSpace l i = i + Z.of_nat k
        /\ l !! k = Some c /\ isSpace c = false
        /\ forallb isSpace (take k l) = true).
Proof.
  induction l as [|c rest IH]; intros i; simpl; [by left|].
  destruct (isSpace c) eqn:Hc; simpl.
  - destruct (IH (i + 1)) as [[-> Hall]|(k & c' & -> & Hk & Hc' & Hall)].
    + by left.
    + right. exists (S k), c'. simpl. rewrite Hc. split_and!; try done. lia.
  - right. exists 0%nat, c. split_and!; try done. lia.
Qed.

Lemma forallb_lookup (l : list QChar) :
  forallb isSpace l = true <-> forall j c, l !! j = Some c -> isSpace c = true.
Proof.
  rewrite forallb_forall. split.
  - intros H j c Hj. apply H. apply list_elem_of_In, list_elem_of_lookup. eauto.
  - intros H c [j Hj]%list_elem_of_In%list_elem_of_lookup. eauto.
Qed.

(** X1: for [pos >= 0], [nextNonSpaceChar pos] is -1 when every character
    from [pos] on is whitespace (in particular when [pos] is past the end),
    and otherwise the index of the first character from [pos] on that is
    not whitespace. *)
Theorem nextNonSpaceChar_first (m_text : QString) (pos : Z) :
  0 <= pos ->
  exists r,
    nextNonSpaceChar isSpace m_text pos = Some r
    /\ ((r = -1
         /\ forall (j : nat) c, (Z.to_nat pos <= j)%nat ->
              m_text !! j = Some c -> isSpace c = true)
        \/ (pos <= r < Z.of_nat (List.length m_text)
            /\ (exists c, m_text !! Z.to_nat r = Some c /\ isSpace c = false)
            /\ forall (j : nat) c, (Z.to_nat pos <= j < Z.to_nat r)%nat ->
                 m_text !! j = Some c -> isSpace c = true)).
Proof.
  intros Hpos. unfold nextNonSpaceChar, QString in *.
  destruct (Z.ltb_spec pos 0); [lia|]. eexists. split; [done|].
  destruct (nextNonSpaceChar_loop_cases (drop (Z.to_nat pos) m_text) pos)
    as [[-> Hall]|(k & c & -> & Hk & Hc & Hall)].
  - left. split; [done|]. intros j c Hj Hjc.
    apply (proj1 (forallb_lookup _) Hall (j - Z.to_nat pos)%nat).
    rewrite lookup_drop. rewrite <- Hjc. f_equal. lia.
  - right. rewrite lookup_drop in Hk.
    pose proof (lookup_lt_Some _ _ _ Hk). split; [lia|]. split.
    + exists c. split; [|done]. rewrite <- Hk. f_equal. lia.
    + intros j c' Hj Hjc.
      apply (proj1 (forallb_lookup _) Hall (j - Z.to_nat pos)%nat).
      rewrite lookup_take_lt by lia. rewrite lookup_drop, <- Hjc. f_equal. lia.
Qed.

Lemma previousNonSpaceChar_loop_cases (m_text : list QChar) : forall n,
  (n <= List.length m_text)%nat ->
  (previousNonSpaceChar_loop isSpace m_text n = -1
   /\ forall (j : nat) c, (j < n)%nat -> m_text !! j = Some c -> isSpace c = true)
  \/ (exists (r : nat) c,
        previousNonSpaceChar_loop isSpace m_text n = Z.of_nat r
        /\ (r < n)%nat /\ m_text !! r = Some c /\ isSpace c = false
        /\ forall (j : nat) c', (r < j < n)%nat ->
             m_text !! j = Some c' -> isSpace c' = true).
Proof.
  induction n as [|n IH]; intros Hn; simpl.
  - left. split; [done|]. intros; lia.
  - destruct (lookup_lt_is_Some_2 m_text n ltac:(lia)) as [c Hc].
    unfold QString in *. rewrite Hc.
    destruct (isSpace c) eqn:Hsp; simpl.
    + destruct (IH ltac:(lia)) as [[-> Hall]|(r & c' & -> & Hr & Hrc & Hns & Hall)].
      * left. split; [done|]. intros j cj Hj Hjc.
        destruct (decide (j = n)) as [->|]; [congruence|]. apply (Hall j); [lia|done].
      * right. exists r, c'. split_and!; try done; [lia|].
        intros j cj Hj Hjc.
        destruct (decide (j = n)) as [->|]; [congruence|]. apply (Hall j); [lia|done].
    + right. exists n, c. split_and!; try done; [lia|]. intros; lia.
Qed.

(** The number of indices the backward loop visits. *)
Lemma previousNonSpaceChar_start (m_text : QString) (pos : Z) :
  previousNonSpaceChar isSpace m_text pos
  = previousNonSpaceChar_loop isSpace m_text
      (Z.to_nat (Z.min pos (Z.of_nat (List.length m_text) - 1) + 1)).
Proof.
  unfold previousNonSpaceChar.
  destruct (Z.leb_spec (Z.of_nat (List.length m_text)) pos); do 2 f_equal; lia.
Qed.

(** X2: [previousNonSpaceChar pos] is the index of the last character at or
    before [pos] that is not whitespace, and -1 when there is none; a [pos]
    past the end counts as the last index, a negative [pos] gives -1. *)
Theorem previousNonSpaceChar_last (m_text : QString) (pos : Z) :
  (previousNonSpaceChar isSpace m_text pos = -1
   /\ forall (j : nat) c, Z.of_nat j <= pos ->
        m_text !! j = Some c -> isSpace c = true)
  \/ (0 <= previousNonSpaceChar isSpace m_text pos <= pos
      /\ previousNonSpaceChar isSpace m_text pos < Z.of_nat (List.length m_text)
      /\ (exists c, m_text !! Z.to_nat (previousNonSpaceChar isSpace m_text pos)
                    = Some c /\ isSpace c = false)
      /\ forall (j : nat) c,
           previousNonSpaceChar isSpace m_text pos < Z.of_nat j <= pos ->
           m_text !! j = Some c -> isSpace c = true).
Proof.
  rewrite previousNonSpaceChar_start.
  set (n := Z.to_nat (Z.min pos (Z.of_nat (List.length m_text) - 1) + 1)).
  destruct (previousNonSpaceChar_loop_cases m_text n ltac:(lia))
    as [[-> Hall]|(k & c & -> & Hk & Hkc & Hns & Hall)].
  - left. split; [done|]. intros j c Hj Hjc.
    pose proof (lookup_lt_Some _ _ _ Hjc). apply (Hall j); [lia|done].
  - right. pose proof (lookup_lt_Some _ _ _ Hkc). split; [lia|]. split; [lia|].
    split; [exists c; by rewrite Nat2Z.id|].
    intros j c' Hj Hjc.
    pose proof (lookup_lt_Some _ _ _ Hjc). apply (Hall j); [lia|done].
Qed.

Lemma previousNonSpaceChar_loop_all (m_text : list QChar) :
  lastChar isSpace m_text
  = previousNonSpaceChar_loop isSpace m_text (List.length m_text).
Proof.
  unfold lastChar. rewrite previousNonSpaceChar_start. f_equal. lia.
Qed.

(** X3: either the whole line is whitespace and [firstChar] and [lastChar]
    are both -1, or [0 <= firstChar <= lastChar < length], the characters at
    both indices are not whitespace, and everything before the first and
    after the last is whitespace. *)
Theorem firstChar_lastChar (m_text : QString) :
  (forallb isSpace m_text = true
   /\ firstChar isSpace m_text = -1 /\ lastChar isSpace m_text = -1)
  \/ (0 <= firstChar isSpace m_text <= lastChar isSpace m_text
      /\ lastChar isSpace m_text < Z.of_nat (List.length m_text)
      /\ (exists c, m_text !! Z.to_nat (firstChar isSpace m_text) = Some c
                    /\ isSpace c = false)
      /\ (exists c, m_text !! Z.to_nat (lastChar isSpace m_text) = Some c
                    /\ isSpace c = false)
      /\ forall (j : nat) c, m_text !! j = Some c ->
           Z.of_nat j < firstChar isSpace m_text
           \/ lastChar isSpace m_text < Z.of_nat j ->
           isSpace c = true).
Proof.
  rewrite previousNonSpaceChar_loop_all. unfold firstChar.
  destruct (nextNonSpaceChar_loop_cases m_text 0)
    as [[-> Hall]|(k & c & -> & Hk & Hc & Hbefore)].
  - left. split; [done|]. split; [done|].
    destruct (previousNonSpaceChar_loop_cases m_text (List.length m_text) ltac:(lia))
      as [[-> _]|(r & c & _ & _ & Hr & Hc & _)]; [done|].
    rewrite (proj1 (forallb_lookup _) Hall r c Hr) in Hc. done.
  - right.
    destruct (previousNonSpaceChar_loop_cases m_text (List.length m_text) ltac:(lia))
      as [[_ Hall]|(r & c' & -> & Hr & Hrc & Hc' & Hafter)].
    { pose proof (lookup_lt_Some _ _ _ Hk). rewrite (Hall k c) in Hc; done. }
    assert (k <= r)%nat as Hkr.
    { destruct (Nat.le_gt_cases k r) as [|Hlt]; [done|].
      assert (isSpace c' = true); [|congruence].
      apply (proj1 (forallb_lookup _) Hbefore r). by rewrite lookup_take_lt. }
    split; [lia|]. split; [lia|].
    split; [exists c; split; [|done]; rewrite <- Hk; f_equal; lia|].
    split; [exists c'; by rewrite Nat2Z.id|].
    intros j cj Hj [Hlt|Hgt].
    + apply (proj1 (forallb_lookup _) Hbefore j). rewrite lookup_take_lt by lia. done.
    + pose proof (lookup_lt_Some _ _ _ Hj). apply (Hafter j); [lia|done].
Qed.

(** X4: [leadingWhitespace] is a prefix of the line that consists of
    whitespace only and is maximal: what follows it is empty or starts with
    a character that is not whitespace. *)
Theorem leadingWhitespace_prefix (m_text : QString) :
  exists rest,
    m_text = leadingWhitespace isSpace m_text ++ rest
    /\ forallb isSpace (leadingWhitespace isSpace m_text) = true
    /\ match rest with [] => True | c :: _ => isSpace c = false end.
Proof.
  unfold leadingWhitespace, string, firstChar. simpl.
  destruct (nextNonSpaceChar_loop_cases m_text 0)
    as [[-> Hall]|(k & c & -> & Hk & Hc & Hbefore)].
  - simpl. rewrite Nat2Z.id, firstn_all. exists []. by rewrite app_nil_r.
  - destruct (Z.ltb_spec (0 + Z.of_nat k) 0); [lia|].
    replace (Z.to_nat (0 + Z.of_nat k)) with k by lia.
    exists (drop k m_text). split; [by rewrite take_drop|]. split; [done|].
    rewrite (drop_S _ _ _ Hk). done.
Qed.

Lemma indentDepth_loop_prefix (tabWidth : Z) : forall (l : list QChar) (d i : Z),
  0 <= i ->
  indentDepth_loop isSpace tabWidth l d
  = virtualLength_loop tabWidth
      (if nextNonSpaceChar_loop isSpace l i <? 0 then l
       else take (Z.to_nat (nextNonSpaceChar_loop isSpace l i - i)) l) d.
Proof.
  induction l as [|c rest IH]; intros d i Hi; simpl; [done|].
  destruct (isSpace c) eqn:Hc; simpl.
  - assert ((if c =? tabChar
             then indentDepth_loop isSpace tabWidth rest
                    (d + (tabWidth - Z.rem d tabWidth))
             else indentDepth_loop isSpace tabWidth rest (d + 1))
            = indentDepth_loop isSpace tabWidth rest (d + charWidth tabWidth d c)) as ->.
    { unfold charWidth, isTab. by destruct (c =? tabChar). }
    rewrite (IH _ (i + 1)) by lia.
    destruct (nextNonSpaceChar_loop_cases rest (i + 1))
      as [[-> _]|(k & c' & -> & _)]; simpl; [done|].
    destruct (Z.ltb_spec (i + 1 + Z.of_nat k) 0); [lia|].
    replace (Z.to_nat (i + 1 + Z.of_nat k - i)) with (S k) by lia.
    replace (Z.to_nat (i + 1 + Z.of_nat k - (i + 1))) with k by lia. done.
  - destruct (Z.ltb_spec i 0); [lia|]. by replace (Z.to_nat (i - i)) with 0%nat by lia.
Qed.

(** X5: for every tab width but 0 (which the code would divide by),
    [indentDepth] is the visual width ([virtualLength]) of the line's
    [leadingWhitespace]. *)
Theorem indentDepth_leadingWhitespace (m_text : QString) (tabWidth : Z) :
  tabWidth <> 0 ->
  indentDepth isSpace m_text tabWidth
  = virtualLength (leadingWhitespace isSpace m_text) tabWidth.
Proof.
  intros _. unfold indentDepth, virtualLength, leadingWhitespace, string, firstChar.
  rewrite (indentDepth_loop_prefix tabWidth m_text 0 0) by lia. simpl.
  destruct (nextNonSpaceChar_loop isSpace m_text 0 <? 0).
  - by rewrite Nat2Z.id, firstn_all.
  - by rewrite Z.sub_0_r.
Qed.

End Scan.

Lemma indentDepth_leadingWhitespace_witness :
  4 <> 0
  /\ indentDepth asciiSpace [32; 9; 32; 104; 105] 4
     = virtualLength (leadingWhitespace asciiSpace [32; 9; 32; 104; 105]) 4.
Proof.
  assert (4 <> 0) as Hw by lia.
  split; [exact Hw|].
  apply (indentDepth_leadingWhitespace asciiSpace [32; 9; 32; 104; 105] 4 Hw).
Defined.

Lemma nextNonSpaceChar_first_witness :
  0 <= 1
  /\ exists r,
       nextNonSpaceChar asciiSpace [32; 32; 9; 104; 105] 1 = Some r
       /\ ((r = -1
            /\ forall (j : nat) c, (Z.to_nat 1 <= j)%nat ->
                 [32; 32; 9; 104; 105] !! j = Some c -> asciiSpace c = true)
           \/ (1 <= r < Z.of_nat (List.length [32; 32; 9; 104; 105])
               /\ (exists c, [32; 32; 9; 104; 105] !! Z.to_nat r = Some c
                             /\ asciiSpace c = false)
               /\ forall (j : nat) c, (Z.to_nat 1 <= j < Z.to_nat r)%nat ->
                    [32; 32; 9; 104; 105] !! j = Some c -> asciiSpace c = true)).
Proof.
  split; [lia|].
  apply (nextNonSpaceChar_first asciiSpace [32; 32; 9; 104; 105] 1). lia.
Defined.

(** Without overflow and with the match inside the text, the loop reads
    inside the buffer and compares the match with the text behind
    [i + column]. *)
Lemma matchesAt_loop_spec (text : list QChar) column : forall (ms : list QChar) i,
  0 <= column -> 0 <= i ->
  i + column + Z.of_nat (List.length ms) <= Z.of_nat (List.length text) ->
  i + column + Z.of_nat (List.length ms) <= INT_MAX ->
  matchesAt_loop text column ms i
  = Some (bool_decide (take (List.length ms) (drop (Z.to_nat (i + column)) text) = ms)).
Proof.
  induction ms as [|m rest IH]; intros i Hc Hi Hlen Hfit.
  { cbn [matchesAt_loop List.length]. by rewrite take_0. }
  cbn [matchesAt_loop]. simpl List.length in *.
  unfold int_add. rewrite TextLineFacts.wrap_inInt
    by (apply TextLineFacts.inInt_intro; unfold INT_MIN; lia).
  unfold charAt, QString.
  destruct (Z.ltb_spec (i + column) 0); [lia|].
  destruct (Z.leb_spec (Z.of_nat (List.length text)) (i + column)); [lia|]. simpl.
  destruct (lookup_lt_is_Some_2 text (Z.to_nat (i + column)) ltac:(lia)) as [c Hch].
  rewrite Hch. simpl.
  rewrite (drop_S _ _ _ Hch). simpl.
  destruct (Z.eqb_spec c m) as [->|Hne]; simpl.
  - rewrite IH by lia.
    replace (Z.to_nat (i + 1 + column)) with (S (Z.to_nat (i + column))) by lia.
    f_equal. apply bool_decide_ext. split; [by intros ->|]. by intros [= ->].
  - f_equal. symmetry. apply bool_decide_eq_false. intros [= ? _]. done.
Qed.

(** X6: when [column + match.length()] does not overflow, [matchesAt]
    reads inside the text only, and it returns true exactly when [column]
    is not negative and the line reads [match] from [column] on: the line
    is some [column] characters, then [match], then a remainder. *)
Theorem matchesAt_occurrence (m_text : QString) (column : Z) (match_ : QString) :
  column + Z.of_nat (List.length match_) <= INT_MAX ->
  is_Some (matchesAt m_text column match_)
  /\ (matchesAt m_text column match_ = Some true
      <-> 0 <= column
          /\ exists pre post : QString,
               m_text = pre ++ match_ ++ post
               /\ Z.of_nat (List.length pre) = column).
Proof.
  intros Hfit. unfold matchesAt, QString in *.
  destruct (Z.ltb_spec column 0).
  { split; [by eexists|]. split; [done|]. intros [? _]. lia. }
  unfold int_add. rewrite TextLineFacts.wrap_inInt
    by (apply TextLineFacts.inInt_intro; unfold INT_MIN; lia).
  destruct (Z.ltb_spec (Z.of_nat (List.length m_text))
              (column + Z.of_nat (List.length match_))).
  { split; [by eexists|]. split; [done|].
    intros (_ & pre & post & -> & <-). rewrite !length_app in *. lia. }
  rewrite matchesAt_loop_spec by lia. split; [by eexists|].
  replace (0 + column) with column by lia. split.
  - intros [= Hm%bool_decide_eq_true]. split; [done|].
    exists (take (Z.to_nat column) m_text),
           (drop (List.length match_) (drop (Z.to_nat column) m_text)).
    split; [|rewrite length_take; lia].
    rewrite <- Hm at 1. by rewrite !take_drop.
  - intros (Hc & pre & post & -> & <-). f_equal. apply bool_decide_eq_true.
    rewrite Nat2Z.id, drop_app_length. by rewrite take_app_length.
Qed.

Lemma matchesAt_occurrence_witness :
  3 + Z.of_nat (List.length [108; 111]) <= INT_MAX
  /\ is_Some (matchesAt hello 3 [108; 111])
  /\ (matchesAt hello 3 [108; 111] = Some true
      <-> 0 <= 3
          /\ exists pre post : QString,
               hello = pre ++ [108; 111] ++ post
               /\ Z.of_nat (List.length pre) = 3).
Proof.
  assert (3 + Z.of_nat (List.length [108; 111]) <= INT_MAX) as Hfit
    by (unfold INT_MAX; simpl; lia).
  split; [exact Hfit|].
  apply (matchesAt_occurrence hello 3 [108; 111] Hfit).
Defined.

(** The condition cannot be dropped: at column [INT_MAX] the sum wraps
    around to a negative number, the length check passes, and the loop reads
    the text far outside the buffer. *)
Example matchesAt_overflow_reads_outside :
  matchesAt hello INT_MAX [104] = None.
Proof. reflexivity. Qed.

End TextLineScan.

(** ** More on the column functions *)

Module ColumnFacts.
Import TextLine TextLineFacts.

Section Widths.

Variable tabWidth : Z.
Hypothesis tabWidth_pos : 1 <= tabWidth.




Lemma virtualLength_loop_plain (text : list QChar) : forall x,
  forallb (fun c => negb (isTab c)) text = true ->
  virtualLength_loop tabWidth text x = x + Z.of_nat (List.length text).
Proof.
  induction text as [|c rest IH]; intros x Hall; simpl; [lia|].
  simpl in Hall. apply andb_prop in Hall as [Hc%negb_true_iff Hrest].
  unfold charWidth. rewrite Hc, IH by done. lia.
Qed.

Lemma fromVirtualColumn_loop_plain column (text : list QChar) : forall n z x,
  forallb (fun c => negb (isTab c)) text = true ->
  x + Z.of_nat n <= column ->
  fromVirtualColumn_loop tabWidth column text n z x
  = (z + Z.of_nat (n `min` List.length text),
     x + Z.of_nat (n `min` List.length text)).
Proof.
  induction text as [|c rest IH]; intros n z x Hall Hn.
  - destruct n; simpl; f_equal; lia.
  - simpl in Hall. apply andb_prop in Hall as [Hc%negb_true_iff Hrest].
    destruct n as [|n]; [simpl; f_equal; lia|].
    cbn [fromVirtualColumn_loop]. unfold charWidth. rewrite Hc.
    destruct (Z.ltb_spec column (x + 1)); [lia|].
    rewrite IH by (done || lia). simpl List.length. f_equal; lia.
Qed.

Lemma columnOfChar_gap (text : list QChar) (a b : nat) :
  (a <= b <= List.length text)%nat ->
  columnOfChar text tabWidth a + Z.of_nat (b - a) <= columnOfChar text tabWidth b.
Proof.
  intros Hab. unfold columnOfChar, virtualLength.
  assert (take b text = take a text ++ drop a (take b text)) as ->.
  { rewrite <- (take_drop a (take b text)) at 1.
    f_equal. rewrite take_take. f_equal. lia. }
  rewrite virtualLength_loop_app.
  pose proof (virtualLength_loop_ge tabWidth tabWidth_pos (take a text) 0 ltac:(lia)).
  pose proof (virtualLength_loop_ge tabWidth tabWidth_pos (drop a (take b text))
                (virtualLength_loop tabWidth (take a text) 0) ltac:(lia)) as Hge.
  rewrite length_drop, length_take in Hge. lia.
Qed.

Lemma visualColumn_gap (text : list QChar) c1 c2 :
  0 <= c1 -> c1 <= c2 ->
  c2 - c1 <= visualColumn text c2 tabWidth - visualColumn text c1 tabWidth.
Proof.
  intros H1 H2. unfold visualColumn.
  pose proof (columnOfChar_gap text
                (Z.to_nat (Z.min c1 (Z.of_nat (List.length text))))
                (Z.to_nat (Z.min c2 (Z.of_nat (List.length text)))) ltac:(lia)).
  lia.
Qed.


End Widths.





(** X11: on a line without tabs the tab width plays no role, whatever its
    value: the visual width is the length, and both column conversions
    return every column [c >= 0] unchanged ([toVirtualColumn] every one
    that an [int] can hold). *)
Theorem tab_free_columns (m_text : QString) (tabWidth c : Z) :
  forallb (fun ch => negb (isTab ch)) m_text = true -> 0 <= c ->
  virtualLength m_text tabWidth = Z.of_nat (List.length m_text)
  /\ (c <= INT_MAX -> toVirtualColumn m_text c tabWidth = c)
  /\ fromVirtualColumn m_text c tabWidth = c.
Proof.
  intros Hall Hc. unfold QString in *.
  assert (forall k, virtualLength_loop tabWidth (take k m_text) 0
                    = Z.of_nat (List.length (take k m_text))) as Hk.
  { intros k. rewrite virtualLength_loop_plain; [lia|].
    apply forallb_forall. intros ch Hin. apply (proj1 (forallb_forall _ _) Hall).
    apply list_elem_of_In. apply list_elem_of_In in Hin.
    eapply subseteq_take, Hin. }
  split; [|split].
  - unfold virtualLength. by rewrite virtualLength_loop_plain.
  - intros Hfit.
    assert (visualColumn m_text c tabWidth = c) as Hvis.
    { unfold visualColumn, columnOfChar, virtualLength.
      rewrite Hk, length_take. lia. }
    rewrite toVirtualColumn_exact; [done | done |].
    rewrite Hvis. apply inInt_intro; unfold INT_MIN; lia.
  - unfold fromVirtualColumn. rewrite qMin_min.
    destruct (Z.ltb_spec c 0); [lia|].
    rewrite (fromVirtualColumn_loop_plain tabWidth c m_text _ 0 0) by (done || lia).
    rewrite qMax_max. lia.
Qed.

Lemma tab_free_columns_witness :
  forallb (fun ch => negb (isTab ch)) hello = true /\ 0 <= 7
  /\ 7 <= INT_MAX
  /\ virtualLength hello 0 = 5
  /\ toVirtualColumn hello 7 0 = 7
  /\ fromVirtualColumn hello 7 0 = 7.
Proof.
  assert (7 <= INT_MAX) as Hfit by (unfold INT_MAX; lia).
  split; [reflexivity|]. split; [lia|]. split; [exact Hfit|].
  destruct (tab_free_columns hello 0 7) as (Hlen & Hto & Hfrom);
    [reflexivity | lia |].
  split; [exact Hlen|]. split; [exact (Hto Hfit) | exact Hfrom].
Defined.

(** X9: for [tabWidth >= 1], [toVirtualColumn] never shrinks a distance:
    for character columns [0 <= c1 <= c2] of which the visual column of
    [c2] fits in an [int], the visual columns are at least [c2 - c1] apart.
    So it is strictly increasing there, and never left of the character
    column. *)
Theorem toVirtualColumn_increasing (m_text : QString) (tabWidth c1 c2 : Z) :
  1 <= tabWidth -> 0 <= c1 -> c1 <= c2 ->
  visualColumn m_text c2 tabWidth <= INT_MAX ->
  c2 - c1 <= toVirtualColumn m_text c2 tabWidth - toVirtualColumn m_text c1 tabWidth
  /\ c1 <= toVirtualColumn m_text c1 tabWidth.
Proof.
  intros Hw H1 H2 Hfit.
  pose proof (visualColumn_gap tabWidth Hw m_text c1 c2 H1 H2) as Hgap.
  pose proof (visualColumn_nonneg m_text c1 tabWidth Hw H1) as Hc1.
  pose proof (visualColumn_nonneg m_text c2 tabWidth Hw ltac:(lia)) as Hc2.
  rewrite !toVirtualColumn_exact
    by (lia || (apply inInt_intro; unfold INT_MIN; lia)).
  lia.
Qed.

Lemma toVirtualColumn_increasing_witness :
  1 <= 4 /\ 0 <= 1 /\ 1 <= 2
  /\ visualColumn [97; 9; 98] 2 4 <= INT_MAX
  /\ 2 - 1 <= toVirtualColumn [97; 9; 98] 2 4 - toVirtualColumn [97; 9; 98] 1 4
  /\ 1 <= toVirtualColumn [97; 9; 98] 1 4.
Proof.
  assert (visualColumn [97; 9; 98] 2 4 <= INT_MAX) as Hfit
    by (vm_compute; discriminate).
  split; [lia|]. split; [lia|]. split; [lia|]. split; [exact Hfit|].
  apply (toVirtualColumn_increasing [97; 9; 98] 4 1 2); [lia | lia | lia | exact Hfit].
Defined.




End ColumnFacts.

(** ** More on the attribute runs *)

Module AttributeFacts.
Import TextLine TextLineFacts.

Lemma sortedRuns_snoc (init : list Attribute) x :
  sortedRuns (init ++ [x]) = true
  <-> sortedRuns init = true /\ 0 <= length x
      /\ (forall b, last init = Some b -> offset b + length b <= offset x).
Proof.
  induction init as [|a rest IH].
  - simpl. rewrite !andb_true_r, Z.leb_le. split; [|tauto].
    intros H. split; [done|]. split; [done|]. intros b Hb. done.
  - destruct rest as [|b rest'].
    + simpl. rewrite !andb_true_r, !andb_true_iff, !Z.leb_le. split.
      * intros [[Ha Hax] Hx]. split; [done|]. split; [done|].
        intros b Hb. injection Hb as <-. done.
      * intros (Ha & Hx & Hlast). split; [split|]; [done | | done].
        by apply Hlast.
    + change (sortedRuns ((a :: b :: rest') ++ [x]))
        with ((0 <=? length a) && (offset a + length a <=? offset b)
              && sortedRuns ((b :: rest') ++ [x])).
      change (sortedRuns (a :: b :: rest'))
        with ((0 <=? length a) && (offset a + length a <=? offset b)
              && sortedRuns (b :: rest')).
      change (last (a :: b :: rest')) with (last (b :: rest')).
      rewrite !andb_true_iff, IH. tauto.
Qed.

Lemma runsInRange_snoc (init : list Attribute) x :
  runsInRange (init ++ [x]) = true
  <-> runsInRange init = true
      /\ inInt (offset x) = true /\ inInt (offset x + length x) = true.
Proof.
  unfold runsInRange. rewrite forallb_app. simpl.
  rewrite !andb_true_iff. tauto.
Qed.

Lemma runsInRange_end (runs : list Attribute) x :
  runsInRange runs = true -> x ∈ runs ->
  int_add (offset x) (length x) = offset x + length x.
Proof.
  intros Hr [i Hx]%list_elem_of_lookup. by apply (run_end_exact runs Hr i).
Qed.

(** A position in the span of a run of sorted runs has that run's value. *)
Lemma attribute_in (runs : list Attribute) pos x :
  sortedRuns runs = true -> runsInRange runs = true ->
  x ∈ runs -> spanContains x pos = true ->
  attribute runs pos = attributeValue x.
Proof.
  intros Hs Hr [i Hx]%list_elem_of_lookup Hin. unfold attribute.
  destruct (upper_bound_spec runs Hs Hr pos) as [Hlo Hhi].
  assert (attributeComp pos x = true) as Hc.
  { unfold attributeComp. rewrite (run_end_exact runs Hr _ _ Hx).
    unfold spanContains in Hin. apply andb_prop in Hin as [_ Hin]. done. }
  assert (upper_bound runs pos <= i)%nat as Hle.
  { destruct (Nat.le_gt_cases (upper_bound runs pos) i) as [|Hgt]; [done|].
    rewrite (Hlo i x Hgt Hx) in Hc. done. }
  destruct (lookup_lt_is_Some_2 runs (upper_bound runs pos)) as [m Hm].
  { apply lookup_lt_Some in Hx. lia. }
  rewrite Hm, (run_end_exact runs Hr _ _ Hm).
  destruct (decide (upper_bound runs pos = i)) as [Heq|Hne].
  - rewrite Heq in Hm. assert (m = x) as -> by congruence.
    unfold spanContains in Hin. by rewrite Hin.
  - exfalso. pose proof (Hhi _ m (Nat.le_refl _) Hm) as Hcm.
    unfold attributeComp in Hcm. rewrite (run_end_exact runs Hr _ _ Hm) in Hcm.
    apply Z.ltb_lt in Hcm.
    assert (upper_bound runs pos < i)%nat as Hlt by lia.
    pose proof (run_before_lt runs Hs _ i m x Hlt Hm Hx).
    unfold spanContains in Hin. apply andb_prop in Hin as [Ho%Z.leb_le _]. lia.
Qed.

(** A position in no span has the value 0, sorted runs or not. *)
Lemma attribute_out (runs : list Attribute) pos :
  runsInRange runs = true ->
  (forall x, x ∈ runs -> spanContains x pos = false) ->
  attribute runs pos = 0.
Proof.
  intros Hr Hnone. unfold attribute.
  destruct (runs !! upper_bound runs pos) as [m|] eqn:Hm; [|done].
  rewrite (run_end_exact runs Hr _ _ Hm).
  assert (spanContains m pos = false) as Hcm.
  { apply Hnone. apply list_elem_of_lookup. eauto. }
  unfold spanContains in Hcm. by rewrite Hcm.
Qed.

Lemma spanContains_merge back a pos :
  offset back + length back = offset a -> 0 <= length back -> 0 <= length a ->
  spanContains (mkAttribute (offset back) (length back + length a)
                            (attributeValue back)) pos
  = spanContains back pos || spanContains a pos.
Proof.
  intros Htouch Hb Ha. unfold spanContains. simpl.
  destruct (Z.leb_spec (offset back) pos), (Z.leb_spec (offset a) pos),
    (Z.ltb_spec pos (offset back + (length back + length a))),
    (Z.ltb_spec pos (offset back + length back)),
    (Z.ltb_spec pos (offset a + length a)); simpl; try done; lia.
Qed.

(** Some run contains [pos], or none does. *)
Lemma span_cases (runs : list Attribute) pos :
  (exists x, x ∈ runs /\ spanContains x pos = true)
  \/ (forall x, x ∈ runs -> spanContains x pos = false).
Proof.
  induction runs as [|a rest [(x & Hx & Hin)|Hnone]].
  - right. intros x Hx. by apply elem_of_nil in Hx.
  - left. exists x. split; [by apply elem_of_cons; right|done].
  - destruct (spanContains a pos) eqn:Ha.
    + left. exists a. split; [by apply elem_of_cons; left|done].
    + right. intros x [->|Hx]%elem_of_cons; [done|by apply Hnone].
Qed.

(** [addAttribute] and a lookup after it, for runs with starts and ends in
    the range of [int]. *)
Lemma addAttribute_lookup (runs : list Attribute) (a : Attribute) :
  sortedRuns runs = true -> runsInRange runs = true ->
  0 <= length a ->
  inInt (offset a) = true -> inInt (offset a + length a) = true ->
  (forall back, last runs = Some back -> offset back + length back <= offset a) ->
  sortedRuns (addAttribute runs a) = true
  /\ runsInRange (addAttribute runs a) = true
  /\ forall pos,
       attribute (addAttribute runs a) pos
       = if spanContains a pos then attributeValue a else attribute runs pos.
Proof.
  intros Hs Hr Ha Hao Hae Hafter.
  destruct (last runs) as [back|] eqn:Hlast.
  - apply last_Some in Hlast as [init ->].
    specialize (Hafter back eq_refl).
    pose proof (proj1 (sortedRuns_snoc init back) Hs) as (Hinit & Hb & Hinitlast).
    pose proof (proj1 (runsInRange_snoc init back) Hr) as (Hrinit & Hbo & Hbe).
    rewrite addAttribute_snoc.
    destruct ((attributeValue back =? attributeValue a)
              && (offset back + length back =? offset a)) eqn:Hm.
    + apply andb_prop in Hm as [Hv%Z.eqb_eq Ht%Z.eqb_eq].
      set (m := mkAttribute (offset back) (length back + length a)
                            (attributeValue back)).
      assert (sortedRuns (init ++ [m]) = true) as Hs'.
      { apply sortedRuns_snoc. split; [done|]. split; [simpl; lia|done]. }
      assert (runsInRange (init ++ [m]) = true) as Hr'.
      { apply runsInRange_snoc. split; [done|]. split; [done|]. simpl.
        by replace (offset back + (length back + length a))
             with (offset a + length a) by lia. }
      split; [done|]. split; [done|]. intros pos.
      pose proof (spanContains_merge back a pos Ht Hb Ha) as Hmerge. fold m in Hmerge.
      destruct (spanContains a pos) eqn:Hin.
      * rewrite (attribute_in _ pos m Hs' Hr'); [by rewrite <- Hv | |].
        -- apply elem_of_app. right. by apply list_elem_of_singleton.
        -- by rewrite Hmerge, orb_true_r.
      * rewrite orb_false_r in Hmerge.
        destruct (span_cases (init ++ [back]) pos) as [(x & Hx & Hxin)|Hnone].
        -- rewrite (attribute_in _ pos x Hs Hr Hx Hxin).
           apply elem_of_app in Hx as [Hx|Hx%list_elem_of_singleton].
           ++ apply attribute_in; [done | done | | done]. apply elem_of_app. by left.
           ++ subst x. rewrite (attribute_in _ pos m Hs' Hr'); [done | |].
              ** apply elem_of_app. right. by apply list_elem_of_singleton.
              ** by rewrite Hmerge.
        -- rewrite (attribute_out (init ++ [back]) pos Hr Hnone).
           apply attribute_out; [done|].
           intros x [Hx|Hx%list_elem_of_singleton]%elem_of_app.
           ++ apply Hnone. apply elem_of_app. by left.
           ++ subst x. rewrite Hmerge. apply Hnone.
              apply elem_of_app. right. by apply list_elem_of_singleton.
    + assert (sortedRuns ((init ++ [back]) ++ [a]) = true) as Hs'.
      { apply sortedRuns_snoc. split; [done|]. split; [done|].
        intros b. rewrite last_snoc. intros [= <-]. done. }
      assert (runsInRange ((init ++ [back]) ++ [a]) = true) as Hr'
        by (by apply runsInRange_snoc).
      replace (init ++ [back; a]) with ((init ++ [back]) ++ [a])
        by (by rewrite <- app_assoc).
      split; [done|]. split; [done|]. intros pos.
      destruct (spanContains a pos) eqn:Hin.
      * apply attribute_in; [done | done | | done].
        apply elem_of_app. right. by apply list_elem_of_singleton.
      * destruct (span_cases (init ++ [back]) pos) as [(x & Hx & Hxin)|Hnone].
        -- rewrite (attribute_in _ pos x Hs Hr Hx Hxin).
           apply attribute_in; [done | done | | done]. apply elem_of_app. by left.
        -- rewrite (attribute_out (init ++ [back]) pos Hr Hnone).
           apply attribute_out; [done|].
           intros x [Hx|Hx%list_elem_of_singleton]%elem_of_app; [by apply Hnone|].
           by subst x.
  - clear Hafter. apply last_None in Hlast as ->. unfold addAttribute. simpl.
    assert (sortedRuns [a] = true) as Hs'
      by (simpl; by rewrite !andb_true_r; apply Z.leb_le).
    assert (runsInRange [a] = true) as Hr'
      by (unfold runsInRange; simpl; by rewrite Hao, Hae).
    split; [done|]. split; [done|]. intros pos.
    destruct (spanContains a pos) eqn:Hin.
    + apply (attribute_in [a] pos a); [done|done|by apply list_elem_of_singleton|done].
    + apply attribute_out; [done|]. intros x Hx%list_elem_of_singleton. by subst x.
Qed.

Lemma runsInLine_lookup (runs : list Attribute) x :
  runsInLine runs = true -> x ∈ runs ->
  0 <= offset x /\ offset x + length x <= INT_MAX.
Proof.
  intros Hr Hx%list_elem_of_In.
  pose proof (proj1 (forallb_forall _ _) Hr x Hx) as H.
  apply andb_prop in H as [H1%Z.leb_le H2%Z.leb_le]. done.
Qed.

Lemma runsInLine_intro (runs : list Attribute) :
  (forall x, x ∈ runs -> 0 <= offset x /\ offset x + length x <= INT_MAX) ->
  runsInLine runs = true.
Proof.
  intros H. apply forallb_forall. intros x Hx%list_elem_of_In.
  destruct (H x Hx). apply andb_true_intro. split; by apply Z.leb_le.
Qed.

Lemma runsInLine_runsInRange (runs : list Attribute) :
  sortedRuns runs = true -> runsInLine runs = true -> runsInRange runs = true.
Proof.
  intros Hs Hr. apply forallb_forall. intros x Hx%list_elem_of_In.
  destruct (runsInLine_lookup runs x Hr Hx) as [Ho He].
  pose proof Hx as [i Hi]%list_elem_of_lookup.
  pose proof (run_length_nonneg runs Hs i x Hi).
  apply andb_true_intro. split; apply inInt_intro; unfold INT_MIN, INT_MAX in *; lia.
Qed.

(** X12: when the list is sorted, the new run has a length [>= 0] and
    starts at or after the end of the last run (the way a highlighter hands
    runs over, left to right), and all runs, the new one included, lie in
    the line (they start at a position [>= 0] and end at one that an [int]
    can hold), [addAttribute] keeps the list sorted and in the line, and a
    lookup afterwards gives the new run's value inside the new run and the
    former answer everywhere else, merged or appended. *)
Theorem addAttribute_attribute (runs : list Attribute) (a : Attribute) :
  sortedRuns runs = true -> runsInLine runs = true ->
  0 <= length a -> 0 <= offset a -> offset a + length a <= INT_MAX ->
  (forall back, last runs = Some back -> offset back + length back <= offset a) ->
  sortedRuns (addAttribute runs a) = true
  /\ runsInLine (addAttribute runs a) = true
  /\ forall pos,
       attribute (addAttribute runs a) pos
       = if spanContains a pos then attributeValue a else attribute runs pos.
Proof.
  intros Hs Hl Ha Hao Hae Hafter.
  destruct (addAttribute_lookup runs a Hs (runsInLine_runsInRange runs Hs Hl) Ha)
    as (Hs' & _ & Hlookup); [| |done|].
  { apply inInt_intro; unfold INT_MIN, INT_MAX in *; lia. }
  { apply inInt_intro; unfold INT_MIN, INT_MAX in *; lia. }
  split; [done|]. split; [|done].
  apply runsInLine_intro. intros x Hx.
  destruct (last runs) as [back|] eqn:Hlast.
  - apply last_Some in Hlast as [init ->]. rewrite addAttribute_snoc in Hx.
    assert (0 <= offset back /\ offset back + length back <= INT_MAX) as [Hbo Hbe].
    { apply (runsInLine_lookup _ _ Hl). apply elem_of_app. right.
      by apply list_elem_of_singleton. }
    destruct ((attributeValue back =? attributeValue a)
              && (offset back + length back =? offset a)) eqn:Hm.
    + apply andb_prop in Hm as [_ Ht%Z.eqb_eq].
      apply elem_of_app in Hx as [Hx|Hx%list_elem_of_singleton].
      * apply (runsInLine_lookup _ _ Hl). apply elem_of_app. by left.
      * subst x. simpl. lia.
    + apply elem_of_app in Hx as [Hx|Hx].
      * apply (runsInLine_lookup _ _ Hl). apply elem_of_app. by left.
      * apply elem_of_cons in Hx as [Hx|Hx%list_elem_of_singleton]; by subst x.
  - apply last_None in Hlast as ->. unfold addAttribute in Hx. simpl in Hx.
    apply list_elem_of_singleton in Hx. by subst x.
Qed.

Lemma addAttribute_attribute_witness :
  let runs := [mkAttribute 0 2 5; mkAttribute 4 3 7] in
  let a := mkAttribute 7 2 7 in
  sortedRuns runs = true /\ runsInLine runs = true /\ 0 <= length a
  /\ 0 <= offset a /\ offset a + length a <= INT_MAX
  /\ (forall back, last runs = Some back -> offset back + length back <= offset a)
  /\ sortedRuns (addAttribute runs a) = true
  /\ runsInLine (addAttribute runs a) = true
  /\ forall pos,
       attribute (addAttribute runs a) pos
       = if spanContains a pos then attributeValue a else attribute runs pos.
Proof.
  assert (forall back, last [mkAttribute 0 2 5; mkAttribute 4 3 7] = Some back ->
            offset back + length back <= offset (mkAttribute 7 2 7)) as Hafter.
  { intros back Hback. injection Hback as <-. simpl. lia. }
  assert (offset (mkAttribute 7 2 7) + length (mkAttribute 7 2 7) <= INT_MAX)
    as Hend by (vm_compute; discriminate).
  split; [reflexivity|]. split; [reflexivity|]. split; [simpl; lia|].
  split; [simpl; lia|]. split; [exact Hend|]. split; [exact Hafter|].
  apply (addAttribute_attribute [mkAttribute 0 2 5; mkAttribute 4 3 7]
           (mkAttribute 7 2 7));
    [reflexivity | reflexivity | simpl; lia | simpl; lia | exact Hend | exact Hafter].
Defined.

End AttributeFacts.

(** ** More on executing undo items *)

Module UndoExecution.
Import UndoFacts.

Lemma slotLine_inj u s s' : slotLine u s = slotLine u s' -> s = s'.
Proof. destruct s, s'; simpl; intros; (done || lia). Qed.

Lemma slotsMarked_NoDup e d : NoDup (slotsMarked e d).
Proof. destruct d, e; simpl; by apply (bool_decide_unpack _). Qed.

Section Executing.

Variable exclusive : bool.
Variable KateEditUndo_undo : KateEditUndo -> Document -> Document.
Variable KateEditUndo_redo : KateEditUndo -> Document -> Document.

Lemma markLine_Some l m s (doc : Document) tl :
  doc !! l = Some tl ->
  markLine exclusive l m s doc
  = Some (<[l := markAsSavedOnDisk exclusive s (markAsModified exclusive m tl)]> doc).
Proof. intros H. unfold markLine, plainKateTextLine. by rewrite H. Qed.

Lemma markLine_None l m s (doc : Document) :
  doc !! l = None -> markLine exclusive l m s doc = None.
Proof. intros H. unfold markLine, plainKateTextLine. by rewrite H. Qed.

Lemma marked_text m s tl :
  m_text (markAsSavedOnDisk exclusive s (markAsModified exclusive m tl)) = m_text tl
  /\ m_attributesList (markAsSavedOnDisk exclusive s (markAsModified exclusive m tl))
     = m_attributesList tl.
Proof. unfold markAsSavedOnDisk, markAsModified. by destruct m, s. Qed.

Lemma marked_marks m s tl :
  m && s = false ->
  markedAsModified (markAsSavedOnDisk exclusive s (markAsModified exclusive m tl)) = m
  /\ markedAsSavedOnDisk (markAsSavedOnDisk exclusive s (markAsModified exclusive m tl)) = s.
Proof.
  unfold markAsSavedOnDisk, markAsModified, markedAsModified, markedAsSavedOnDisk.
  by destruct m, s, exclusive.
Qed.

(** [undo] and [redo] are the text mutation followed by the marking of the
    written slots. *)
Lemma execute_as_markSlots d u document :
  execute exclusive KateEditUndo_undo KateEditUndo_redo d u document
  = markSlots exclusive d u (slotsMarked (edit u) d)
      (textMutation KateEditUndo_undo KateEditUndo_redo d (edit u) document).
Proof.
  destruct u as [e F].
  destruct d, e; simpl; unfold undo, redo; simpl;
    unfold KateModifiedInsertText_undo, KateModifiedRemoveText_undo,
      KateModifiedWrapLine_undo, KateModifiedUnWrapLine_undo,
      KateModifiedInsertLine_undo, KateModifiedRemoveLine_undo,
      KateModifiedInsertText_redo, KateModifiedRemoveText_redo,
      KateModifiedWrapLine_redo, KateModifiedUnWrapLine_redo,
      KateModifiedInsertLine_redo, KateModifiedRemoveLine_redo; simpl;
    repeat match goal with
           | |- context [markLine ?a ?b ?c ?d ?e] =>
               destruct (markLine a b c d e); simpl
           end; reflexivity.
Qed.

Lemma markSlots_spec d u : forall slots (doc : Document),
  NoDup slots ->
  (forall s, s ∈ slots -> is_Some (doc !! slotLine u s)) ->
  exists doc',
    markSlots exclusive d u slots doc = Some doc'
    /\ List.length doc' = List.length doc
    /\ m_text <$> doc' = m_text <$> doc
    /\ m_attributesList <$> doc' = m_attributesList <$> doc
    /\ (forall l, (forall s, s ∈ slots -> l <> slotLine u s) -> doc' !! l = doc !! l)
    /\ (forall s, s ∈ slots ->
          isFlagSet (modifiedFlag d s) u && isFlagSet (savedFlag d s) u = false ->
          marksOf doc' (slotLine u s)
          = Some (isFlagSet (modifiedFlag d s) u, isFlagSet (savedFlag d s) u)).
Proof.
  induction slots as [|s rest IH]; intros doc Hnd Hex.
  - exists doc. simpl. repeat split; try done.
    intros s Hs. by apply elem_of_nil in Hs.
  - apply NoDup_cons in Hnd as [Hs Hnd].
    destruct (Hex s) as [tl Htl]; [by apply elem_of_cons; left|].
    pose proof (lookup_lt_Some _ _ _ Htl) as Hlt.
    simpl. rewrite (markLine_Some _ _ _ _ _ Htl). simpl.
    set (tl' := markAsSavedOnDisk exclusive (isFlagSet (savedFlag d s) u)
                  (markAsModified exclusive (isFlagSet (modifiedFlag d s) u) tl)).
    destruct (IH (<[slotLine u s := tl']> doc) Hnd)
      as (doc' & Hrun & Hlen & Htext & Hattr & Hframe & Hmarks).
    { intros s' Hs'. apply lookup_lt_is_Some. rewrite length_insert.
      apply lookup_lt_is_Some, Hex. by apply elem_of_cons; right. }
    exists doc'. split; [done|].
    destruct (marked_text (isFlagSet (modifiedFlag d s) u)
                (isFlagSet (savedFlag d s) u) tl) as [Ht Ha]. fold tl' in Ht, Ha.
    split; [by rewrite Hlen, length_insert|].
    split.
    { rewrite Htext, list_fmap_insert. apply list_insert_id.
      by rewrite list_lookup_fmap, Htl, Ht. }
    split.
    { rewrite Hattr, list_fmap_insert. apply list_insert_id.
      by rewrite list_lookup_fmap, Htl, Ha. }
    split.
    { intros l Hl. rewrite Hframe.
      - apply list_lookup_insert_ne. intros Heq. apply (Hl s); [|done].
        by apply elem_of_cons; left.
      - intros s' Hs'. apply Hl. by apply elem_of_cons; right. }
    intros s0 [->|Hs0]%elem_of_cons Hone; [|by apply Hmarks].
    unfold marksOf, plainKateTextLine. rewrite Hframe.
    + rewrite list_lookup_insert_eq by done. simpl.
      destruct (marked_marks _ _ tl Hone) as [Hm Hsv]. fold tl' in Hm, Hsv.
      by rewrite Hm, Hsv.
    + intros s' Hs' Heq. apply slotLine_inj in Heq. by subst s'.
Qed.

Lemma markSlots_missing d u : forall slots (doc : Document) s,
  s ∈ slots -> doc !! slotLine u s = None ->
  markSlots exclusive d u slots doc = None.
Proof.
  induction slots as [|s0 rest IH]; intros doc s Hs Hnone.
  - by apply elem_of_nil in Hs.
  - simpl. destruct (doc !! slotLine u s0) as [tl|] eqn:Htl.
    + rewrite (markLine_Some _ _ _ _ _ Htl). simpl.
      apply elem_of_cons in Hs as [->|Hs]; [congruence|].
      apply (IH _ s Hs). apply lookup_ge_None. rewrite length_insert.
      by apply lookup_ge_None.
    + by rewrite (markLine_None _ _ _ _ Htl).
Qed.

(** X13: when the text mutation leaves a line under every slot the item
    writes, [undo] / [redo] succeed, and the lines they yield have the
    texts and attribute runs the text mutation left; lines of no written
    slot are as the text mutation left them. *)
Theorem execute_frame (d : Direction) (u : KateUndo) (document : Document) :
  (forall s, s ∈ slotsMarked (edit u) d ->
     is_Some (plainKateTextLine
                (textMutation KateEditUndo_undo KateEditUndo_redo d (edit u) document)
                (slotLine u s))) ->
  exists document',
    execute exclusive KateEditUndo_undo KateEditUndo_redo d u document
    = Some document'
    /\ m_text <$> document'
       = m_text <$> textMutation KateEditUndo_undo KateEditUndo_redo d (edit u) document
    /\ m_attributesList <$> document'
       = m_attributesList
           <$> textMutation KateEditUndo_undo KateEditUndo_redo d (edit u) document
    /\ forall l, (forall s, s ∈ slotsMarked (edit u) d -> l <> slotLine u s) ->
         document' !! l
         = textMutation KateEditUndo_undo KateEditUndo_redo d (edit u) document !! l.
Proof.
  intros Hex. rewrite execute_as_markSlots.
  destruct (markSlots_spec d u _ _ (slotsMarked_NoDup (edit u) d) Hex)
    as (doc' & Hrun & _ & Htext & Hattr & Hframe & _).
  exists doc'. done.
Qed.

(** X14: when the text mutation leaves no line under a slot the item
    writes, the assertion of [undo] / [redo] fails. *)
Theorem execute_missing_line (d : Direction) (u : KateUndo) (s : LineSlot)
    (document : Document) :
  s ∈ slotsMarked (edit u) d ->
  plainKateTextLine
    (textMutation KateEditUndo_undo KateEditUndo_redo d (edit u) document)
    (slotLine u s) = None ->
  execute exclusive KateEditUndo_undo KateEditUndo_redo d u document = None.
Proof.
  intros Hs Hnone. rewrite execute_as_markSlots. by apply (markSlots_missing d u _ _ s).
Qed.

(** X15: a record that exists (constructed, then changed by
    save-reconciliation updates only) leaves on every line it writes
    exactly the marks its flag pair records, in both readings of the
    setters, and never both marks at once. *)
Theorem execute_marks (d : Direction) (u : KateUndo) (s : LineSlot)
    (document : Document) :
  reachable u ->
  s ∈ slotsMarked (edit u) d ->
  (forall s', s' ∈ slotsMarked (edit u) d ->
     is_Some (plainKateTextLine
                (textMutation KateEditUndo_undo KateEditUndo_redo d (edit u) document)
                (slotLine u s'))) ->
  exists document',
    execute exclusive KateEditUndo_undo KateEditUndo_redo d u document
    = Some document'
    /\ marksOf document' (slotLine u s)
       = Some (isFlagSet (modifiedFlag d s) u, isFlagSet (savedFlag d s) u)
    /\ marksOf document' (slotLine u s) <> Some (true, true).
Proof.
  intros Hreach Hs Hex. rewrite execute_as_markSlots.
  destruct (reachable_pairs u Hreach) as [Hone _].
  pose proof (proj1 (atMostOnePerPair_spec u) Hone d s) as Hpair.
  destruct (markSlots_spec d u _ _ (slotsMarked_NoDup (edit u) d) Hex)
    as (doc' & Hrun & _ & _ & _ & _ & Hmarks).
  exists doc'. split; [done|]. rewrite (Hmarks s Hs Hpair). split; [done|].
  intros [= Hm Hsv]. by rewrite Hm, Hsv in Hpair.
Qed.

(** X16: an InsertText, RemoveText, InsertLine or RemoveLine record that
    exists never leaves a line it writes without a mark: the line ends
    either modified or saved on disk, never neither and never both. *)
Theorem single_line_one_mark (d : Direction) (u : KateUndo) (s : LineSlot)
    (document : Document) :
  reachable u -> singleLineKind u = true ->
  s ∈ slotsMarked (edit u) d ->
  is_Some (plainKateTextLine
             (textMutation KateEditUndo_undo KateEditUndo_redo d (edit u) document)
             (slotLine u s)) ->
  exists document' m,
    execute exclusive KateEditUndo_undo KateEditUndo_redo d u document
    = Some document'
    /\ marksOf document' (slotLine u s) = Some (m, negb m).
Proof.
  intros Hreach Hkind Hs Hline. rewrite execute_as_markSlots.
  destruct (reachable_pairs u Hreach) as [Hone Hfull].
  pose proof (proj1 (atMostOnePerPair_spec u) Hone d s) as Hpair.
  assert (slotsMarked (edit u) d = [s]) as Hslots.
  { unfold singleLineKind in Hkind. apply list_elem_of_In in Hs.
    destruct d, (edit u); simpl in *; try done; by destruct Hs as [<-|[]]. }
  assert (pairSet d s u = true) as Hset.
  { unfold singleLineKind in Hkind. unfold fullPairs in Hfull.
    apply list_elem_of_In in Hs.
    destruct d, (edit u); simpl in *; try done; destruct Hs as [<-|[]];
      try done; by apply andb_prop in Hfull as [? ?]. }
  destruct (markSlots_spec d u (slotsMarked (edit u) d)
              (textMutation KateEditUndo_undo KateEditUndo_redo d (edit u) document)
              (slotsMarked_NoDup (edit u) d))
    as (doc' & Hrun & _ & _ & _ & _ & Hmarks).
  { rewrite Hslots. intros s' ->%list_elem_of_singleton. done. }
  exists doc', (isFlagSet (modifiedFlag d s) u). split; [done|].
  rewrite (Hmarks s Hs Hpair). unfold pairSet in Hset.
  by destruct (isFlagSet (modifiedFlag d s) u), (isFlagSet (savedFlag d s) u).
Qed.

End Executing.

Lemma execute_frame_witness :
  exists document',
    execute true exampleUndo exampleRedo Redo wrapInside cleanDocument
    = Some document'
    /\ m_text <$> document'
       = m_text <$> textMutation exampleUndo exampleRedo Redo (edit wrapInside)
                      cleanDocument
    /\ m_attributesList <$> document'
       = m_attributesList
           <$> textMutation exampleUndo exampleRedo Redo (edit wrapInside)
                 cleanDocument
    /\ forall l, (forall s, s ∈ slotsMarked (edit wrapInside) Redo ->
                    l <> slotLine wrapInside s) ->
         document' !! l
         = textMutation exampleUndo exampleRedo Redo (edit wrapInside)
             cleanDocument !! l.
Proof.
  apply (execute_frame true exampleUndo exampleRedo Redo wrapInside cleanDocument).
  intros s Hs. destruct s; vm_compute; eauto.
Defined.

Lemma execute_missing_line_witness :
  Line1 ∈ slotsMarked (edit insertModified) Undo
  /\ plainKateTextLine
       (textMutation exampleUndo exampleRedo Undo (edit insertModified) [])
       (slotLine insertModified Line1) = None
  /\ execute true exampleUndo exampleRedo Undo insertModified [] = None.
Proof.
  assert (Line1 ∈ slotsMarked (edit insertModified) Undo) as Hs
    by (apply list_elem_of_In; simpl; tauto).
  split; [exact Hs|]. split; [reflexivity|].
  apply (execute_missing_line true exampleUndo exampleRedo Undo insertModified
           Line1 [] Hs).
  reflexivity.
Defined.

Lemma execute_marks_witness :
  reachable wrapInside
  /\ exists document',
       execute true exampleUndo exampleRedo Redo wrapInside cleanDocument
       = Some document'
       /\ marksOf document' (slotLine wrapInside Line2)
          = Some (isFlagSet (modifiedFlag Redo Line2) wrapInside,
                  isFlagSet (savedFlag Redo Line2) wrapInside)
       /\ marksOf document' (slotLine wrapInside Line2) <> Some (true, true).
Proof.
  assert (reachable wrapInside) as Hreach
    by (apply (reach_WrapLine cleanDocument 0 3 2 true); reflexivity).
  split; [exact Hreach|].
  apply (execute_marks true exampleUndo exampleRedo Redo wrapInside Line2
           cleanDocument Hreach).
  - apply list_elem_of_In. simpl. tauto.
  - intros s Hs. destruct s; vm_compute; eauto.
Defined.

Lemma single_line_one_mark_witness :
  reachable insertModified
  /\ exists document' m,
       execute true exampleUndo exampleRedo Redo insertModified modifiedDocument
       = Some document'
       /\ marksOf document' (slotLine insertModified Line1) = Some (m, negb m).
Proof.
  assert (reachable insertModified) as Hreach
    by (apply (reach_InsertText modifiedDocument 0 3 [33]); reflexivity).
  split; [exact Hreach|].
  apply (single_line_one_mark true exampleUndo exampleRedo Redo insertModified
           Line1 modifiedDocument Hreach).
  - reflexivity.
  - apply list_elem_of_In. simpl. tauto.
  - vm_compute. eauto.
Defined.

Lemma constructedOn_reachable document ln u :
  constructedOn document ln u -> reachable u.
Proof.
  destruct 1; [eapply reach_InsertText | eapply reach_RemoveText
              | eapply reach_WrapLine | eapply reach_UnWrapLine
              | eapply reach_RemoveLine]; eassumption.
Qed.

Ltac lookup_line H :=
  unfold plainKateTextLine in H;
  match type of H with
  | context [mbind _ (?doc !! ?l)] =>
      let t := fresh "t" in
      let Ht := fresh "Ht" in
      destruct (doc !! l) as [t|] eqn:Ht; simpl in H; [|discriminate H]
  end.

Ltac cases_of H :=
  repeat match type of H with
         | context [markedAsModified ?t] =>
             let Hm := fresh "Hm" in destruct (markedAsModified t) eqn:Hm
         | context [markedAsSavedOnDisk ?t] =>
             let Hs := fresh "Hs" in destruct (markedAsSavedOnDisk t) eqn:Hs
         end;
  rewrite ?orb_true_r, ?orb_false_r, ?andb_true_r, ?andb_false_r in H;
  simpl in H;
  repeat match type of H with
         | context [if ?c then _ else _] =>
             let Hc := fresh "Hc" in destruct c eqn:Hc; simpl in H
         end.

Ltac same_line Htl :=
  unfold slotLine, line, setFlag, newUndo in Htl; simpl in Htl;
  match type of Htl with
  | ?doc !! ?l = Some ?tl =>
      match goal with
      | Ht : doc !! l = Some ?t |- _ =>
          assert (tl = t) as -> by congruence; clear Htl
      end
  end.

Ltac finish_flags :=
  repeat match goal with
         | Hx : markedAsModified _ = _ |- _ => rewrite ?Hx; clear Hx
         | Hx : markedAsSavedOnDisk _ = _ |- _ => rewrite ?Hx; clear Hx
         end;
  split; [by flags|];
  let Heq := fresh "Heq" in
  simpl; intros Heq; try discriminate Heq; rewrite ?Heq; by flags.

(** The undo flags a constructor sets record the marks of the lines. *)
Lemma constructedOn_undo_flags (document : Document) ln u s tl :
  constructedOn document ln u ->
  s ∈ slotsMarked (edit u) Undo ->
  document !! slotLine u s = Some tl ->
  isFlagSet (modifiedFlag Undo s) u = markedAsModified tl
  /\ (markedAsSavedOnDisk tl = negb (markedAsModified tl) ->
      isFlagSet (savedFlag Undo s) u = markedAsSavedOnDisk tl).
Proof.
  intros Hc Hs Htl. apply list_elem_of_In in Hs.
  destruct Hc as [col text u H|col text u H|col len b u H|col len b u H|text u H].
  - unfold KateModifiedInsertText in H. lookup_line H. cases_of H.
    all: injection H as <-; simpl in Hs; destruct Hs as [<-|[]].
    all: same_line Htl; finish_flags.
  - unfold KateModifiedRemoveText in H. lookup_line H. cases_of H.
    all: injection H as <-; simpl in Hs; destruct Hs as [<-|[]].
    all: same_line Htl; finish_flags.
  - unfold KateModifiedWrapLine in H. lookup_line H. cases_of H.
    all: injection H as <-; simpl in Hs; destruct Hs as [<-|[]].
    all: same_line Htl; finish_flags.
  - unfold KateModifiedUnWrapLine in H. lookup_line H. lookup_line H. cases_of H.
    all: injection H as <-; simpl in Hs; destruct Hs as [<-|[<-|[]]].
    all: same_line Htl; finish_flags.
  - unfold KateModifiedRemoveLine in H. lookup_line H. cases_of H.
    all: injection H as <-; simpl in Hs; destruct Hs as [<-|[]].
    all: same_line Htl; finish_flags.
Qed.

Section Restoring.

Variable exclusive : bool.
Variable KateEditUndo_undo : KateEditUndo -> Document -> Document.
Variable KateEditUndo_redo : KateEditUndo -> Document -> Document.

(** X17: [undo] of a record built by a constructor gives every line it
    writes the modified mark the line had in the document the record was
    built on; a line that carried exactly one of the two marks then gets
    both its marks back. *)
Theorem undo_restores_marks (document : Document) (ln : nat) (u : KateUndo)
    (s : LineSlot) (tl : TextLineData) (d1 : Document) :
  constructedOn document ln u ->
  s ∈ slotsMarked (edit u) Undo ->
  plainKateTextLine document (slotLine u s) = Some tl ->
  (forall s', s' ∈ slotsMarked (edit u) Undo ->
     is_Some (plainKateTextLine (KateEditUndo_undo (edit u) d1) (slotLine u s'))) ->
  exists d2,
    undo exclusive KateEditUndo_undo u d1 = Some d2
    /\ fst <$> marksOf d2 (slotLine u s) = Some (markedAsModified tl)
    /\ (markedAsSavedOnDisk tl = negb (markedAsModified tl) ->
        marksOf d2 (slotLine u s) = marksOf document (slotLine u s)).
Proof.
  intros Hc Hs Htl Hex.
  change (undo exclusive KateEditUndo_undo u d1)
    with (execute exclusive KateEditUndo_undo KateEditUndo_undo Undo u d1).
  rewrite execute_as_markSlots.
  destruct (reachable_pairs u (constructedOn_reachable _ _ _ Hc)) as [Hone _].
  pose proof (proj1 (atMostOnePerPair_spec u) Hone Undo s) as Hpair.
  destruct (markSlots_spec exclusive Undo u _ _ (slotsMarked_NoDup (edit u) Undo) Hex)
    as (d2 & Hrun & _ & _ & _ & _ & Hmarks).
  destruct (constructedOn_undo_flags document ln u s tl Hc Hs Htl) as [Hm Hsv].
  exists d2. split; [done|]. rewrite (Hmarks s Hs Hpair), Hm. split; [done|].
  intros Hexact. rewrite (Hsv Hexact). unfold marksOf. by rewrite Htl.
Qed.

(** X18: [redo] of a freshly built UnwrapLine record: joining two lines
    that both have text marks the joined line modified; joining an empty
    line with its successor hands the successor's marks to the joined
    line. *)
Theorem unWrapLine_redo_marks (document : Document) (ln : nat) (col len : Z)
    (removeLine : bool) (tl nextLine : TextLineData) :
  plainKateTextLine document ln = Some tl ->
  plainKateTextLine document (ln + 1) = Some nextLine ->
  exists u,
    KateModifiedUnWrapLine document ln col len removeLine = Some u
    /\ forall d1,
         is_Some (plainKateTextLine (KateEditUndo_redo (edit u) d1) ln) ->
         exists d2,
           redo exclusive KateEditUndo_redo u d1 = Some d2
           /\ (m_text tl <> [] -> m_text nextLine <> [] ->
               marksOf d2 ln = Some (true, false))
           /\ (m_text tl = [] ->
               marksOf d2 ln
               = Some (markedAsModified nextLine,
                       negb (markedAsModified nextLine)
                       && markedAsSavedOnDisk nextLine)).
Proof.
  intros Htl Hnext.
  destruct (KateModifiedUnWrapLine document ln col len removeLine) as [u|] eqn:Hu;
    [|by unfold KateModifiedUnWrapLine in Hu; rewrite Htl, Hnext in Hu;
        simpl in Hu; repeat case_match].
  exists u. split; [done|]. intros d1 Hline.
  assert (edit u = KateEditUnWrapLineUndo ln col len removeLine) as Hedit.
  { unfold KateModifiedUnWrapLine in Hu. rewrite Htl, Hnext in Hu. simpl in Hu.
    repeat case_match; injection Hu as <-; by edits. }
  change (redo exclusive KateEditUndo_redo u d1)
    with (execute exclusive KateEditUndo_redo KateEditUndo_redo Redo u d1).
  rewrite execute_as_markSlots.
  destruct (reachable_pairs u (reach_UnWrapLine _ _ _ _ _ _ Hu)) as [Hone _].
  pose proof (proj1 (atMostOnePerPair_spec u) Hone Redo Line1) as Hpair.
  assert (slotLine u Line1 = ln) as Hln by (unfold slotLine, line; by rewrite Hedit).
  destruct (markSlots_spec exclusive Redo u (slotsMarked (edit u) Redo)
              (textMutation KateEditUndo_redo KateEditUndo_redo Redo (edit u) d1)
              (slotsMarked_NoDup (edit u) Redo))
    as (d2 & Hrun & _ & _ & _ & _ & Hmarks).
  { rewrite Hedit. intros s' ->%list_elem_of_singleton.
    rewrite Hln. simpl. by rewrite <- Hedit. }
  exists d2. split; [done|].
  specialize (Hmarks Line1). rewrite Hedit, Hln in Hmarks.
  rewrite Hmarks; [|by apply list_elem_of_singleton|done].
  clear Hmarks Hrun Hpair Hone Hline.
  unfold KateModifiedUnWrapLine in Hu. rewrite Htl, Hnext in Hu. simpl in Hu.
  split.
  - intros H1 H2.
    destruct (m_text tl) as [|c1 r1]; [done|].
    destruct (m_text nextLine) as [|c2 r2]; [done|]. simpl in Hu.
    repeat case_match; injection Hu as <-; by flags.
  - intros H1. rewrite H1 in Hu. simpl in Hu.
    destruct (markedAsModified nextLine), (markedAsSavedOnDisk nextLine);
      simpl in Hu; repeat case_match; injection Hu as <-; by flags.
Qed.

(** X19: [redo] of a freshly built WrapLine record at the ends of the
    line: with nothing moved to the new line ([len = 0]) the first line
    keeps its marks and the new line is modified; with the whole text moved
    ([col <= 0 < len]) the first line is modified and the second one gets
    the marks the line had. *)
Theorem wrapLine_redo_edge_marks (document : Document) (ln : nat) (col len : Z)
    (newLine : bool) (tl : TextLineData) :
  plainKateTextLine document ln = Some tl ->
  exists u,
    KateModifiedWrapLine document ln col len newLine = Some u
    /\ forall d1,
         is_Some (plainKateTextLine (KateEditUndo_redo (edit u) d1) ln) ->
         is_Some (plainKateTextLine (KateEditUndo_redo (edit u) d1) (ln + 1)) ->
         exists d2,
           redo exclusive KateEditUndo_redo u d1 = Some d2
           /\ (len = 0 ->
               marksOf d2 ln
               = Some (markedAsModified tl,
                       negb (markedAsModified tl) && markedAsSavedOnDisk tl)
               /\ marksOf d2 (ln + 1)%nat = Some (true, false))
           /\ (col <= 0 -> 0 < len ->
               marksOf d2 ln = Some (true, false)
               /\ marksOf d2 (ln + 1)%nat
                  = Some (markedAsModified tl,
                          negb (markedAsModified tl) && markedAsSavedOnDisk tl)).
Proof.
  intros Htl.
  destruct (KateModifiedWrapLine document ln col len newLine) as [u|] eqn:Hu;
    [|by unfold KateModifiedWrapLine in Hu; rewrite Htl in Hu].
  exists u. split; [done|]. intros d1 Hline1 Hline2.
  assert (edit u = KateEditWrapLineUndo ln col len newLine) as Hedit.
  { unfold KateModifiedWrapLine in Hu. rewrite Htl in Hu. simpl in Hu.
    repeat case_match; injection Hu as <-; by edits. }
  change (redo exclusive KateEditUndo_redo u d1)
    with (execute exclusive KateEditUndo_redo KateEditUndo_redo Redo u d1).
  rewrite execute_as_markSlots.
  destruct (reachable_pairs u (reach_WrapLine _ _ _ _ _ _ Hu)) as [Hone _].
  pose proof (proj1 (atMostOnePerPair_spec u) Hone Redo) as Hpair.
  assert (slotLine u Line1 = ln) as Hln1 by (unfold slotLine, line; by rewrite Hedit).
  assert (slotLine u Line2 = (ln + 1)%nat) as Hln2
    by (unfold slotLine, line; by rewrite Hedit).
  destruct (markSlots_spec exclusive Redo u (slotsMarked (edit u) Redo)
              (textMutation KateEditUndo_redo KateEditUndo_redo Redo (edit u) d1)
              (slotsMarked_NoDup (edit u) Redo))
    as (d2 & Hrun & _ & _ & _ & _ & Hmarks).
  { rewrite Hedit. intros s' Hs'%list_elem_of_In. simpl in Hs'.
    destruct Hs' as [<-|[<-|[]]]; rewrite ?Hln1, ?Hln2; simpl; by rewrite <- Hedit. }
  exists d2. split; [done|].
  assert (forall s, s ∈ slotsMarked (edit u) Redo) as Hall
    by (rewrite Hedit; intros []; apply list_elem_of_In; simpl; tauto).
  pose proof (Hmarks Line1 (Hall Line1) (Hpair Line1)) as Hm1.
  pose proof (Hmarks Line2 (Hall Line2) (Hpair Line2)) as Hm2.
  rewrite Hln1 in Hm1. rewrite Hln2 in Hm2. rewrite Hm1, Hm2.
  clear Hmarks Hm1 Hm2 Hrun Hpair Hone Hline1 Hline2 Hall.
  unfold KateModifiedWrapLine in Hu. rewrite Htl in Hu. simpl in Hu.
  split.
  - intros ->. simpl in Hu. rewrite orb_true_r in Hu. simpl in Hu.
    destruct (markedAsModified tl), (markedAsSavedOnDisk tl);
      simpl in Hu; repeat case_match; injection Hu as <-; split; by flags.
  - intros Hcol Hlen.
    destruct (Z.ltb_spec 0 len); [|lia]. destruct (Z.ltb_spec 0 col); [lia|].
    destruct (Z.eqb_spec len 0); [lia|]. simpl in Hu.
    destruct (markedAsModified tl), (markedAsSavedOnDisk tl);
      simpl in Hu; injection Hu as <-; split; by flags.
Qed.

End Restoring.

Lemma undo_restores_marks_witness :
  constructedOn modifiedDocument 0 insertModified
  /\ exists d2,
       undo true exampleUndo insertModified modifiedDocument = Some d2
       /\ fst <$> marksOf d2 (slotLine insertModified Line1)
          = Some (markedAsModified (mkTextLine hello [] true false))
       /\ (markedAsSavedOnDisk (mkTextLine hello [] true false)
           = negb (markedAsModified (mkTextLine hello [] true false)) ->
           marksOf d2 (slotLine insertModified Line1)
           = marksOf modifiedDocument (slotLine insertModified Line1)).
Proof.
  assert (constructedOn modifiedDocument 0 insertModified) as Hc
    by (apply (on_InsertText modifiedDocument 0 3 [33]); reflexivity).
  split; [exact Hc|].
  apply (undo_restores_marks true exampleUndo modifiedDocument 0 insertModified
           Line1 (mkTextLine hello [] true false) modifiedDocument Hc).
  - apply list_elem_of_In. simpl. tauto.
  - reflexivity.
  - intros s' Hs'%list_elem_of_In. simpl in Hs'. destruct Hs' as [<-|[]].
    vm_compute. eauto.
Defined.

Lemma unWrapLine_redo_marks_witness :
  let tl := mkTextLine hello [] false true in
  let nextLine := mkTextLine hello [] true false in
  exists u,
    KateModifiedUnWrapLine [tl; nextLine] 0 5 5 true = Some u
    /\ forall d1,
         is_Some (plainKateTextLine (exampleRedo (edit u) d1) 0) ->
         exists d2,
           redo true exampleRedo u d1 = Some d2
           /\ (m_text tl <> [] -> m_text nextLine <> [] ->
               marksOf d2 0 = Some (true, false))
           /\ (m_text tl = [] ->
               marksOf d2 0
               = Some (markedAsModified nextLine,
                       negb (markedAsModified nextLine)
                       && markedAsSavedOnDisk nextLine)).
Proof.
  apply (unWrapLine_redo_marks true exampleRedo
           [mkTextLine hello [] false true; mkTextLine hello [] true false]
           0 5 5 true); reflexivity.
Defined.

Lemma wrapLine_redo_edge_marks_witness :
  let tl := mkTextLine hello [] false true in
  exists u,
    KateModifiedWrapLine [tl] 0 0 5 true = Some u
    /\ forall d1,
         is_Some (plainKateTextLine (exampleRedo (edit u) d1) 0) ->
         is_Some (plainKateTextLine (exampleRedo (edit u) d1) (0 + 1)) ->
         exists d2,
           redo true exampleRedo u d1 = Some d2
           /\ (5 = 0 ->
               marksOf d2 0
               = Some (markedAsModified tl,
                       negb (markedAsModified tl) && markedAsSavedOnDisk tl)
               /\ marksOf d2 (0 + 1)%nat = Some (true, false))
           /\ (0 <= 0 -> 0 < 5 ->
               marksOf d2 0 = Some (true, false)
               /\ marksOf d2 (0 + 1)%nat
                  = Some (markedAsModified tl,
                          negb (markedAsModified tl) && markedAsSavedOnDisk tl)).
Proof.
  apply (wrapLine_redo_edge_marks true exampleRedo
           [mkTextLine hello [] false true] 0 0 5 true). reflexivity.
Defined.

End UndoExecution.

(** ** More on the save-reconciliation updates *)

Module SaveFlags.
Import UndoFacts UndoExecution.

Lemma slotLine_edit u v s : edit u = edit v -> slotLine u s = slotLine v s.
Proof. intros H. unfold slotLine, line. by rewrite H. Qed.

(** One block of an update, spelled out; [fired] tells whether its body ran. *)
Lemma markSaved_step c d (lines : QBitArray) u s :
  (slotLine u s < List.length lines)%nat ->
  exists lines1 u1 fired,
    fired = (negb c || isFlagSet (modifiedFlag d s) u)
            && negb (testBit (slotLine u s) lines)
    /\ markSaved c d (lines, u) s = (lines1, u1)
    /\ edit u1 = edit u
    /\ List.length lines1 = List.length lines
    /\ (forall i, testBit i lines1
                  = (bool_decide (i = slotLine u s) && fired) || testBit i lines)
    /\ (forall d' s', isFlagSet (modifiedFlag d' s') u1
          = negb (bool_decide ((d', s') = (d, s)) && fired)
            && isFlagSet (modifiedFlag d' s') u)
    /\ (forall d' s', isFlagSet (savedFlag d' s') u1
          = (bool_decide ((d', s') = (d, s)) && fired)
            || isFlagSet (savedFlag d' s') u)
    /\ (fired = false -> lines1 = lines /\ u1 = u).
Proof.
  intros Hlt. unfold markSaved.
  destruct ((negb c || isFlagSet (modifiedFlag d s) u)
            && negb (testBit (slotLine u s) lines)) eqn:Hf.
  - exists (setBit (slotLine u s) lines), (toSaved d s u), true.
    split; [done|]. split; [done|]. split; [done|].
    split; [by unfold setBit; rewrite length_insert|].
    split; [intros i; rewrite testBit_setBit by done; by rewrite andb_true_r|].
    split; [intros d' s'; rewrite isFlagSet_toSaved_modified; by rewrite andb_true_r|].
    split; [intros d' s'; rewrite isFlagSet_toSaved_saved; by rewrite andb_true_r|].
    done.
  - exists lines, u, false.
    split; [done|]. split; [done|]. split; [done|]. split; [done|].
    split; [intros i; by rewrite andb_false_r|].
    split; [intros d' s'; by rewrite andb_false_r|].
    split; [intros d' s'; by rewrite andb_false_r|].
    done.
Qed.

(** The blocks of an update, one per slot. *)
Lemma markSaved_fold c d : forall slots (lines : QBitArray) u,
  NoDup slots ->
  (forall s, s ∈ slots -> (slotLine u s < List.length lines)%nat) ->
  exists lines' u',
    foldl (markSaved c d) (lines, u) slots = (lines', u')
    /\ edit u' = edit u
    /\ List.length lines' = List.length lines
    /\ (forall i, testBit i lines = true -> testBit i lines' = true)
    /\ (forall i, (forall s, s ∈ slots -> i <> slotLine u s) ->
          testBit i lines' = testBit i lines)
    /\ (forall d' s', d' <> d \/ s' ∉ slots ->
          isFlagSet (modifiedFlag d' s') u' = isFlagSet (modifiedFlag d' s') u
          /\ isFlagSet (savedFlag d' s') u' = isFlagSet (savedFlag d' s') u)
    /\ (forall s, s ∈ slots ->
          if (negb c || isFlagSet (modifiedFlag d s) u)
             && negb (testBit (slotLine u s) lines)
          then isFlagSet (modifiedFlag d s) u' = false
               /\ isFlagSet (savedFlag d s) u' = true
               /\ testBit (slotLine u s) lines' = true
          else isFlagSet (modifiedFlag d s) u' = isFlagSet (modifiedFlag d s) u
               /\ isFlagSet (savedFlag d s) u' = isFlagSet (savedFlag d s) u
               /\ testBit (slotLine u s) lines' = testBit (slotLine u s) lines)
    /\ ((forall s, s ∈ slots -> testBit (slotLine u s) lines = true) ->
        lines' = lines /\ u' = u).
Proof.
  induction slots as [|s rest IH]; intros lines u Hnd Hlt.
  - exists lines, u. simpl. repeat split; try done.
    intros s Hs. by apply elem_of_nil in Hs.
  - apply NoDup_cons in Hnd as [Hs Hnd].
    destruct (markSaved_step c d lines u s) as
      (lines1 & u1 & fired & Hfired & Hstep & Hedit1 & Hlen1 & Hbit1 & Hmod1 & Hsav1 & Hno1).
    { apply Hlt. by apply elem_of_cons; left. }
    assert (forall s', slotLine u1 s' = slotLine u s') as Hline
      by (intros s'; by apply slotLine_edit).
    destruct (IH lines1 u1 Hnd) as
      (lines' & u' & Hrun & Hedit & Hlen & Hmono & Hother & Hflags & Hslots & Hnone).
    { intros s' Hs'. rewrite Hline, Hlen1. apply Hlt. by apply elem_of_cons; right. }
    exists lines', u'. cbn [foldl]. rewrite Hstep.
    split; [done|]. split; [congruence|]. split; [congruence|].
    assert (forall s', s' ∈ rest -> slotLine u s <> slotLine u s') as Hdiff.
    { intros s' Hs' Heq. apply slotLine_inj in Heq. by subst s'. }
    assert (forall s', s' ∈ rest -> bool_decide ((d, s') = (d, s)) = false) as Hpair.
    { intros s' Hs'. apply bool_decide_eq_false. intros [= ->]. done. }
    split; [|split; [|split; [|split]]].
    + intros i Hi. apply Hmono. rewrite Hbit1, Hi. by rewrite orb_true_r.
    + intros i Hi. rewrite Hother.
      * rewrite Hbit1. rewrite (bool_decide_eq_false_2 (i = slotLine u s)); [done|].
        apply Hi. by apply elem_of_cons; left.
      * intros s' Hs'. rewrite Hline. apply Hi. by apply elem_of_cons; right.
    + intros d' s' Hds.
      destruct (Hflags d' s') as [Hm Hsv].
      { destruct Hds as [?|Hds]; [by left|]. right. intros Hin. apply Hds.
        by apply elem_of_cons; right. }
      rewrite Hm, Hsv, Hmod1, Hsav1.
      rewrite (bool_decide_eq_false_2 ((d', s') = (d, s))); [done|].
      intros [= -> ->]. destruct Hds as [?|Hds]; [done|].
      apply Hds. by apply elem_of_cons; left.
    + intros s0 [->|Hs0]%elem_of_cons.
      * destruct (Hflags d s) as [Hm Hsv]; [by right|].
        rewrite Hm, Hsv, Hmod1, Hsav1, <- Hfired.
        rewrite (bool_decide_eq_true_2 ((d, s) = (d, s))) by done.
        rewrite Hother by (intros s' Hs'; rewrite Hline; by apply Hdiff).
        rewrite Hbit1, (bool_decide_eq_true_2 (slotLine u s = slotLine u s)) by done.
        destruct fired; simpl; [done|].
        by destruct (Hno1 eq_refl) as [-> ->].
      * specialize (Hslots s0 Hs0).
        rewrite Hline, Hmod1, Hsav1, Hbit1 in Hslots.
        rewrite (Hpair s0 Hs0) in Hslots.
        rewrite (bool_decide_eq_false_2 (slotLine u s0 = slotLine u s)) in Hslots
          by (intros Heq; by apply (Hdiff s0 Hs0)).
        exact Hslots.
    + intros Hall.
      assert (fired = false) as Hf.
      { rewrite Hfired, (Hall s) by (by apply elem_of_cons; left).
        by rewrite andb_false_r. }
      destruct (Hno1 Hf) as [-> ->]. apply Hnone.
      intros s' Hs'. apply Hall. by apply elem_of_cons; right.
Qed.

(** Every update is its [resize] followed by one block per written slot. *)
Lemma update_steps d u (lines : QBitArray) :
  slotsMarked (edit u) d <> [] ->
  updateSavedOnDiskFlag d u lines
  = foldl (markSaved (negb (singleLineKind u)) d)
      (ensureSize (line u + List.length (slotsMarked (edit u) d)) lines, u)
      (slotsMarked (edit u) d).
Proof.
  destruct u as [e F]. destruct d, e; simpl; intros Hne; try done; reflexivity.
Qed.

Lemma update_noop d u (lines : QBitArray) :
  slotsMarked (edit u) d = [] -> updateSavedOnDiskFlag d u lines = (lines, u).
Proof. destruct u as [e F]. destruct d, e; simpl; intros Hne; try done. Qed.

Lemma slotLine_bound u d s :
  s ∈ slotsMarked (edit u) d ->
  (slotLine u s < line u + List.length (slotsMarked (edit u) d))%nat.
Proof.
  intros Hs%list_elem_of_In. destruct u as [e F].
  destruct d, e, s; simpl in *; unfold line; simpl; try lia;
    try tauto; by destruct Hs as [?|[]].
Qed.

(** What an update does to the bitmap and to the flags. *)
Lemma update_spec d u (lines : QBitArray) :
  exists lines' u',
    updateSavedOnDiskFlag d u lines = (lines', u')
    /\ edit u' = edit u
    /\ (List.length lines <= List.length lines')%nat
    /\ (forall i, testBit i lines = true -> testBit i lines' = true)
    /\ (forall i, (forall s, s ∈ slotsMarked (edit u) d -> i <> slotLine u s) ->
          testBit i lines' = testBit i lines)
    /\ (forall d' s', d' <> d \/ s' ∉ slotsMarked (edit u) d ->
          isFlagSet (modifiedFlag d' s') u' = isFlagSet (modifiedFlag d' s') u
          /\ isFlagSet (savedFlag d' s') u' = isFlagSet (savedFlag d' s') u)
    /\ (forall s, s ∈ slotsMarked (edit u) d ->
          if (singleLineKind u || isFlagSet (modifiedFlag d s) u)
             && negb (testBit (slotLine u s) lines)
          then isFlagSet (modifiedFlag d s) u' = false
               /\ isFlagSet (savedFlag d s) u' = true
               /\ testBit (slotLine u s) lines' = true
          else isFlagSet (modifiedFlag d s) u' = isFlagSet (modifiedFlag d s) u
               /\ isFlagSet (savedFlag d s) u' = isFlagSet (savedFlag d s) u
               /\ testBit (slotLine u s) lines' = testBit (slotLine u s) lines)
    /\ ((forall s, s ∈ slotsMarked (edit u) d ->
           testBit (slotLine u s) lines = true) ->
        u' = u /\ forall i, testBit i lines' = testBit i lines).
Proof.
  destruct (slotsMarked (edit u) d) as [|s0 rest] eqn:Hslots.
  - exists lines, u. rewrite (update_noop d u lines Hslots).
    repeat split; try done. intros s Hs. by apply elem_of_nil in Hs.
  - rewrite update_steps by (by rewrite Hslots).
    pose proof (slotsMarked_NoDup (edit u) d) as Hnd.
    pose proof (slotLine_bound u d) as Hbound.
    rewrite Hslots in *.
    set (n := (line u + List.length (s0 :: rest))%nat) in *.
    destruct (markSaved_fold (negb (singleLineKind u)) d (s0 :: rest)
                (ensureSize n lines) u Hnd) as
      (lines' & u' & Hrun & Hedit & Hlen & Hmono & Hother & Hflags & Hsl & Hnone).
    { intros s Hs. pose proof (Hbound s Hs). pose proof (length_ensureSize n lines). lia. }
    exists lines', u'. split; [done|]. split; [done|].
    split.
    { rewrite Hlen. unfold ensureSize, resize.
      destruct (Nat.ltb_spec (List.length lines) n); [|done].
      rewrite length_app, length_take, length_replicate. lia. }
    split; [intros i Hi; apply Hmono; by rewrite testBit_ensureSize|].
    split; [intros i Hi; rewrite Hother by done; by rewrite testBit_ensureSize|].
    split; [done|].
    split.
    { intros s Hs. specialize (Hsl s Hs).
      rewrite negb_involutive, !testBit_ensureSize in Hsl. done. }
    intros Hall. destruct Hnone as [-> ->].
    { intros s Hs. rewrite testBit_ensureSize. by apply Hall. }
    split; [done|]. intros i. by rewrite testBit_ensureSize.
Qed.

(** X20: an update of one direction changes no flag of the other
    direction and nothing else of the record; the bitmap never shrinks, no
    bit is cleared, and no bit changes but those of the lines the record
    writes in that direction. *)
Theorem update_frame (d : Direction) (u : KateUndo) (lines : QBitArray) :
  edit (snd (updateSavedOnDiskFlag d u lines)) = edit u
  /\ (forall d' s, d' <> d ->
        isFlagSet (modifiedFlag d' s) (snd (updateSavedOnDiskFlag d u lines))
        = isFlagSet (modifiedFlag d' s) u
        /\ isFlagSet (savedFlag d' s) (snd (updateSavedOnDiskFlag d u lines))
           = isFlagSet (savedFlag d' s) u)
  /\ (List.length lines <= List.length (fst (updateSavedOnDiskFlag d u lines)))%nat
  /\ (forall i, testBit i lines = true ->
        testBit i (fst (updateSavedOnDiskFlag d u lines)) = true)
  /\ (forall i, (forall s, s ∈ slotsMarked (edit u) d -> i <> slotLine u s) ->
        testBit i (fst (updateSavedOnDiskFlag d u lines)) = testBit i lines).
Proof.
  destruct (update_spec d u lines) as
    (lines' & u' & -> & Hedit & Hlen & Hmono & Hother & Hflags & _ & _). simpl.
  split; [done|]. split; [|done].
  intros d' s Hd. apply Hflags. by left.
Qed.

(** X21: on a line the bitmap has not marked yet, an update leaves no
    Modified flag of its direction: a pair that was set is now Saved, and
    when the update rewrote the pair the line is marked in the bitmap. *)
Theorem update_unmarked_line (d : Direction) (u : KateUndo) (s : LineSlot)
    (lines : QBitArray) :
  s ∈ slotsMarked (edit u) d ->
  testBit (slotLine u s) lines = false ->
  isFlagSet (modifiedFlag d s) (snd (updateSavedOnDiskFlag d u lines)) = false
  /\ (pairSet d s u = true ->
      isFlagSet (savedFlag d s) (snd (updateSavedOnDiskFlag d u lines)) = true)
  /\ (singleLineKind u = true \/ isFlagSet (modifiedFlag d s) u = true ->
      testBit (slotLine u s) (fst (updateSavedOnDiskFlag d u lines)) = true).
Proof.
  intros Hs Hbit.
  destruct (update_spec d u lines) as
    (lines' & u' & -> & _ & _ & _ & _ & _ & Hsl & _). simpl.
  specialize (Hsl s Hs). rewrite Hbit, andb_true_r in Hsl. unfold pairSet.
  destruct (singleLineKind u), (isFlagSet (modifiedFlag d s) u); simpl in Hsl;
    destruct Hsl as (Hm & Hsv & Hb); rewrite Hm, Hsv, ?Hb;
    repeat split; try done; intros [|]; done.
Qed.

(** X22: a record all of whose written lines are marked in the bitmap
    already is left as it is, and so are the bits. *)
Theorem update_marked_lines (d : Direction) (u : KateUndo) (lines : QBitArray) :
  (forall s, s ∈ slotsMarked (edit u) d -> testBit (slotLine u s) lines = true) ->
  snd (updateSavedOnDiskFlag d u lines) = u
  /\ forall i, testBit i (fst (updateSavedOnDiskFlag d u lines)) = testBit i lines.
Proof.
  intros Hall.
  destruct (update_spec d u lines) as
    (lines' & u' & -> & _ & _ & _ & _ & _ & _ & Hnone). simpl.
  by apply Hnone.
Qed.

Lemma update_unmarked_line_witness :
  Line2 ∈ slotsMarked (edit wrapInside) Redo
  /\ testBit (slotLine wrapInside Line2) [true] = false
  /\ isFlagSet (modifiedFlag Redo Line2)
       (snd (updateSavedOnDiskFlag Redo wrapInside [true])) = false
  /\ (pairSet Redo Line2 wrapInside = true ->
      isFlagSet (savedFlag Redo Line2)
        (snd (updateSavedOnDiskFlag Redo wrapInside [true])) = true)
  /\ (singleLineKind wrapInside = true
      \/ isFlagSet (modifiedFlag Redo Line2) wrapInside = true ->
      testBit (slotLine wrapInside Line2)
        (fst (updateSavedOnDiskFlag Redo wrapInside [true])) = true).
Proof.
  assert (Line2 ∈ slotsMarked (edit wrapInside) Redo) as Hs
    by (apply list_elem_of_In; simpl; tauto).
  split; [exact Hs|]. split; [reflexivity|].
  apply (update_unmarked_line Redo wrapInside Line2 [true] Hs). reflexivity.
Defined.

Lemma update_marked_lines_witness :
  (forall s, s ∈ slotsMarked (edit insertModified) Redo ->
     testBit (slotLine insertModified s) [true] = true)
  /\ snd (updateSavedOnDiskFlag Redo insertModified [true]) = insertModified
  /\ forall i, testBit i (fst (updateSavedOnDiskFlag Redo insertModified [true]))
               = testBit i [true].
Proof.
  assert (forall s, s ∈ slotsMarked (edit insertModified) Redo ->
            testBit (slotLine insertModified s) [true] = true) as Hall.
  { intros s Hs%list_elem_of_In. simpl in Hs. destruct Hs as [<-|[]]. reflexivity. }
  split; [exact Hall|].
  apply (update_marked_lines Redo insertModified [true] Hall).
Defined.

Ltac flags_in_slots H :=
  cases_of H; injection H as <-;
  let Hp := fresh "Hp" in
  intros Hp;
  match goal with
  | |- ?s ∈ slotsMarked _ ?d =>
      destruct d, s; simpl;
      first [ apply list_elem_of_In; simpl; tauto
            | exfalso; revert Hp; unfold pairSet; flags; done ]
  end.

Lemma reachable_slots u d s :
  reachable u -> pairSet d s u = true -> s ∈ slotsMarked (edit u) d.
Proof.
  intros Hreach. revert d s.
  induction Hreach as [? ? ? ? ? H|? ? ? ? ? H|? ? ? ? ? ? H|? ? ? ? ? ? H| ? ?
                       |? ? ? ? H|u lines _ IH|u lines _ IH]; intros d s.
  - unfold KateModifiedInsertText in H. lookup_line H. all: flags_in_slots H.
  - unfold KateModifiedRemoveText in H. lookup_line H. all: flags_in_slots H.
  - unfold KateModifiedWrapLine in H. lookup_line H. all: flags_in_slots H.
  - unfold KateModifiedUnWrapLine in H. lookup_line H. lookup_line H.
    all: flags_in_slots H.
  - intros Hp. destruct d, s; simpl;
      first [ apply list_elem_of_In; simpl; tauto
            | exfalso; revert Hp; unfold pairSet, KateModifiedInsertLine; flags; done ].
  - unfold KateModifiedRemoveLine in H. lookup_line H. all: flags_in_slots H.
  - destruct (update_spec Redo u lines) as
      (lines' & u' & Hrun & Hedit & _ & _ & _ & Hflags & _ & _).
    simpl in Hrun. rewrite Hrun. simpl. rewrite Hedit. intros Hp.
    destruct (decide (s ∈ slotsMarked (edit u) d)) as [|Hout]; [done|].
    apply IH. unfold pairSet in *.
    destruct (Hflags d s) as [<- <-]; [|done].
    destruct (decide (d = Redo)) as [->|Hd]; [by right|by left].
  - destruct (update_spec Undo u lines) as
      (lines' & u' & Hrun & Hedit & _ & _ & _ & Hflags & _ & _).
    simpl in Hrun. rewrite Hrun. simpl. rewrite Hedit. intros Hp.
    destruct (decide (s ∈ slotsMarked (edit u) d)) as [|Hout]; [done|].
    apply IH. unfold pairSet in *.
    destruct (Hflags d s) as [<- <-]; [|done].
    destruct (decide (d = Undo)) as [->|Hd]; [by right|by left].
Qed.

(** X24: a record that exists carries no dead flag: a pair with a flag set
    belongs to a line that [undo] (for an undo pair) or [redo] (for a redo
    pair) of the record writes, and on an existing line that execution
    leaves at least one mark. *)
Theorem reachable_flags_written (exclusive : bool)
    (KateEditUndo_undo KateEditUndo_redo : KateEditUndo -> Document -> Document)
    (d : Direction) (u : KateUndo) (s : LineSlot) (document : Document) :
  reachable u -> pairSet d s u = true ->
  (forall s', s' ∈ slotsMarked (edit u) d ->
     is_Some (plainKateTextLine
                (textMutation KateEditUndo_undo KateEditUndo_redo d (edit u) document)
                (slotLine u s'))) ->
  s ∈ slotsMarked (edit u) d
  /\ exists document' m,
       execute exclusive KateEditUndo_undo KateEditUndo_redo d u document
       = Some document'
       /\ marksOf document' (slotLine u s) = Some (m, negb m).
Proof.
  intros Hreach Hp Hex.
  pose proof (reachable_slots u d s Hreach Hp) as Hs. split; [done|].
  rewrite execute_as_markSlots.
  destruct (reachable_pairs u Hreach) as [Hone _].
  pose proof (proj1 (atMostOnePerPair_spec u) Hone d s) as Hpair.
  destruct (markSlots_spec exclusive d u _ _ (slotsMarked_NoDup (edit u) d) Hex)
    as (doc' & Hrun & _ & _ & _ & _ & Hmarks).
  exists doc', (isFlagSet (modifiedFlag d s) u). split; [done|].
  rewrite (Hmarks s Hs Hpair). unfold pairSet in Hp.
  by destruct (isFlagSet (modifiedFlag d s) u), (isFlagSet (savedFlag d s) u).
Qed.

Lemma reachable_flags_written_witness :
  reachable wrapInside
  /\ pairSet Redo Line2 wrapInside = true
  /\ Line2 ∈ slotsMarked (edit wrapInside) Redo
  /\ exists document' m,
       execute true exampleUndo exampleRedo Redo wrapInside cleanDocument
       = Some document'
       /\ marksOf document' (slotLine wrapInside Line2) = Some (m, negb m).
Proof.
  assert (reachable wrapInside) as Hreach
    by (apply (reach_WrapLine cleanDocument 0 3 2 true); reflexivity).
  split; [exact Hreach|]. split; [reflexivity|].
  apply (reachable_flags_written true exampleUndo exampleRedo Redo wrapInside
           Line2 cleanDocument Hreach).
  - reflexivity.
  - intros s Hs. destruct s; vm_compute; eauto.
Defined.

Section Reconciled.

Variable exclusive : bool.
Variable KateEditUndo_undo : KateEditUndo -> Document -> Document.
Variable KateEditUndo_redo : KateEditUndo -> Document -> Document.

(** X23: save, then undo or redo.  A record that exists, updated for a
    direction while one of its lines is not yet marked in the bitmap,
    leaves that line saved on disk and not modified when it is executed in
    that direction, provided the pair of the line was set. *)
Theorem update_then_execute (d : Direction) (u : KateUndo) (s : LineSlot)
    (lines : QBitArray) (document : Document) :
  reachable u ->
  s ∈ slotsMarked (edit u) d ->
  pairSet d s u = true ->
  testBit (slotLine u s) lines = false ->
  (forall s', s' ∈ slotsMarked (edit u) d ->
     is_Some (plainKateTextLine
                (textMutation KateEditUndo_undo KateEditUndo_redo d (edit u) document)
                (slotLine u s'))) ->
  exists document',
    execute exclusive KateEditUndo_undo KateEditUndo_redo d
      (snd (updateSavedOnDiskFlag d u lines)) document
    = Some document'
    /\ marksOf document' (slotLine u s) = Some (false, true).
Proof.
  intros Hreach Hs Hset Hbit Hex.
  assert (reachable (snd (updateSavedOnDiskFlag d u lines))) as Hreach'.
  { destruct d; simpl; by constructor. }
  destruct (update_spec d u lines) as
    (lines' & u' & Hrun & Hedit & _ & _ & _ & _ & Hsl & _).
  rewrite Hrun in *. simpl in *.
  specialize (Hsl s Hs). rewrite Hbit, andb_true_r in Hsl.
  assert (isFlagSet (modifiedFlag d s) u' = false
          /\ isFlagSet (savedFlag d s) u' = true) as [Hm Hsv].
  { unfold pairSet in Hset.
    destruct (singleLineKind u), (isFlagSet (modifiedFlag d s) u); simpl in *;
      destruct Hsl as (Hm & Hsv & _); rewrite Hm, Hsv; done. }
  rewrite execute_as_markSlots, Hedit.
  destruct (markSlots_spec exclusive d u' (slotsMarked (edit u) d)
              (textMutation KateEditUndo_undo KateEditUndo_redo d (edit u) document)
              (slotsMarked_NoDup (edit u) d))
    as (doc' & Hrun' & _ & _ & _ & _ & Hmarks).
  { intros s' Hs'. rewrite (slotLine_edit u' u s' Hedit). by apply Hex. }
  exists doc'. split; [done|].
  specialize (Hmarks s Hs). rewrite (slotLine_edit u' u s Hedit), Hm, Hsv in Hmarks.
  by apply Hmarks.
Qed.

End Reconciled.

Lemma update_then_execute_witness :
  reachable insertModified
  /\ pairSet Redo Line1 insertModified = true
  /\ testBit (slotLine insertModified Line1) [] = false
  /\ exists document',
       execute true exampleUndo exampleRedo Redo
         (snd (updateSavedOnDiskFlag Redo insertModified [])) modifiedDocument
       = Some document'
       /\ marksOf document' (slotLine insertModified Line1) = Some (false, true).
Proof.
  assert (reachable insertModified) as Hreach
    by (apply (reach_InsertText modifiedDocument 0 3 [33]); reflexivity).
  split; [exact Hreach|]. split; [reflexivity|]. split; [reflexivity|].
  apply (update_then_execute true exampleUndo exampleRedo Redo insertModified
           Line1 [] modifiedDocument Hreach).
  - apply list_elem_of_In. simpl. tauto.
  - reflexivity.
  - reflexivity.
  - intros s' Hs'%list_elem_of_In. simpl in Hs'. destruct Hs' as [<-|[]].
    vm_compute. eauto.
Defined.

End SaveFlags.

(** ** The save-reconciliation pass, run twice *)

Module Reconciliation.
Import UndoFacts UndoExecution SaveFlags.

Lemma KateUndo_ext u v :
  edit u = edit v ->
  (forall d s,
     isFlagSet (modifiedFlag d s) u = isFlagSet (modifiedFlag d s) v
     /\ isFlagSet (savedFlag d s) u = isFlagSet (savedFlag d s) v) ->
  u = v.
Proof.
  intros He Hf.
  assert (forall f, isFlagSet f u = isFlagSet f v) as Hall.
  { intros [].
    - apply (Hf Undo Line1).
    - apply (Hf Undo Line2).
    - apply (Hf Undo Line1).
    - apply (Hf Undo Line2).
    - apply (Hf Redo Line1).
    - apply (Hf Redo Line2).
    - apply (Hf Redo Line1).
    - apply (Hf Redo Line2). }
  destruct u as [e F], v as [e' F']. simpl in He. subst e'. f_equal.
  apply set_eq. intros f. specialize (Hall f). unfold isFlagSet in Hall.
  simpl in Hall. split; intros Hin.
  - apply (proj1 (bool_decide_eq_true (f ∈ F'))). rewrite <- Hall.
    by apply bool_decide_eq_true.
  - apply (proj1 (bool_decide_eq_true (f ∈ F))). rewrite Hall.
    by apply bool_decide_eq_true.
Qed.

Lemma writes_spec d u l :
  writes d u l = true
  <-> exists s, s ∈ slotsMarked (edit u) d /\ slotLine u s = l.
Proof.
  unfold writes. rewrite existsb_exists. split.
  - intros (s & Hs & Heq%Nat.eqb_eq). exists s. by rewrite list_elem_of_In.
  - intros (s & Hs & Heq). exists s. rewrite <- list_elem_of_In.
    split; [done|]. by apply Nat.eqb_eq.
Qed.

Lemma writes_false d u l :
  writes d u l = false
  <-> forall s, s ∈ slotsMarked (edit u) d -> slotLine u s <> l.
Proof.
  split.
  - intros Hw s Hs Heq.
    assert (writes d u l = true) as Ht by (apply writes_spec; eauto). congruence.
  - intros Hno. destruct (writes d u l) eqn:Hw; [|done].
    apply writes_spec in Hw as (s & Hs & Heq). by destruct (Hno s Hs).
Qed.

Lemma writes_edit d u v l :
  edit u = edit v -> writes d u l = writes d v l.
Proof.
  intros He. apply Bool.eq_true_iff_eq. rewrite !writes_spec, He.
  split; intros (s & Hs & Heq); exists s; (split; [done|]);
    [rewrite <- (slotLine_edit u v s He) | rewrite (slotLine_edit u v s He)]; done.
Qed.

Lemma claimsKept_cons d u rest :
  claimsKept d (u :: rest) = true
  <-> (forall s, s ∈ slotsMarked (edit u) d ->
         singleLineKind u = false ->
         isFlagSet (modifiedFlag d s) u = true ->
         forall v, v ∈ rest -> writes d v (slotLine u s) = false)
      /\ claimsKept d rest = true.
Proof.
  cbn [claimsKept]. rewrite andb_true_iff, forallb_forall.
  split; intros [Hhead Hrest]; (split; [|done]).
  - intros s Hs Hkind Hm v Hv. apply list_elem_of_In in Hs, Hv.
    specialize (Hhead s Hs). rewrite Hkind, Hm in Hhead. simpl in Hhead.
    pose proof (proj1 (forallb_forall _ _) Hhead v Hv) as Hw.
    by apply negb_true_iff in Hw.
  - intros s Hs%list_elem_of_In.
    destruct (singleLineKind u) eqn:Hkind; [done|].
    destruct (isFlagSet (modifiedFlag d s) u) eqn:Hm; [|done]. simpl.
    apply forallb_forall. intros v Hv%list_elem_of_In.
    apply negb_true_iff. by apply (Hhead s Hs eq_refl Hm).
Qed.

Lemma claimsKept_sameDirection d items items2 :
  Forall2 (sameDirection d) items items2 ->
  claimsKept d items = true -> claimsKept d items2 = true.
Proof.
  induction 1 as [|u u2 rest rest2 [He Hf] Hrest IH]; [done|].
  rewrite !claimsKept_cons. intros [Hhead Hkept]. split; [|by apply IH].
  intros s Hs Hkind Hm v2 [i Hv2]%list_elem_of_lookup.
  destruct (Forall2_lookup_r _ _ _ _ _ Hrest Hv2) as (v & Hv & [Hev _]).
  rewrite <- (slotLine_edit u u2 s He), <- (writes_edit d v v2 _ Hev).
  rewrite <- He in Hs. destruct (Hf s) as [Hfm _].
  apply (Hhead s Hs).
  - unfold singleLineKind in *. by rewrite He.
  - by rewrite Hfm.
  - apply list_elem_of_lookup. eauto.
Qed.

(** A sweep of one direction leaves the records as they are in the other
    direction. *)
Lemma sweep_other_direction d d' items : forall (lines : QBitArray),
  d' <> d ->
  Forall2 (sameDirection d') items
    (snd (sweep (updateSavedOnDiskFlag d) items lines)).
Proof.
  induction items as [|u rest IH]; intros lines Hd; [by constructor|].
  rewrite sweep_cons. constructor; [|by apply IH].
  destruct (update_spec d u lines) as (B & u' & -> & He & _ & _ & _ & Hfl & _).
  simpl. split; [done|]. intros s.
  destruct (Hfl d' s) as [-> ->]; [by left|done].
Qed.

Lemma sameDirection_refl d items : Forall2 (sameDirection d) items items.
Proof. induction items; constructor; [by split|done]. Qed.

(** The second update of a record, with a bitmap that has no more bits than
    the first one had and lacks only bits of lines the record does not
    write: the record stays, and the bitmaps keep that relation, up to the
    lines the record itself claimed. *)
Lemma update_settled d u v (B1 B2 : QBitArray) :
  (forall l, testBit l B2 = true -> testBit l B1 = true) ->
  (forall l, testBit l B1 = true -> testBit l B2 = false -> writes d u l = false) ->
  sameDirection d (snd (updateSavedOnDiskFlag d u B1)) v ->
  snd (updateSavedOnDiskFlag d v B2) = v
  /\ (forall l, testBit l (fst (updateSavedOnDiskFlag d v B2)) = true ->
        testBit l (fst (updateSavedOnDiskFlag d u B1)) = true)
  /\ (forall l, testBit l (fst (updateSavedOnDiskFlag d u B1)) = true ->
        testBit l (fst (updateSavedOnDiskFlag d v B2)) = false ->
        (testBit l B1 = true /\ testBit l B2 = false)
        \/ exists s, s ∈ slotsMarked (edit u) d /\ singleLineKind u = false
                     /\ isFlagSet (modifiedFlag d s) u = true
                     /\ slotLine u s = l).
Proof.
  intros Hsub Hgap Hsame.
  destruct (update_spec d u B1) as
    (B1' & u' & Hr1 & He1 & _ & Hmono1 & Hoth1 & _ & Hsl1 & _).
  destruct (update_spec d v B2) as
    (B2' & v' & Hr2 & He2 & _ & Hmono2 & Hoth2 & Hfl2 & Hsl2 & _).
  rewrite Hr1 in *. rewrite Hr2. simpl in *.
  destruct Hsame as [Hev Hfv].
  assert (edit v = edit u) as Hvu by congruence.
  assert (forall s, slotLine v s = slotLine u s) as Hline
    by (intros s; by apply slotLine_edit).
  assert (singleLineKind v = singleLineKind u) as Hkind
    by (unfold singleLineKind; by rewrite Hvu).
  rewrite Hvu in Hoth2, Hfl2, Hsl2.
  assert (forall s, s ∈ slotsMarked (edit u) d ->
            (isFlagSet (modifiedFlag d s) v' = isFlagSet (modifiedFlag d s) v
             /\ isFlagSet (savedFlag d s) v' = isFlagSet (savedFlag d s) v)
            /\ (testBit (slotLine u s) B2' = true ->
                testBit (slotLine u s) B1' = true)
            /\ (testBit (slotLine u s) B1' = true ->
                testBit (slotLine u s) B2' = false ->
                (testBit (slotLine u s) B1 = true
                 /\ testBit (slotLine u s) B2 = false)
                \/ (singleLineKind u = false
                    /\ isFlagSet (modifiedFlag d s) u = true))) as Hslot.
  { intros s Hs. specialize (Hsl1 s Hs). specialize (Hsl2 s Hs).
    rewrite Hline, Hkind in Hsl2. destruct (Hfv s) as [Hm Hsv].
    rewrite <- Hm, <- Hsv in Hsl2. rewrite <- Hm, <- Hsv.
    pose proof (Hsub (slotLine u s)) as Hsub'.
    pose proof (Hgap (slotLine u s)) as Hgap'.
    assert (writes d u (slotLine u s) = true) as Hw by (apply writes_spec; eauto).
    rewrite Hw in Hgap'. clear Hm Hsv Hw.
    destruct (singleLineKind u), (isFlagSet (modifiedFlag d s) u),
      (testBit (slotLine u s) B1), (testBit (slotLine u s) B2);
      simpl in Hsl1; destruct Hsl1 as (Hm1 & Hs1 & Hb1);
      rewrite Hm1, ?Hs1 in Hsl2; simpl in Hsl2;
      destruct Hsl2 as (Hm2 & Hs2 & Hb2);
      rewrite Hm2, Hs2, Hb1, Hb2, ?Hm1, ?Hs1;
      try (specialize (Hsub' eq_refl)); try (specialize (Hgap' eq_refl eq_refl));
      try discriminate; repeat split; try done; intros; try discriminate;
      try (by left); by right. }
  split; [|split].
  - apply KateUndo_ext; [done|]. intros d' s.
    destruct (decide (d' = d)) as [->|Hd]; [|apply Hfl2; by left].
    destruct (decide (s ∈ slotsMarked (edit u) d)) as [Hs|Hs];
      [apply (Hslot s Hs) | apply Hfl2; by right].
  - intros l Hl. destruct (writes d u l) eqn:Hw.
    + apply writes_spec in Hw as (s & Hs & <-). by apply (Hslot s Hs).
    + pose proof (proj1 (writes_false d u l) Hw) as Hno.
      rewrite Hoth1 by (intros s Hs Heq; by apply (Hno s Hs)).
      rewrite Hoth2 in Hl
        by (intros s Hs Heq; rewrite Hline in Heq; by apply (Hno s Hs)).
      by apply Hsub.
  - intros l Hl1 Hl2. destruct (writes d u l) eqn:Hw.
    + apply writes_spec in Hw as (s & Hs & <-).
      destruct (Hslot s Hs) as (_ & _ & Hg).
      destruct (Hg Hl1 Hl2) as [?|[? ?]]; [by left|]. right. by exists s.
    + pose proof (proj1 (writes_false d u l) Hw) as Hno. left.
      rewrite Hoth1 in Hl1 by (intros s Hs Heq; by apply (Hno s Hs)).
      rewrite Hoth2 in Hl2
        by (intros s Hs Heq; rewrite Hline in Heq; by apply (Hno s Hs)).
      done.
Qed.

(** A second sweep of the same direction changes nothing. *)
Lemma sweep_settled d items : forall items2 (B1 B2 : QBitArray),
  (forall l, testBit l B2 = true -> testBit l B1 = true) ->
  (forall l, testBit l B1 = true -> testBit l B2 = false ->
     forall u, u ∈ items -> writes d u l = false) ->
  claimsKept d items = true ->
  Forall2 (sameDirection d) (snd (sweep (updateSavedOnDiskFlag d) items B1)) items2 ->
  snd (sweep (updateSavedOnDiskFlag d) items2 B2) = items2.
Proof.
  induction items as [|u rest IH]; intros items2 B1 B2 Hsub Hgap Hkept Hrel.
  { simpl in Hrel. by apply Forall2_nil_inv_l in Hrel as ->. }
  rewrite sweep_cons in Hrel.
  apply Forall2_cons_inv_l in Hrel as (v & rest2 & Hv & Hrest & ->).
  apply claimsKept_cons in Hkept as [Hhead Hkept].
  destruct (update_settled d u v B1 B2 Hsub) as (Hfix & Hsub' & Hgap'); [|done|].
  { intros l H1 H2. apply (Hgap l H1 H2). by apply elem_of_cons; left. }
  rewrite sweep_cons, Hfix. f_equal.
  apply (IH rest2 (fst (updateSavedOnDiskFlag d u B1))); [done| |done|done].
  intros l H1 H2 w Hw.
  destruct (Hgap' l H1 H2) as [[H1' H2']|(s & Hs & Hkind & Hm & <-)].
  - apply (Hgap l H1' H2'). by apply elem_of_cons; right.
  - by apply (Hhead s Hs Hkind Hm).
Qed.

(** C4, amended: the pass is idempotent on every sequence in which no
    record writes a line that a WrapLine or UnwrapLine record before it
    claims, in the redo sweep and in the undo sweep: a second
    save-reconciliation pass, with fresh bitmaps of any size, then leaves
    every record as the first pass left it.  Sequences without WrapLine and
    UnwrapLine records, and sequences of such records on lines of their
    own, are among them. *)
Theorem reconcile_twice (n m n' m' : nat) (items : list KateUndo) :
  claimsKept Redo items = true -> claimsKept Undo items = true ->
  reconcile n' m' (reconcile n m items) = reconcile n m items.
Proof.
  intros Hredo Hundo. unfold reconcile.
  change updateRedoSavedOnDiskFlag with (updateSavedOnDiskFlag Redo).
  change updateUndoSavedOnDiskFlag with (updateSavedOnDiskFlag Undo).
  set (R1 := snd (sweep (updateSavedOnDiskFlag Redo) items (replicate n false))).
  set (U1 := snd (sweep (updateSavedOnDiskFlag Undo) R1 (replicate m false))).
  assert (snd (sweep (updateSavedOnDiskFlag Redo) U1 (replicate n' false)) = U1)
    as ->.
  { apply (sweep_settled Redo items U1 (replicate n false)); [| |done|].
    - intros l. by rewrite testBit_replicate.
    - intros l. by rewrite testBit_replicate.
    - by apply sweep_other_direction. }
  apply (sweep_settled Undo R1 U1 (replicate m false)).
  - intros l. by rewrite testBit_replicate.
  - intros l. by rewrite testBit_replicate.
  - apply (claimsKept_sameDirection Undo items); [|done].
    by apply sweep_other_direction.
  - apply sameDirection_refl.
Qed.

Lemma reconcile_twice_witness :
  let items := [insertModified; wrapModified; KateModifiedInsertLine 5 hello] in
  claimsKept Redo items = true /\ claimsKept Undo items = true
  /\ m_flags <$> reconcile 2 2 items
     = [ {[RedoLine1Saved; UndoLine1Saved]};
         {[RedoLine1Modified; RedoLine2Saved; UndoLine1Modified]};
         {[RedoLine1Saved]} ]
  /\ reconcile 2 2 (reconcile 2 2 items) = reconcile 2 2 items.
Proof.
  split; [reflexivity|]. split; [reflexivity|]. split; [reflexivity|].
  apply (reconcile_twice 2 2 2 2
           [insertModified; wrapModified; KateModifiedInsertLine 5 hello]);
    reflexivity.
Defined.

End Reconciliation.
